(** * ommx.v1 message classes: a shallow embedding of the generated C++

    The development follows the three translation units of the repository:
    - [ommx/v1/function.pb.h]  : class [Function], a oneof over
      constant / linear / quadratic / polynomial;
    - [ommx/v1/quadratic.pb.h] : class [Quadratic];
    - [ommx/v1/instance.pb.cc] : classes [Instance] and
      [Instance_Description].

    Conventions.
    - A [uint32_t], [uint64_t] or [int] is a [Z]; where the C++ wraps, the
      wrap-around is written out.
    - A [double] is the [Z] of its 64 IEEE-754 bits: no function of the
      sources computes with a double, they only store it and copy its eight
      bytes to the wire.  [0.0] is the pattern [0].
    - A [std::string] is a [list byte]; a repeated field is a [list].
    - A pointer to an owned submessage is a [ptr]: null, live (with the
      pointee) or dangling (the pointee was deleted).  Dereferencing
      anything but a live pointer has no defined result, so every operation
      that dereferences returns an [option].
    - Messages live on the heap ([GetArena() == nullptr]); arenas, cached
      sizes, TSan hooks and reflection are not modelled. *)

From Stdlib Require Import ZArith Lia.
From Stdlib Require Import Strings.Byte.
From stdpp Require Import base option list gmap.

Local Open Scope Z_scope.

(** ** Bytes *)

Definition byte_to_Z (b : byte) : Z := Z.of_N (Byte.to_N b).

(** [static_cast<uint8_t>(z)] *)
Definition byte_of_Z (z : Z) : byte :=
  match Byte.of_N (Z.to_N (z mod 256)) with
  | Some b => b
  | None => Byte.x00
  end.

Definition bytes (l : list Z) : list byte := map byte_of_Z l.

(** ** Pointers to owned submessages *)

Inductive ptr (T : Type) : Type :=
| null : ptr T
| live (v : T) : ptr T
| dangling : ptr T.
Arguments null {T}.
Arguments live {T} v.
Arguments dangling {T}.

(** [*p] *)
Definition deref {T} (p : ptr T) : option T :=
  match p with
  | live v => Some v
  | _ => None
  end.

Definition is_null {T} (p : ptr T) : bool :=
  match p with
  | null => true
  | _ => false
  end.

(** [delete p], the variable [p] left as it is: a live pointer dangles
    afterwards, deleting null does nothing, deleting twice is undefined. *)
Definition delete_ {T} (p : ptr T) : option (ptr T) :=
  match p with
  | live _ => Some dangling
  | null => Some null
  | dangling => None
  end.

(** [cached_has_bits & mask], as the condition of an [if]. *)
Definition test (cached_has_bits mask : Z) : bool :=
  negb (Z.land cached_has_bits mask =? 0).

(** [_has_bits_[0] &= ~mask] on a 32-bit word. *)
Definition clear_bits (h mask : Z) : Z := Z.land h (Z.lnot mask mod 2 ^ 32).

(** [if (p != nullptr) p->Clear()] *)
Definition clear_if_set {T} (clear : T -> T) (p : ptr T) : option (ptr T) :=
  match p with
  | null => Some null
  | live v => Some (live (clear v))
  | dangling => None
  end.

(** The submessage a singular message field parses into: the one held, or a
    new one when the pointer is null. *)
Definition get_or_new {T} (fresh : T) (p : ptr T) : option T :=
  match p with
  | null => Some fresh
  | live v => Some v
  | dangling => None
  end.

(** Addresses of message objects, for the operations that compare them. *)
Abbreviation address := positive.

(** ** The wire format

    Modelled from the spec: the coded streams of the protobuf runtime
    ([io/coded_stream.h], [wire_format_lite.h], [parse_context.h],
    [unknown_field_set.h]) are a library the generated code calls, not part of
    the repository.  Section 6 of the spec fixes the encoding: "a standard
    length-delimited binary tag/value encoding (field number + wire type per
    field, varint-encoded integers, fixed 64-bit doubles, length-prefixed
    strings/submessages/repeated-scalar-packed arrays)"; the definitions
    below are that encoding, with the limits the runtime's readers put on
    the length of a varint and of a payload.  Groups (wire types 3 and 4),
    which the schema does not use, are outside the model: the readers give
    [None] at a group tag. *)
Module Wire.

Definition WIRETYPE_VARINT : Z := 0.
Definition WIRETYPE_FIXED64 : Z := 1.
Definition WIRETYPE_LENGTH_DELIMITED : Z := 2.
Definition WIRETYPE_FIXED32 : Z := 5.

(** The largest length a reader accepts for a length-delimited field:
    [INT_MAX - ParseContext::kSlopBytes]. *)
Definition kMaxSize : Z := 2147483647 - 16.

(** Base-128 varint, least significant group first; [n] bounds the number of
    continuation bytes. *)
Fixpoint WriteVarint_go (n : nat) (v : Z) : list byte :=
  match n with
  | O => [byte_of_Z v]
  | S n' =>
      if v <? 128 then [byte_of_Z v]
      else byte_of_Z (Z.lor (Z.land v 127) 128) :: WriteVarint_go n' (Z.shiftr v 7)
  end.

(** [WriteVarint64ToArray]: at most ten bytes. *)
Definition WriteVarint64 (v : Z) : list byte := WriteVarint_go 9 v.

(** [WriteVarint32ToArray]: at most five bytes. *)
Definition WriteVarint32 (v : Z) : list byte := WriteVarint_go 4 v.

Fixpoint ReadVarint_go (n : nat) (bs : list byte) : option (Z * list byte) :=
  match n, bs with
  | S n', b :: rest =>
      let x := byte_to_Z b in
      if x <? 128 then Some (x, rest)
      else
        match ReadVarint_go n' rest with
        | Some (hi, rest') => Some (Z.land x 127 + Z.shiftl hi 7, rest')
        | None => None
        end
  | _, _ => None
  end.

(** A 64-bit varint: at most ten bytes, the value taken modulo [2^64]. *)
Definition ReadVarint64 (bs : list byte) : option (Z * list byte) :=
  match ReadVarint_go 10 bs with
  | Some (v, rest) => Some (v mod 2 ^ 64, rest)
  | None => None
  end.

(** [ReadTag]: at most five bytes, the value taken modulo [2^32]. *)
Definition ReadTag (bs : list byte) : option (Z * list byte) :=
  match ReadVarint_go 5 bs with
  | Some (v, rest) => Some (v mod 2 ^ 32, rest)
  | None => None
  end.

(** [ReadSize]: at most five bytes, refused above [kMaxSize]. *)
Definition ReadSize (bs : list byte) : option (Z * list byte) :=
  match ReadVarint_go 5 bs with
  | Some (v, rest) => if v <=? kMaxSize then Some (v, rest) else None
  | None => None
  end.

(** Little-endian fixed-width integers. *)
Fixpoint WriteLE (n : nat) (v : Z) : list byte :=
  match n with
  | O => []
  | S n' => byte_of_Z (Z.land v 255) :: WriteLE n' (Z.shiftr v 8)
  end.

Fixpoint ReadLE (n : nat) (bs : list byte) : option (Z * list byte) :=
  match n with
  | O => Some (0, bs)
  | S n' =>
      match bs with
      | b :: rest =>
          match ReadLE n' rest with
          | Some (hi, rest') => Some (byte_to_Z b + Z.shiftl hi 8, rest')
          | None => None
          end
      | [] => None
      end
  end.

(** What one field carries on the wire, by wire type. *)
Inductive WireValue : Type :=
| Varint (v : Z)
| Fixed64 (v : Z)
| LengthDelimited (payload : list byte)
| Fixed32 (v : Z).

Definition wire_type (w : WireValue) : Z :=
  match w with
  | Varint _ => WIRETYPE_VARINT
  | Fixed64 _ => WIRETYPE_FIXED64
  | LengthDelimited _ => WIRETYPE_LENGTH_DELIMITED
  | Fixed32 _ => WIRETYPE_FIXED32
  end.

(** [WireFormatLite::MakeTag] *)
Definition MakeTag (field_number wt : Z) : Z :=
  Z.lor (Z.shiftl field_number 3) wt.

Definition WriteTag (field_number wt : Z) : list byte :=
  WriteVarint32 (MakeTag field_number wt).

Definition WriteValue (w : WireValue) : list byte :=
  match w with
  | Varint v => WriteVarint64 v
  | Fixed64 v => WriteLE 8 v
  | LengthDelimited payload =>
      WriteVarint32 (Z.of_nat (length payload)) ++ payload
  | Fixed32 v => WriteLE 4 v
  end.

(** One field: its tag, then its value. *)
Definition WriteField (field_number : Z) (w : WireValue) : list byte :=
  WriteTag field_number (wire_type w) ++ WriteValue w.

(** [UnknownFieldSet]: the fields a parser met and did not recognise, each
    kept as its number and its decoded value, in the order of arrival. *)
Definition UnknownField : Type := Z * WireValue.
Definition UnknownFieldSet : Type := list UnknownField.

(** [WireFormat::InternalSerializeUnknownFieldsToArray] *)
Definition SerializeUnknownFields (u : UnknownFieldSet) : list byte :=
  concat (map (fun f => WriteField (fst f) (snd f)) u).

(** [stream->WriteString(field_number, s, target)] and
    [WriteStringMaybeAliased]: the field as a length-delimited one. *)
Definition WriteString (field_number : Z) (s : list byte) : list byte :=
  WriteField field_number (LengthDelimited s).

(** [WireFormatLite::InternalWriteMessage]: the submessage's bytes as a
    length-delimited field. *)
Definition InternalWriteMessage (field_number : Z) (payload : list byte)
  : list byte :=
  WriteField field_number (LengthDelimited payload).

(** [WireFormatLite::WriteEnumToArray]: the [int] sign-extended to 64 bits,
    as a varint. *)
Definition WriteEnumToArray (field_number value : Z) : list byte :=
  WriteField field_number (Varint (value mod 2 ^ 64)).

(** [_internal_metadata_.have_unknown_fields()] *)
Definition have_unknown_fields (u : UnknownFieldSet) : bool :=
  match u with [] => false | _ => true end.

(** [static_cast<int32_t>] of a value read off the wire. *)
Definition to_int32 (v : Z) : Z :=
  let w := v mod 2 ^ 32 in
  if w <? 2 ^ 31 then w else w - 2 ^ 32.

(** Reads one field off the front of [bs]: tag, then the value its wire type
    announces.  Field number 0 and wire types 6 and 7 are errors. *)
Definition ReadField (bs : list byte) : option (Z * WireValue * list byte) :=
  match ReadTag bs with
  | None => None
  | Some (tag, rest) =>
      let field_number := Z.shiftr tag 3 in
      let wt := Z.land tag 7 in
      if field_number =? 0 then None
      else if wt =? WIRETYPE_VARINT then
        match ReadVarint64 rest with
        | Some (v, rest') => Some (field_number, Varint v, rest')
        | None => None
        end
      else if wt =? WIRETYPE_FIXED64 then
        match ReadLE 8 rest with
        | Some (v, rest') => Some (field_number, Fixed64 v, rest')
        | None => None
        end
      else if wt =? WIRETYPE_LENGTH_DELIMITED then
        match ReadSize rest with
        | Some (n, rest') =>
            if Z.of_nat (length rest') <? n then None
            else Some (field_number, LengthDelimited (take (Z.to_nat n) rest'),
                       drop (Z.to_nat n) rest')
        | None => None
        end
      else if wt =? WIRETYPE_FIXED32 then
        match ReadLE 4 rest with
        | Some (v, rest') => Some (field_number, Fixed32 v, rest')
        | None => None
        end
      else None
  end.

(** [TcParser::ParseLoop]: read a field, hand it to the message's table
    ([handle]), go on until the input is used up.  Every field takes at
    least one byte, so [length bs] rounds are enough. *)
Fixpoint ParseLoop_go {T} (handle : T -> Z -> WireValue -> option T)
    (fuel : nat) (this : T) (bs : list byte) : option T :=
  match bs with
  | [] => Some this
  | _ :: _ =>
      match fuel with
      | O => None
      | S fuel' =>
          match ReadField bs with
          | Some (field_number, w, rest) =>
              match handle this field_number w with
              | Some this' => ParseLoop_go handle fuel' this' rest
              | None => None
              end
          | None => None
          end
      end
  end.

Definition ParseLoop {T} (handle : T -> Z -> WireValue -> option T)
    (this : T) (bs : list byte) : option T :=
  ParseLoop_go handle (length bs) this bs.

(** Packed repeated scalars: the payload of one length-delimited field is
    the values one after the other. *)
Definition WritePackedVarint (l : list Z) : list byte :=
  concat (map WriteVarint64 l).

Definition WritePackedFixed64 (l : list Z) : list byte :=
  concat (map (WriteLE 8) l).

Fixpoint ReadPackedVarint_go (fuel : nat) (bs : list byte) : option (list Z) :=
  match bs with
  | [] => Some []
  | _ :: _ =>
      match fuel with
      | O => None
      | S fuel' =>
          match ReadVarint64 bs with
          | Some (v, rest) =>
              match ReadPackedVarint_go fuel' rest with
              | Some vs => Some (v :: vs)
              | None => None
              end
          | None => None
          end
      end
  end.

Definition ReadPackedVarint (bs : list byte) : option (list Z) :=
  ReadPackedVarint_go (length bs) bs.

Fixpoint ReadPackedFixed64_go (fuel : nat) (bs : list byte) : option (list Z) :=
  match bs with
  | [] => Some []
  | _ :: _ =>
      match fuel with
      | O => None
      | S fuel' =>
          match ReadLE 8 bs with
          | Some (v, rest) =>
              match ReadPackedFixed64_go fuel' rest with
              | Some vs => Some (v :: vs)
              | None => None
              end
          | None => None
          end
      end
  end.

Definition ReadPackedFixed64 (bs : list byte) : option (list Z) :=
  ReadPackedFixed64_go (length bs) bs.

(** A field as the wire can carry it: a field number of 29 bits, a value of
    its wire type's width, a payload under the length limit. *)
Definition value_ok (w : WireValue) : Prop :=
  match w with
  | Varint v => 0 <= v < 2 ^ 64
  | Fixed64 v => 0 <= v < 2 ^ 64
  | LengthDelimited payload => Z.of_nat (length payload) <= kMaxSize
  | Fixed32 v => 0 <= v < 2 ^ 32
  end.

Definition field_ok (f : UnknownField) : Prop :=
  1 <= fst f < 2 ^ 29 /\ value_ok (snd f).

(** A message's table applied to a list of fields, in order: what
    [ParseLoop] does once the bytes are split into fields. *)
Fixpoint feed {T} (handle : T -> Z -> WireValue -> option T) (this : T)
    (fs : list UnknownField) : option T :=
  match fs with
  | [] => Some this
  | f :: fs' =>
      match handle this (fst f) (snd f) with
      | Some this' => feed handle this' fs'
      | None => None
      end
  end.

(** [CodedOutputStream::VarintSize32] and [VarintSize64]: the number of
    bytes a varint takes, computed without a loop as
    [(Log2FloorNonZero(value | 0x1) * 9 + 73) / 64]. *)
Definition VarintSize32 (value : Z) : Z :=
  (Z.log2 (Z.lor value 1) * 9 + 73) / 64.

Definition VarintSize64 (value : Z) : Z :=
  (Z.log2 (Z.lor value 1) * 9 + 73) / 64.

(** [WireFormatLite::EnumSize]: the size of the [int] sign-extended to 64
    bits. *)
Definition EnumSize (value : Z) : Z := VarintSize64 (value mod 2 ^ 64).

(** [WireFormatLite::LengthDelimitedSize]: the length is cut to a
    [uint32_t] for its prefix. *)
Definition LengthDelimitedSize (length : Z) : Z :=
  length + VarintSize32 (length mod 2 ^ 32).

(** [WireFormatLite::StringSize] *)
Definition StringSize (value : list byte) : Z :=
  LengthDelimitedSize (Z.of_nat (length value)).

(** One round of the loop of [WireFormat::ComputeUnknownFieldsSize]. *)
Definition UnknownFieldSize (f : UnknownField) : Z :=
  VarintSize32 (MakeTag (fst f) (wire_type (snd f))) +
  match snd f with
  | Varint v => VarintSize64 v
  | Fixed64 _ => 8
  | LengthDelimited payload =>
      VarintSize32 (Z.of_nat (length payload) mod 2 ^ 32) +
      Z.of_nat (length payload)
  | Fixed32 _ => 4
  end.

Definition ComputeUnknownFieldsSize (u : UnknownFieldSet) : Z :=
  fold_left (fun size f => size + UnknownFieldSize f) u 0.

(** [Message::MaybeComputeUnknownFieldsSize], the cached size apart. *)
Definition MaybeComputeUnknownFieldsSize (total_size : Z) (u : UnknownFieldSet)
  : Z :=
  if have_unknown_fields u then total_size + ComputeUnknownFieldsSize u
  else total_size.

End Wire.

(** ** The interface of a message class

    What [google::protobuf::Message] declares and every generated class
    overrides.  [InternalParse this bs] is [this->_InternalParse]: it merges
    the fields read from [bs] into [this] and fails on malformed input. *)
Class Message (T : Type) : Type := {
  default_instance : T;
  Clear : T -> T;
  MergeFrom : T -> T -> T;
  InternalSerialize : T -> list byte;
  InternalParse : T -> list byte -> option T;
}.

(** What the theorems below ask of a message class whose code is not among
    the sources: which objects keep the class invariant ([msg_wf]), which
    ones the wire can carry ([msg_valid]), when two objects are equal field
    for field ([msg_same]); that parsing what an object serialises to gives
    the object back, and that merging into a cleared object copies the
    source. *)
Class MessageLaws (T : Type) `{Message T} : Type := {
  msg_wf : T -> Prop;
  msg_valid : T -> Prop;
  msg_same : T -> T -> Prop;
  msg_same_refl : forall x, msg_wf x -> msg_same x x;
  msg_parse_serialize : forall x, msg_valid x ->
    exists y, InternalParse default_instance (InternalSerialize x) = Some y /\
              msg_same y x;
  msg_merge_clear : forall x y, msg_wf x -> msg_wf y ->
    msg_same (MergeFrom (Clear x) y) y;
}.

(** [MessageLite::ByteSizeLong], the one method of the interface that the
    size computations below call on a submessage. *)
Class ByteSize (T : Type) : Type := ByteSizeLong : T -> Z.

(** A message class with no field of its own: what a program compiled
    without linear.proto, polynomial.proto, decision_variables.proto or
    constraint.proto makes of those messages.  Every field read is kept as
    an unknown field and written back.  It stands in for the four classes
    wherever a statement below is run on a concrete object. *)
Module Opaque.

Record Opaque : Type := { _internal_metadata_ : Wire.UnknownFieldSet }.

Definition Opaque_default_instance : Opaque := {| _internal_metadata_ := [] |}.

Definition Clear_ (m : Opaque) : Opaque := Opaque_default_instance.

Definition MergeImpl (_this from : Opaque) : Opaque :=
  {| _internal_metadata_ := _internal_metadata_ _this ++ _internal_metadata_ from |}.

Definition _InternalSerialize (m : Opaque) : list byte :=
  Wire.SerializeUnknownFields (_internal_metadata_ m).

Definition table (this : Opaque) (field_number : Z) (w : Wire.WireValue)
  : option Opaque :=
  Some {| _internal_metadata_ := _internal_metadata_ this ++ [(field_number, w)] |}.

Definition _InternalParse (this : Opaque) (bs : list byte) : option Opaque :=
  Wire.ParseLoop table this bs.

Definition Opaque_Message : Message Opaque :=
  Build_Message Opaque Opaque_default_instance Clear_ MergeImpl
    _InternalSerialize _InternalParse.

Definition ByteSizeLong_ (m : Opaque) : Z :=
  Wire.MaybeComputeUnknownFieldsSize 0 (_internal_metadata_ m).

Definition Opaque_ByteSize : ByteSize Opaque := ByteSizeLong_.

End Opaque.

(** ** [ommx/v1/function.pb.h] *)
Module Function.
Section WithSubmessages.

(** [linear.pb.h], [polynomial.pb.h] are not among the sources and
    [Function] only stores pointers to these classes: they are parameters. *)
Context {Linear Quadratic Polynomial : Type}.
Context `{!Message Linear, !Message Quadratic, !Message Polynomial}.

(** [enum FunctionCase] *)
Definition kConstant : Z := 1.
Definition kLinear : Z := 2.
Definition kQuadratic : Z := 3.
Definition kPolynomial : Z := 4.
Definition FUNCTION_NOT_SET : Z := 0.

(** [union FunctionUnion]: the member last written. *)
Inductive FunctionUnion : Type :=
| _constinit_
| constant_ (v : Z)
| linear_ (p : ptr Linear)
| quadratic_ (p : ptr Quadratic)
| polynomial_ (p : ptr Polynomial).

(** [Function::Impl_], with the unknown fields of [_internal_metadata_]. *)
Record Function : Type := {
  function_ : FunctionUnion;
  _oneof_case_ : Z;
  _internal_metadata_ : Wire.UnknownFieldSet;
}.

Definition with_function (u : FunctionUnion) (f : Function) : Function :=
  {| function_ := u; _oneof_case_ := _oneof_case_ f;
     _internal_metadata_ := _internal_metadata_ f |}.

Definition with_oneof_case (c : Z) (f : Function) : Function :=
  {| function_ := function_ f; _oneof_case_ := c;
     _internal_metadata_ := _internal_metadata_ f |}.

(** [_Function_default_instance_] *)
Definition Function_default_instance : Function :=
  {| function_ := _constinit_; _oneof_case_ := 0; _internal_metadata_ := [] |}.

(** Reading one member of the union: defined only when that member is the
    one stored. *)
Definition read_constant_ (f : Function) : option Z :=
  match function_ f with constant_ v => Some v | _ => None end.
Definition read_linear_ (f : Function) : option (ptr Linear) :=
  match function_ f with linear_ p => Some p | _ => None end.
Definition read_quadratic_ (f : Function) : option (ptr Quadratic) :=
  match function_ f with quadratic_ p => Some p | _ => None end.
Definition read_polynomial_ (f : Function) : option (ptr Polynomial) :=
  match function_ f with polynomial_ p => Some p | _ => None end.

Definition function_case (f : Function) : Z := _oneof_case_ f.

Definition has_function (f : Function) : bool :=
  negb (function_case f =? FUNCTION_NOT_SET).

Definition clear_has_function (f : Function) : Function :=
  with_oneof_case FUNCTION_NOT_SET f.

(** Modelled from the spec: [clear_function] is declared at
    function.pb.h:279 and defined in function.pb.cc, which is not among the
    sources.  Section 4.1: "clear active variant"; "Setting any variant
    clears and releases whichever variant was previously held".  The held
    submessage is deleted and the case becomes [FUNCTION_NOT_SET]; a
    constant needs no release. *)
Definition clear_function (f : Function) : option Function :=
  if function_case f =? kLinear then
    p ← read_linear_ f; p' ← delete_ p;
    Some (clear_has_function (with_function (linear_ p') f))
  else if function_case f =? kQuadratic then
    p ← read_quadratic_ f; p' ← delete_ p;
    Some (clear_has_function (with_function (quadratic_ p') f))
  else if function_case f =? kPolynomial then
    p ← read_polynomial_ f; p' ← delete_ p;
    Some (clear_has_function (with_function (polynomial_ p') f))
  else Some (clear_has_function f).

(** *** [double constant = 1] *)

Definition has_constant (f : Function) : bool := function_case f =? kConstant.

Definition set_has_constant (f : Function) : Function :=
  with_oneof_case kConstant f.

Definition clear_constant (f : Function) : Function :=
  if function_case f =? kConstant
  then clear_has_function (with_function (constant_ 0) f)
  else f.

Definition _internal_constant (f : Function) : option Z :=
  if function_case f =? kConstant then read_constant_ f else Some 0.

Definition constant (f : Function) : option Z := _internal_constant f.

Definition set_constant (value : Z) (f : Function) : option Function :=
  f' ← (if negb (function_case f =? kConstant)
        then set_has_constant <$> clear_function f
        else Some f);
  Some (with_function (constant_ value) f').

(** *** [.ommx.v1.Linear linear = 2] *)

Definition has_linear (f : Function) : bool := function_case f =? kLinear.
Definition _internal_has_linear (f : Function) : bool :=
  function_case f =? kLinear.

Definition set_has_linear (f : Function) : Function :=
  with_oneof_case kLinear f.

(** The released submessage now belongs to the caller; the member is
    nulled. *)
Definition release_linear (f : Function) : option (Function * ptr Linear) :=
  if function_case f =? kLinear then
    temp ← read_linear_ (clear_has_function f);
    Some (with_function (linear_ null) (clear_has_function f), temp)
  else Some (f, null).

Definition _internal_linear (f : Function) : option Linear :=
  if function_case f =? kLinear
  then p ← read_linear_ f; deref p
  else Some default_instance.

Definition linear (f : Function) : option Linear := _internal_linear f.

Definition unsafe_arena_release_linear (f : Function)
  : option (Function * ptr Linear) :=
  if function_case f =? kLinear then
    temp ← read_linear_ (clear_has_function f);
    Some (with_function (linear_ null) (clear_has_function f), temp)
  else Some (f, null).

Definition unsafe_arena_set_allocated_linear (value : ptr Linear)
    (f : Function) : option Function :=
  f' ← clear_function f;
  if is_null value then Some f'
  else Some (with_function (linear_ value) (set_has_linear f')).

(** The pointer handed back is the member itself; [DefaultConstruct] gives
    a fresh submessage equal to the default instance. *)
Definition _internal_mutable_linear (f : Function)
  : option (Function * ptr Linear) :=
  f' ← (if negb (function_case f =? kLinear)
        then f0 ← clear_function f;
             Some (with_function (linear_ (live default_instance))
                     (set_has_linear f0))
        else Some f);
  p ← read_linear_ f';
  Some (f', p).

Definition mutable_linear (f : Function) : option (Function * ptr Linear) :=
  _internal_mutable_linear f.

(** *** [.ommx.v1.Quadratic quadratic = 3] *)

Definition has_quadratic (f : Function) : bool :=
  function_case f =? kQuadratic.
Definition _internal_has_quadratic (f : Function) : bool :=
  function_case f =? kQuadratic.

Definition set_has_quadratic (f : Function) : Function :=
  with_oneof_case kQuadratic f.

Definition release_quadratic (f : Function)
  : option (Function * ptr Quadratic) :=
  if function_case f =? kQuadratic then
    temp ← read_quadratic_ (clear_has_function f);
    Some (with_function (quadratic_ null) (clear_has_function f), temp)
  else Some (f, null).

Definition _internal_quadratic (f : Function) : option Quadratic :=
  if function_case f =? kQuadratic
  then p ← read_quadratic_ f; deref p
  else Some default_instance.

Definition quadratic (f : Function) : option Quadratic :=
  _internal_quadratic f.

Definition unsafe_arena_release_quadratic (f : Function)
  : option (Function * ptr Quadratic) :=
  if function_case f =? kQuadratic then
    temp ← read_quadratic_ (clear_has_function f);
    Some (with_function (quadratic_ null) (clear_has_function f), temp)
  else Some (f, null).

Definition unsafe_arena_set_allocated_quadratic (value : ptr Quadratic)
    (f : Function) : option Function :=
  f' ← clear_function f;
  if is_null value then Some f'
  else Some (with_function (quadratic_ value) (set_has_quadratic f')).

Definition _internal_mutable_quadratic (f : Function)
  : option (Function * ptr Quadratic) :=
  f' ← (if negb (function_case f =? kQuadratic)
        then f0 ← clear_function f;
             Some (with_function (quadratic_ (live default_instance))
                     (set_has_quadratic f0))
        else Some f);
  p ← read_quadratic_ f';
  Some (f', p).

Definition mutable_quadratic (f : Function)
  : option (Function * ptr Quadratic) :=
  _internal_mutable_quadratic f.

(** *** [.ommx.v1.Polynomial polynomial = 4] *)

Definition has_polynomial (f : Function) : bool :=
  function_case f =? kPolynomial.
Definition _internal_has_polynomial (f : Function) : bool :=
  function_case f =? kPolynomial.

Definition set_has_polynomial (f : Function) : Function :=
  with_oneof_case kPolynomial f.

Definition release_polynomial (f : Function)
  : option (Function * ptr Polynomial) :=
  if function_case f =? kPolynomial then
    temp ← read_polynomial_ (clear_has_function f);
    Some (with_function (polynomial_ null) (clear_has_function f), temp)
  else Some (f, null).

Definition _internal_polynomial (f : Function) : option Polynomial :=
  if function_case f =? kPolynomial
  then p ← read_polynomial_ f; deref p
  else Some default_instance.

Definition polynomial (f : Function) : option Polynomial :=
  _internal_polynomial f.

Definition unsafe_arena_release_polynomial (f : Function)
  : option (Function * ptr Polynomial) :=
  if function_case f =? kPolynomial then
    temp ← read_polynomial_ (clear_has_function f);
    Some (with_function (polynomial_ null) (clear_has_function f), temp)
  else Some (f, null).

Definition unsafe_arena_set_allocated_polynomial (value : ptr Polynomial)
    (f : Function) : option Function :=
  f' ← clear_function f;
  if is_null value then Some f'
  else Some (with_function (polynomial_ value) (set_has_polynomial f')).

Definition _internal_mutable_polynomial (f : Function)
  : option (Function * ptr Polynomial) :=
  f' ← (if negb (function_case f =? kPolynomial)
        then f0 ← clear_function f;
             Some (with_function (polynomial_ (live default_instance))
                     (set_has_polynomial f0))
        else Some f);
  p ← read_polynomial_ f';
  Some (f', p).

Definition mutable_polynomial (f : Function)
  : option (Function * ptr Polynomial) :=
  _internal_mutable_polynomial f.

(** [Function::IsInitialized], function.pb.h:173-175 *)
Definition IsInitialized (f : Function) : bool := true.

(** *** Well-formed objects and sequences of calls *)

(** The case a union value can back: a message variant needs a live
    submessage behind the pointer. *)
Definition member_case (u : FunctionUnion) : Z :=
  match u with
  | constant_ _ => kConstant
  | linear_ (live _) => kLinear
  | quadratic_ (live _) => kQuadratic
  | polynomial_ (live _) => kPolynomial
  | _ => FUNCTION_NOT_SET
  end.

(** The class invariant: the discriminant is [FUNCTION_NOT_SET] or names the
    member the union really holds. *)
Definition wf (f : Function) : Prop :=
  function_case f = FUNCTION_NOT_SET \/
  function_case f = member_case (function_ f).

(** The four setters of the oneof, as a caller issues them. *)
Inductive call : Type :=
| call_set_constant (value : Z)
| call_mutable_linear
| call_mutable_quadratic
| call_mutable_polynomial.

Definition do_call (c : call) (f : Function) : option Function :=
  match c with
  | call_set_constant value => set_constant value f
  | call_mutable_linear => fst <$> mutable_linear f
  | call_mutable_quadratic => fst <$> mutable_quadratic f
  | call_mutable_polynomial => fst <$> mutable_polynomial f
  end.

Fixpoint do_calls (cs : list call) (f : Function) : option Function :=
  match cs with
  | [] => Some f
  | c :: cs' => f' ← do_call c f; do_calls cs' f'
  end.

(** The variant a call selects. *)
Definition case_of_call (c : call) : Z :=
  match c with
  | call_set_constant _ => kConstant
  | call_mutable_linear => kLinear
  | call_mutable_quadratic => kQuadratic
  | call_mutable_polynomial => kPolynomial
  end.

(** *** The methods of [Message]

    Modelled from the spec: [Clear], [MergeImpl], [_InternalSerialize] and the
    parse table [_table_] of [Function] are declared in function.pb.h and
    defined in function.pb.cc, which is not among the sources.  Section 6
    of the spec gives the fields (constant = 1, double; linear = 2,
    quadratic = 3, polynomial = 4, messages) and the encoding; section 3
    makes them one tagged union ("exactly one of four variants is active at
    a time"), so only the active variant is written and a variant read off
    the wire is set through the setters of the header.  The spec has no
    sentence on merging: [MergeImpl] has the shape of [Instance::MergeImpl]
    in instance.pb.cc (a submessage present on both sides is merged,
    anything else of the source replaces what the destination holds).  On
    an object that breaks the class invariant the C++ is undefined; these
    definitions then leave the object as it is. *)
Definition with_metadata (u : Wire.UnknownFieldSet) (f : Function) : Function :=
  {| function_ := function_ f; _oneof_case_ := _oneof_case_ f;
     _internal_metadata_ := u |}.

Definition Clear_ (f : Function) : Function :=
  with_metadata [] (default (clear_has_function f) (clear_function f)).

Definition MergeImpl (_this from : Function) : Function :=
  let merged :=
    if function_case from =? kConstant then
      match read_constant_ from with
      | Some v => default _this (set_constant v _this)
      | None => _this
      end
    else if function_case from =? kLinear then
      match _internal_linear from, _internal_mutable_linear _this with
      | Some x, Some (t, live l) =>
          with_function
            (linear_ (live (if function_case _this =? kLinear
                            then MergeFrom l x else x))) t
      | _, _ => _this
      end
    else if function_case from =? kQuadratic then
      match _internal_quadratic from, _internal_mutable_quadratic _this with
      | Some x, Some (t, live l) =>
          with_function
            (quadratic_ (live (if function_case _this =? kQuadratic
                               then MergeFrom l x else x))) t
      | _, _ => _this
      end
    else if function_case from =? kPolynomial then
      match _internal_polynomial from, _internal_mutable_polynomial _this with
      | Some x, Some (t, live l) =>
          with_function
            (polynomial_ (live (if function_case _this =? kPolynomial
                                then MergeFrom l x else x))) t
      | _, _ => _this
      end
    else _this in
  with_metadata (_internal_metadata_ _this ++ _internal_metadata_ from) merged.

Definition _InternalSerialize (f : Function) : list byte :=
  (if function_case f =? kConstant then
     match _internal_constant f with
     | Some v => Wire.WriteField 1 (Wire.Fixed64 v)
     | None => []
     end
   else if function_case f =? kLinear then
     match _internal_linear f with
     | Some l => Wire.InternalWriteMessage 2 (InternalSerialize l)
     | None => []
     end
   else if function_case f =? kQuadratic then
     match _internal_quadratic f with
     | Some q => Wire.InternalWriteMessage 3 (InternalSerialize q)
     | None => []
     end
   else if function_case f =? kPolynomial then
     match _internal_polynomial f with
     | Some p => Wire.InternalWriteMessage 4 (InternalSerialize p)
     | None => []
     end
   else [])
  ++ (if Wire.have_unknown_fields (_internal_metadata_ f)
      then Wire.SerializeUnknownFields (_internal_metadata_ f) else []).

Definition table (this : Function) (field_number : Z) (w : Wire.WireValue)
  : option Function :=
  let unknown :=
    Some (with_metadata (_internal_metadata_ this ++ [(field_number, w)]) this) in
  match w with
  | Wire.Fixed64 v =>
      if field_number =? 1 then set_constant v this else unknown
  | Wire.LengthDelimited payload =>
      if field_number =? 2 then
        '(this', p) ← _internal_mutable_linear this;
        l0 ← deref p;
        l ← InternalParse l0 payload;
        Some (with_function (linear_ (live l)) this')
      else if field_number =? 3 then
        '(this', p) ← _internal_mutable_quadratic this;
        q0 ← deref p;
        q ← InternalParse q0 payload;
        Some (with_function (quadratic_ (live q)) this')
      else if field_number =? 4 then
        '(this', p) ← _internal_mutable_polynomial this;
        p0 ← deref p;
        x ← InternalParse p0 payload;
        Some (with_function (polynomial_ (live x)) this')
      else unknown
  | _ => unknown
  end.

Definition _InternalParse (this : Function) (bs : list byte) : option Function :=
  Wire.ParseLoop table this bs.

Definition Function_Message : Message Function :=
  Build_Message Function Function_default_instance Clear_ MergeImpl
    _InternalSerialize _InternalParse.

End WithSubmessages.
Arguments Function : clear implicits.
Arguments FunctionUnion : clear implicits.
End Function.

(** ** [ommx/v1/quadratic.pb.h] *)
Module Quadratic.
Section WithSubmessages.

Context {Linear : Type} `{!Message Linear}.

(** [Quadratic::Impl_], with the unknown fields of [_internal_metadata_]. *)
Record Quadratic : Type := {
  _has_bits_ : Z;
  rows_ : list Z;
  columns_ : list Z;
  values_ : list Z;
  linear_ : ptr Linear;
  _internal_metadata_ : Wire.UnknownFieldSet;
}.

Definition with_has_bits (h : Z) (q : Quadratic) : Quadratic :=
  {| _has_bits_ := h; rows_ := rows_ q; columns_ := columns_ q;
     values_ := values_ q; linear_ := linear_ q;
     _internal_metadata_ := _internal_metadata_ q |}.

Definition with_rows (l : list Z) (q : Quadratic) : Quadratic :=
  {| _has_bits_ := _has_bits_ q; rows_ := l; columns_ := columns_ q;
     values_ := values_ q; linear_ := linear_ q;
     _internal_metadata_ := _internal_metadata_ q |}.

Definition with_columns (l : list Z) (q : Quadratic) : Quadratic :=
  {| _has_bits_ := _has_bits_ q; rows_ := rows_ q; columns_ := l;
     values_ := values_ q; linear_ := linear_ q;
     _internal_metadata_ := _internal_metadata_ q |}.

Definition with_values (l : list Z) (q : Quadratic) : Quadratic :=
  {| _has_bits_ := _has_bits_ q; rows_ := rows_ q; columns_ := columns_ q;
     values_ := l; linear_ := linear_ q;
     _internal_metadata_ := _internal_metadata_ q |}.

Definition with_linear (p : ptr Linear) (q : Quadratic) : Quadratic :=
  {| _has_bits_ := _has_bits_ q; rows_ := rows_ q; columns_ := columns_ q;
     values_ := values_ q; linear_ := p;
     _internal_metadata_ := _internal_metadata_ q |}.

(** [_Quadratic_default_instance_] *)
Definition Quadratic_default_instance : Quadratic :=
  {| _has_bits_ := 0; rows_ := []; columns_ := []; values_ := [];
     linear_ := null; _internal_metadata_ := [] |}.

(** [RepeatedField<T>::Get(index)] and [Set(index, value)]: defined for
    [0 <= index < size()]. *)
Definition Get (l : list Z) (index : Z) : option Z :=
  if (0 <=? index) && (index <? Z.of_nat (length l))
  then l !! Z.to_nat index else None.

Definition Set_ (l : list Z) (index value : Z) : option (list Z) :=
  if (0 <=? index) && (index <? Z.of_nat (length l))
  then Some (<[Z.to_nat index := value]> l) else None.

(** *** [repeated uint64 rows = 1] *)
Definition _internal_rows (q : Quadratic) : list Z := rows_ q.
Definition _internal_rows_size (q : Quadratic) : Z :=
  Z.of_nat (length (_internal_rows q)).
Definition rows_size (q : Quadratic) : Z := _internal_rows_size q.
Definition clear_rows (q : Quadratic) : Quadratic := with_rows [] q.
Definition rows (q : Quadratic) (index : Z) : option Z :=
  Get (_internal_rows q) index.
Definition set_rows (index value : Z) (q : Quadratic) : option Quadratic :=
  l ← Set_ (rows_ q) index value; Some (with_rows l q).
Definition add_rows (value : Z) (q : Quadratic) : Quadratic :=
  with_rows (rows_ q ++ [value]) q.

(** *** [repeated uint64 columns = 2] *)
Definition _internal_columns (q : Quadratic) : list Z := columns_ q.
Definition _internal_columns_size (q : Quadratic) : Z :=
  Z.of_nat (length (_internal_columns q)).
Definition columns_size (q : Quadratic) : Z := _internal_columns_size q.
Definition clear_columns (q : Quadratic) : Quadratic := with_columns [] q.
Definition columns (q : Quadratic) (index : Z) : option Z :=
  Get (_internal_columns q) index.
Definition set_columns (index value : Z) (q : Quadratic) : option Quadratic :=
  l ← Set_ (columns_ q) index value; Some (with_columns l q).
Definition add_columns (value : Z) (q : Quadratic) : Quadratic :=
  with_columns (columns_ q ++ [value]) q.

(** *** [repeated double values = 3] *)
Definition _internal_values (q : Quadratic) : list Z := values_ q.
Definition _internal_values_size (q : Quadratic) : Z :=
  Z.of_nat (length (_internal_values q)).
Definition values_size (q : Quadratic) : Z := _internal_values_size q.
Definition clear_values (q : Quadratic) : Quadratic := with_values [] q.
Definition values (q : Quadratic) (index : Z) : option Z :=
  Get (_internal_values q) index.
Definition set_values (index value : Z) (q : Quadratic) : option Quadratic :=
  l ← Set_ (values_ q) index value; Some (with_values l q).
Definition add_values (value : Z) (q : Quadratic) : Quadratic :=
  with_values (values_ q ++ [value]) q.

(** *** [optional .ommx.v1.Linear linear = 4] *)

Definition has_linear (q : Quadratic) : bool :=
  negb (Z.land (_has_bits_ q) 1 =? 0).

Definition _internal_linear (q : Quadratic) : option Linear :=
  if negb (is_null (linear_ q)) then deref (linear_ q)
  else Some default_instance.

Definition linear (q : Quadratic) : option Linear := _internal_linear q.

(** [_has_bits_[0] |= 0x00000001u] and [_has_bits_[0] &= ~0x00000001u] on a
    32-bit word. *)
Definition set_bit0 (h : Z) : Z := Z.lor h 1.
Definition clear_bit0 (h : Z) : Z := clear_bits h 1.

(** The previous submessage is deleted; the caller's pointer is taken
    over. *)
Definition unsafe_arena_set_allocated_linear (value : ptr Linear)
    (q : Quadratic) : option Quadratic :=
  _ ← delete_ (linear_ q);
  Some (with_has_bits
          (if negb (is_null value) then set_bit0 (_has_bits_ q)
           else clear_bit0 (_has_bits_ q))
          (with_linear value q)).

(** The released submessage now belongs to the caller. *)
Definition release_linear (q : Quadratic) : Quadratic * ptr Linear :=
  (with_linear null (with_has_bits (clear_bit0 (_has_bits_ q)) q), linear_ q).

Definition unsafe_arena_release_linear (q : Quadratic)
  : Quadratic * ptr Linear :=
  (with_linear null (with_has_bits (clear_bit0 (_has_bits_ q)) q), linear_ q).

Definition _internal_mutable_linear (q : Quadratic)
  : Quadratic * ptr Linear :=
  let q' := if is_null (linear_ q)
            then with_linear (live default_instance) q else q in
  (q', linear_ q').

Definition mutable_linear (q : Quadratic) : Quadratic * ptr Linear :=
  _internal_mutable_linear (with_has_bits (set_bit0 (_has_bits_ q)) q).

Definition set_allocated_linear (value : ptr Linear) (q : Quadratic)
  : option Quadratic :=
  _ ← delete_ (linear_ q);
  Some (with_linear value
          (with_has_bits
             (if negb (is_null value) then set_bit0 (_has_bits_ q)
              else clear_bit0 (_has_bits_ q)) q)).

(** Modelled from the spec: [clear_linear] is declared at
    quadratic.pb.h:259 and defined in quadratic.pb.cc, which is not among
    the sources.  Section 4.2: the embedded Linear term is optional, "absent
    means zero linear part"; clearing makes it absent.  The body is the one
    the sibling [Instance::clear_objective] has in instance.pb.cc: the
    submessage is cleared in place and the has-bit dropped. *)
Definition clear_linear (q : Quadratic) : option Quadratic :=
  p ← clear_if_set Clear (linear_ q);
  Some (with_has_bits (clear_bit0 (_has_bits_ q)) (with_linear p q)).

(** Modelled from the spec: [IsInitialized] is declared at
    quadratic.pb.h:165 and defined in quadratic.pb.cc, which is not among
    the sources.  Section 7: no field of the schema is required, "all
    messages are always considered structurally valid once successfully
    decoded". *)
Definition IsInitialized (q : Quadratic) : bool := true.

(** *** Objects a caller can build

    What a caller does with a [Quadratic] through the accessors of the
    header.  The submessage behind [mutable_linear()] belongs to the
    [Quadratic] (spec, section 3: "each message exclusively owns its nested
    messages"), so writing through that pointer is a step on the
    [Quadratic]. *)
Inductive call : Type :=
| call_add_rows (value : Z)
| call_add_columns (value : Z)
| call_add_values (value : Z)
| call_set_rows (index value : Z)
| call_set_columns (index value : Z)
| call_set_values (index value : Z)
| call_clear_rows
| call_clear_columns
| call_clear_values
| call_mutable_linear (write : Linear -> Linear)
| call_release_linear
| call_unsafe_arena_release_linear
| call_set_allocated_linear (value : ptr Linear)
| call_unsafe_arena_set_allocated_linear (value : ptr Linear)
| call_clear_linear.

Definition do_call (c : call) (q : Quadratic) : option Quadratic :=
  match c with
  | call_add_rows v => Some (add_rows v q)
  | call_add_columns v => Some (add_columns v q)
  | call_add_values v => Some (add_values v q)
  | call_set_rows i v => set_rows i v q
  | call_set_columns i v => set_columns i v q
  | call_set_values i v => set_values i v q
  | call_clear_rows => Some (clear_rows q)
  | call_clear_columns => Some (clear_columns q)
  | call_clear_values => Some (clear_values q)
  | call_mutable_linear write =>
      let '(q', p) := mutable_linear q in
      l ← deref p; Some (with_linear (live (write l)) q')
  | call_release_linear => Some (fst (release_linear q))
  | call_unsafe_arena_release_linear =>
      Some (fst (unsafe_arena_release_linear q))
  | call_set_allocated_linear value => set_allocated_linear value q
  | call_unsafe_arena_set_allocated_linear value =>
      unsafe_arena_set_allocated_linear value q
  | call_clear_linear => clear_linear q
  end.

(** The caller hands over a submessage it owns, or null. *)
Definition call_ok (c : call) : Prop :=
  match c with
  | call_set_allocated_linear dangling => False
  | call_unsafe_arena_set_allocated_linear dangling => False
  | _ => True
  end.

(** [constructible q]: [q] is what some sequence of calls leaves of a
    default-constructed object. *)
Inductive constructible : Quadratic -> Prop :=
| constructible_default : constructible Quadratic_default_instance
| constructible_call c q q' :
    constructible q -> call_ok c -> do_call c q = Some q' ->
    constructible q'.

(** *** The methods of [Message]

    Modelled from the spec: [Clear], [MergeImpl], [_InternalSerialize] and the
    parse table [_table_] of [Quadratic] are declared in quadratic.pb.h and
    defined in quadratic.pb.cc, which is not among the sources.  Section 6
    of the spec gives the fields (rows = 1 and columns = 2, repeated uint64;
    values = 3, repeated double; linear = 4, optional message) and the
    encoding ("length-prefixed strings/submessages/repeated-scalar-packed
    arrays"); section 7 requires unknown fields to be "preserved opaquely
    and re-emitted".  The spec has no sentence on merging: [MergeImpl] has
    the shape of [Instance::MergeImpl] in instance.pb.cc (repeated fields
    appended, a submessage present on both sides merged). *)
Definition Clear_ (q : Quadratic) : Quadratic :=
  {| _has_bits_ := 0; rows_ := []; columns_ := []; values_ := [];
     linear_ := (if test (_has_bits_ q) 1
                 then match linear_ q with
                      | live l => live (Clear l)
                      | p => p
                      end
                 else linear_ q);
     _internal_metadata_ := [] |}.

Definition MergeImpl (_this from : Quadratic) : Quadratic :=
  {| _has_bits_ := Z.lor (_has_bits_ _this) (_has_bits_ from);
     rows_ := rows_ _this ++ rows_ from;
     columns_ := columns_ _this ++ columns_ from;
     values_ := values_ _this ++ values_ from;
     linear_ := (if test (_has_bits_ from) 1
                 then match linear_ _this, linear_ from with
                      | live l, live x => live (MergeFrom l x)
                      | null, live x => live x
                      | p, _ => p
                      end
                 else linear_ _this);
     _internal_metadata_ := _internal_metadata_ _this ++ _internal_metadata_ from |}.

Definition _InternalSerialize (q : Quadratic) : list byte :=
  (if decide (rows_ q = []) then []
   else Wire.WriteField 1 (Wire.LengthDelimited (Wire.WritePackedVarint (rows_ q))))
  ++ (if decide (columns_ q = []) then []
      else Wire.WriteField 2
             (Wire.LengthDelimited (Wire.WritePackedVarint (columns_ q))))
  ++ (if decide (values_ q = []) then []
      else Wire.WriteField 3
             (Wire.LengthDelimited (Wire.WritePackedFixed64 (values_ q))))
  ++ (if test (_has_bits_ q) 1
      then match linear_ q with
           | live l => Wire.InternalWriteMessage 4 (InternalSerialize l)
           | _ => []
           end
      else [])
  ++ (if Wire.have_unknown_fields (_internal_metadata_ q)
      then Wire.SerializeUnknownFields (_internal_metadata_ q) else []).

(** A repeated scalar is read packed (one length-delimited field) or
    unpacked (one field per value). *)
Definition table (this : Quadratic) (field_number : Z) (w : Wire.WireValue)
  : option Quadratic :=
  let unknown :=
    Some {| _has_bits_ := _has_bits_ this; rows_ := rows_ this;
            columns_ := columns_ this; values_ := values_ this;
            linear_ := linear_ this;
            _internal_metadata_ :=
              _internal_metadata_ this ++ [(field_number, w)] |} in
  match w with
  | Wire.LengthDelimited payload =>
      if field_number =? 1 then
        vs ← Wire.ReadPackedVarint payload;
        Some (with_rows (rows_ this ++ vs) this)
      else if field_number =? 2 then
        vs ← Wire.ReadPackedVarint payload;
        Some (with_columns (columns_ this ++ vs) this)
      else if field_number =? 3 then
        vs ← Wire.ReadPackedFixed64 payload;
        Some (with_values (values_ this ++ vs) this)
      else if field_number =? 4 then
        l0 ← get_or_new default_instance (linear_ this);
        l ← InternalParse l0 payload;
        Some (with_linear (live l)
                (with_has_bits (set_bit0 (_has_bits_ this)) this))
      else unknown
  | Wire.Varint v =>
      if field_number =? 1 then Some (with_rows (rows_ this ++ [v]) this)
      else if field_number =? 2 then
        Some (with_columns (columns_ this ++ [v]) this)
      else unknown
  | Wire.Fixed64 v =>
      if field_number =? 3 then Some (with_values (values_ this ++ [v]) this)
      else unknown
  | _ => unknown
  end.

Definition _InternalParse (this : Quadratic) (bs : list byte)
  : option Quadratic :=
  Wire.ParseLoop table this bs.

Definition Quadratic_Message : Message Quadratic :=
  Build_Message Quadratic Quadratic_default_instance Clear_ MergeImpl
    _InternalSerialize _InternalParse.

End WithSubmessages.
Arguments Quadratic : clear implicits.
End Quadratic.

(** ** UTF-8

    Modelled from the spec: the validator of the runtime
    ([utf8_range::IsStructurallyValid], behind
    [WireFormatLite::VerifyUtf8String] and the [kUtf8String] table entries)
    is library code.  Section 7 of the spec: "invalid UTF-8 in string fields
    ... must fail with a decode error".  [IsStructurallyValid] accepts the
    well-formed byte sequences of the Unicode standard (table 3-7): no
    overlong form, no surrogate, nothing above U+10FFFF. *)
Module Utf8.

Definition between (lo x hi : Z) : bool := (lo <=? x) && (x <=? hi).

Definition tail_byte (b : byte) : bool := between 128 (byte_to_Z b) 191.

Fixpoint IsStructurallyValid (bs : list byte) : bool :=
  match bs with
  | [] => true
  | b0 :: r0 =>
      let x0 := byte_to_Z b0 in
      if x0 <? 128 then IsStructurallyValid r0
      else if between 194 x0 223 then
        match r0 with
        | b1 :: r1 => tail_byte b1 && IsStructurallyValid r1
        | _ => false
        end
      else if between 224 x0 239 then
        match r0 with
        | b1 :: b2 :: r2 =>
            let x1 := byte_to_Z b1 in
            (if x0 =? 224 then between 160 x1 191
             else if x0 =? 237 then between 128 x1 159
             else between 128 x1 191)
            && tail_byte b2 && IsStructurallyValid r2
        | _ => false
        end
      else if between 240 x0 244 then
        match r0 with
        | b1 :: b2 :: b3 :: r3 =>
            let x1 := byte_to_Z b1 in
            (if x0 =? 240 then between 144 x1 191
             else if x0 =? 244 then between 128 x1 143
             else between 128 x1 191)
            && tail_byte b2 && tail_byte b3 && IsStructurallyValid r3
        | _ => false
        end
      else false
  end.

End Utf8.

(** ** [ommx/v1/instance.pb.cc]: class [Instance_Description] *)
Module Instance_Description.

(** [Instance_Description::Impl_], with the unknown fields of
    [_internal_metadata_]. *)
Record Instance_Description : Type := {
  _has_bits_ : Z;
  authors_ : list (list byte);
  name_ : list byte;
  description_ : list byte;
  created_by_ : list byte;
  _internal_metadata_ : Wire.UnknownFieldSet;
}.

Definition with_has_bits (h : Z) (d : Instance_Description) :=
  {| _has_bits_ := h; authors_ := authors_ d; name_ := name_ d;
     description_ := description_ d; created_by_ := created_by_ d;
     _internal_metadata_ := _internal_metadata_ d |}.

Definition with_authors (l : list (list byte)) (d : Instance_Description) :=
  {| _has_bits_ := _has_bits_ d; authors_ := l; name_ := name_ d;
     description_ := description_ d; created_by_ := created_by_ d;
     _internal_metadata_ := _internal_metadata_ d |}.

Definition with_name (s : list byte) (d : Instance_Description) :=
  {| _has_bits_ := _has_bits_ d; authors_ := authors_ d; name_ := s;
     description_ := description_ d; created_by_ := created_by_ d;
     _internal_metadata_ := _internal_metadata_ d |}.

Definition with_description (s : list byte) (d : Instance_Description) :=
  {| _has_bits_ := _has_bits_ d; authors_ := authors_ d; name_ := name_ d;
     description_ := s; created_by_ := created_by_ d;
     _internal_metadata_ := _internal_metadata_ d |}.

Definition with_created_by (s : list byte) (d : Instance_Description) :=
  {| _has_bits_ := _has_bits_ d; authors_ := authors_ d; name_ := name_ d;
     description_ := description_ d; created_by_ := s;
     _internal_metadata_ := _internal_metadata_ d |}.

Definition with_metadata (u : Wire.UnknownFieldSet) (d : Instance_Description) :=
  {| _has_bits_ := _has_bits_ d; authors_ := authors_ d; name_ := name_ d;
     description_ := description_ d; created_by_ := created_by_ d;
     _internal_metadata_ := u |}.

(** The constant-initialised object, lines 27-53: empty strings, no
    has-bit. *)
Definition Instance_Description_default_instance : Instance_Description :=
  {| _has_bits_ := 0; authors_ := []; name_ := []; description_ := [];
     created_by_ := []; _internal_metadata_ := [] |}.

(** The copy constructor, lines 230-251. *)
Definition copy (from : Instance_Description) : Instance_Description :=
  {| _has_bits_ := _has_bits_ from; authors_ := authors_ from;
     name_ := name_ from; description_ := description_ from;
     created_by_ := created_by_ from;
     _internal_metadata_ := [] ++ _internal_metadata_ from |}.

(** Modelled from the spec: the accessors of [Instance_Description] are
    inline functions of instance.pb.h, which is not among the sources;
    instance.pb.cc calls the ones below.  Section 3: name, description and
    created_by are "each scalar field independently optional/nullable";
    section 9: "preserve absent-vs-empty-vs-value distinctions".  A getter
    returns the stored string, a setter stores the string and raises the
    field's has-bit, [has_...] reads the has-bit. *)
Definition _internal_name (d : Instance_Description) : list byte := name_ d.
Definition _internal_description (d : Instance_Description) : list byte :=
  description_ d.
Definition _internal_created_by (d : Instance_Description) : list byte :=
  created_by_ d.
Definition _internal_authors (d : Instance_Description) : list (list byte) :=
  authors_ d.
Definition _internal_authors_size (d : Instance_Description) : Z :=
  Z.of_nat (length (authors_ d)).
Definition _internal_set_name (value : list byte) (d : Instance_Description) :=
  with_name value (with_has_bits (Z.lor (_has_bits_ d) 1) d).
Definition _internal_set_description (value : list byte)
    (d : Instance_Description) :=
  with_description value (with_has_bits (Z.lor (_has_bits_ d) 2) d).
Definition _internal_set_created_by (value : list byte)
    (d : Instance_Description) :=
  with_created_by value (with_has_bits (Z.lor (_has_bits_ d) 4) d).
Definition has_name (d : Instance_Description) : bool :=
  test (_has_bits_ d) 1.
Definition has_description (d : Instance_Description) : bool :=
  test (_has_bits_ d) 2.
Definition has_created_by (d : Instance_Description) : bool :=
  test (_has_bits_ d) 4.

(** [Instance_Description::Clear], lines 291-313 *)
Definition Clear (d : Instance_Description) : Instance_Description :=
  let d := with_authors [] d in
  let cached_has_bits := _has_bits_ d in
  let d :=
    if test cached_has_bits 7 then
      let d := if test cached_has_bits 1 then with_name [] d else d in
      let d := if test cached_has_bits 2 then with_description [] d else d in
      let d := if test cached_has_bits 4 then with_created_by [] d else d in
      d
    else d in
  let d := with_has_bits 0 d in
  with_metadata [] d.

(** One entry of [Instance_Description::_table_], lines 322-377, applied to
    a field read off the wire.  The four entries are strings with
    [kUtf8String]: a payload that is not valid UTF-8 is a parse error.  A
    field with no entry, or with another wire type than its entry's, goes
    to the unknown fields. *)
Definition table (this : Instance_Description) (field_number : Z)
    (w : Wire.WireValue) : option Instance_Description :=
  match w with
  | Wire.LengthDelimited s =>
      if field_number =? 1 then
        if Utf8.IsStructurallyValid s
        then Some (with_name s (with_has_bits (Z.lor (_has_bits_ this) 1) this))
        else None
      else if field_number =? 2 then
        if Utf8.IsStructurallyValid s
        then Some (with_description s
                     (with_has_bits (Z.lor (_has_bits_ this) 2) this))
        else None
      else if field_number =? 3 then
        if Utf8.IsStructurallyValid s
        then Some (with_authors (authors_ this ++ [s]) this)
        else None
      else if field_number =? 4 then
        if Utf8.IsStructurallyValid s
        then Some (with_created_by s
                     (with_has_bits (Z.lor (_has_bits_ this) 4) this))
        else None
      else Some (with_metadata (_internal_metadata_ this ++ [(field_number, w)])
                   this)
  | _ => Some (with_metadata (_internal_metadata_ this ++ [(field_number, w)])
                 this)
  end.

(** [Instance_Description::_InternalParse], lines 315-319 *)
Definition _InternalParse (this : Instance_Description) (bs : list byte)
  : option Instance_Description :=
  Wire.ParseLoop table this bs.

(** [Instance_Description::_InternalSerialize], lines 379-426.
    [VerifyUtf8String] only logs: its result is not used. *)
Definition _InternalSerialize (d : Instance_Description) : list byte :=
  let cached_has_bits := _has_bits_ d in
  (if test cached_has_bits 1 then Wire.WriteString 1 (_internal_name d) else [])
  ++ (if test cached_has_bits 2
      then Wire.WriteString 2 (_internal_description d) else [])
  ++ concat (map (Wire.WriteString 3) (_internal_authors d))
  ++ (if test cached_has_bits 4
      then Wire.WriteString 4 (_internal_created_by d) else [])
  ++ (if Wire.have_unknown_fields (_internal_metadata_ d)
      then Wire.SerializeUnknownFields (_internal_metadata_ d) else []).

(** [Instance_Description::MergeImpl], lines 467-490 *)
Definition MergeImpl (_this from : Instance_Description)
  : Instance_Description :=
  let _this := with_authors (authors_ _this ++ _internal_authors from) _this in
  let cached_has_bits := _has_bits_ from in
  let _this :=
    if test cached_has_bits 7 then
      let t := if test cached_has_bits 1
               then _internal_set_name (_internal_name from) _this
               else _this in
      let t := if test cached_has_bits 2
               then _internal_set_description (_internal_description from) t
               else t in
      let t := if test cached_has_bits 4
               then _internal_set_created_by (_internal_created_by from) t
               else t in
      t
    else _this in
  let _this := with_has_bits (Z.lor (_has_bits_ _this) cached_has_bits) _this in
  with_metadata (_internal_metadata_ _this ++ _internal_metadata_ from) _this.

Definition MergeFrom (this from : Instance_Description) : Instance_Description :=
  MergeImpl this from.

(** [Instance_Description::CopyFrom], lines 492-497.  [this] and [from] are
    the addresses of two objects of the store [heap]; [&from == this]
    compares the addresses. *)
Definition CopyFrom (heap : gmap address Instance_Description)
    (this from : address) : option (gmap address Instance_Description) :=
  if decide (from = this) then Some heap
  else
    x ← heap !! this;
    y ← heap !! from;
    Some (<[this := MergeFrom (Clear x) y]> heap).

(** [Instance_Description::IsInitialized], lines 499-501 *)
Definition IsInitialized (d : Instance_Description) : bool := true.

(** [Instance_Description::ByteSizeLong], lines 428-464.  The sum is the
    size of data held in memory, so the [size_t] does not wrap. *)
Definition ByteSizeLong_ (d : Instance_Description) : Z :=
  let total_size := 0 in
  let total_size := total_size + 1 * _internal_authors_size d in
  let total_size :=
    fold_left (fun total_size s => total_size + Wire.StringSize s)
      (_internal_authors d) total_size in
  let cached_has_bits := _has_bits_ d in
  let total_size :=
    if test cached_has_bits 7 then
      let total_size :=
        if test cached_has_bits 1
        then total_size + (1 + Wire.StringSize (_internal_name d))
        else total_size in
      let total_size :=
        if test cached_has_bits 2
        then total_size + (1 + Wire.StringSize (_internal_description d))
        else total_size in
      let total_size :=
        if test cached_has_bits 4
        then total_size + (1 + Wire.StringSize (_internal_created_by d))
        else total_size in
      total_size
    else total_size in
  Wire.MaybeComputeUnknownFieldsSize total_size (_internal_metadata_ d).

(** [Instance_Description::InternalSwap], lines 503-513: the two objects
    after the six swaps, [this] first. *)
Definition InternalSwap (this other : Instance_Description)
  : Instance_Description * Instance_Description :=
  let '(this, other) :=
    (with_metadata (_internal_metadata_ other) this,
     with_metadata (_internal_metadata_ this) other) in
  let '(this, other) :=
    (with_has_bits (_has_bits_ other) this,
     with_has_bits (_has_bits_ this) other) in
  let '(this, other) :=
    (with_authors (authors_ other) this, with_authors (authors_ this) other) in
  let '(this, other) :=
    (with_name (name_ other) this, with_name (name_ this) other) in
  let '(this, other) :=
    (with_description (description_ other) this,
     with_description (description_ this) other) in
  (with_created_by (created_by_ other) this,
   with_created_by (created_by_ this) other).

Definition Instance_Description_Message : Message Instance_Description :=
  Build_Message Instance_Description Instance_Description_default_instance
    Clear MergeFrom _InternalSerialize _InternalParse.

End Instance_Description.

(** ** [ommx/v1/instance.pb.cc]: class [Instance] *)
Module Instance.
Section WithSubmessages.

(** [decision_variables.pb.h] and [constraint.pb.h] are not among the
    sources, nor is function.pb.cc, where [Function] overrides the methods
    of [Message]: [Instance] reaches all three through that interface. *)
Context {DecisionVariable Constraint : Type}.
Context `{!Message DecisionVariable, !Message Constraint}.
Context {Linear Quadratic Polynomial : Type}.
Context `{!Message (Function.Function Linear Quadratic Polynomial)}.

Local Abbreviation Function := (Function.Function Linear Quadratic Polynomial).
Local Abbreviation Description := Instance_Description.Instance_Description.

(** [enum Instance_Sense] *)
Definition SENSE_UNSPECIFIED : Z := 0.
Definition SENSE_MINIMIZE : Z := 1.
Definition SENSE_MAXIMIZE : Z := 2.

(** [Instance_Sense_IsValid], lines 201-203 *)
Definition Instance_Sense_IsValid (value : Z) : bool :=
  (0 <=? value) && (value <=? 2).

(** [Instance::Impl_], with the unknown fields of [_internal_metadata_]. *)
Record Instance : Type := {
  _has_bits_ : Z;
  decision_variables_ : list DecisionVariable;
  constraints_ : list Constraint;
  description_ : ptr Description;
  objective_ : ptr Function;
  sense_ : Z;
  _internal_metadata_ : Wire.UnknownFieldSet;
}.

Definition with_has_bits (h : Z) (i : Instance) : Instance :=
  {| _has_bits_ := h; decision_variables_ := decision_variables_ i;
     constraints_ := constraints_ i; description_ := description_ i;
     objective_ := objective_ i; sense_ := sense_ i;
     _internal_metadata_ := _internal_metadata_ i |}.

Definition with_decision_variables (l : list DecisionVariable) (i : Instance) :=
  {| _has_bits_ := _has_bits_ i; decision_variables_ := l;
     constraints_ := constraints_ i; description_ := description_ i;
     objective_ := objective_ i; sense_ := sense_ i;
     _internal_metadata_ := _internal_metadata_ i |}.

Definition with_constraints (l : list Constraint) (i : Instance) :=
  {| _has_bits_ := _has_bits_ i; decision_variables_ := decision_variables_ i;
     constraints_ := l; description_ := description_ i;
     objective_ := objective_ i; sense_ := sense_ i;
     _internal_metadata_ := _internal_metadata_ i |}.

Definition with_description (p : ptr Description) (i : Instance) :=
  {| _has_bits_ := _has_bits_ i; decision_variables_ := decision_variables_ i;
     constraints_ := constraints_ i; description_ := p;
     objective_ := objective_ i; sense_ := sense_ i;
     _internal_metadata_ := _internal_metadata_ i |}.

Definition with_objective (p : ptr Function) (i : Instance) :=
  {| _has_bits_ := _has_bits_ i; decision_variables_ := decision_variables_ i;
     constraints_ := constraints_ i; description_ := description_ i;
     objective_ := p; sense_ := sense_ i;
     _internal_metadata_ := _internal_metadata_ i |}.

Definition with_sense (v : Z) (i : Instance) :=
  {| _has_bits_ := _has_bits_ i; decision_variables_ := decision_variables_ i;
     constraints_ := constraints_ i; description_ := description_ i;
     objective_ := objective_ i; sense_ := v;
     _internal_metadata_ := _internal_metadata_ i |}.

Definition with_metadata (u : Wire.UnknownFieldSet) (i : Instance) :=
  {| _has_bits_ := _has_bits_ i; decision_variables_ := decision_variables_ i;
     constraints_ := constraints_ i; description_ := description_ i;
     objective_ := objective_ i; sense_ := sense_ i;
     _internal_metadata_ := u |}.

(** The constant-initialised object, lines 55-76. *)
Definition Instance_default_instance : Instance :=
  {| _has_bits_ := 0; decision_variables_ := []; constraints_ := [];
     description_ := null; objective_ := null; sense_ := 0;
     _internal_metadata_ := [] |}.

(** Modelled from the spec: the accessors of [Instance] are inline
    functions of instance.pb.h, which is not among the sources;
    instance.pb.cc calls [_internal_sense] and the list getters.  Section 3:
    an Instance "contains an optional Description ..., a list of decision
    variables, one objective Function, a list of Constraint entries, and a
    Sense enum".  A getter returns the stored field; a submessage getter
    returns the default instance while the pointer is null. *)
Definition _internal_sense (i : Instance) : Z := sense_ i.
Definition _internal_decision_variables (i : Instance) := decision_variables_ i.
Definition _internal_constraints (i : Instance) := constraints_ i.
Definition _internal_decision_variables_size (i : Instance) : Z :=
  Z.of_nat (length (decision_variables_ i)).
Definition _internal_constraints_size (i : Instance) : Z :=
  Z.of_nat (length (constraints_ i)).
Definition has_description (i : Instance) : bool := test (_has_bits_ i) 1.
Definition has_objective (i : Instance) : bool := test (_has_bits_ i) 2.
Definition description (i : Instance) : option Description :=
  if is_null (description_ i)
  then Some Instance_Description.Instance_Description_default_instance
  else deref (description_ i).
Definition objective (i : Instance) : option Function :=
  if is_null (objective_ i) then Some default_instance
  else deref (objective_ i).

(** Lines 529-541 *)
Definition clear_decision_variables (i : Instance) : Instance :=
  with_decision_variables [] i.

Definition clear_objective (i : Instance) : option Instance :=
  p ← clear_if_set Clear (objective_ i);
  Some (with_has_bits (clear_bits (_has_bits_ i) 2) (with_objective p i)).

Definition clear_constraints (i : Instance) : Instance :=
  with_constraints [] i.

(** The copy constructor, lines 547-574.  [CopyConstruct] makes a new
    object equal to the one it is given. *)
Definition copy (from : Instance) : option Instance :=
  let cached_has_bits := _has_bits_ from in
  d ← (if test cached_has_bits 1
       then x ← deref (description_ from);
            Some (live (Instance_Description.copy x))
       else Some null);
  o ← (if test cached_has_bits 2
       then x ← deref (objective_ from); Some (live x)
       else Some null);
  Some {| _has_bits_ := _has_bits_ from;
          decision_variables_ := decision_variables_ from;
          constraints_ := constraints_ from;
          description_ := d; objective_ := o; sense_ := sense_ from;
          _internal_metadata_ := [] ++ _internal_metadata_ from |}.

(** [Instance::Clear], lines 617-640 *)
Definition Clear_ (i : Instance) : option Instance :=
  let i := with_decision_variables [] i in
  let i := with_constraints [] i in
  let cached_has_bits := _has_bits_ i in
  i ← (if test cached_has_bits 3 then
         i ← (if test cached_has_bits 1
              then d ← deref (description_ i);
                   Some (with_description
                           (live (Instance_Description.Clear d)) i)
              else Some i);
         i ← (if test cached_has_bits 2
              then f ← deref (objective_ i);
                   Some (with_objective (live (Clear f)) i)
              else Some i);
         Some i
       else Some i);
  let i := with_sense 0 i in
  let i := with_has_bits 0 i in
  Some (with_metadata [] i).

(** One entry of [Instance::_table_], lines 649-710, applied to a field
    read off the wire.  Fields 1 and 3 are singular messages with a
    has-bit, fields 2 and 4 repeated messages, field 5 an open enum
    ([kOpenEnum]): any 32-bit value is stored.  A field with no entry, or
    with another wire type than its entry's, goes to the unknown fields. *)
Definition table (this : Instance) (field_number : Z) (w : Wire.WireValue)
  : option Instance :=
  let unknown :=
    Some (with_metadata (_internal_metadata_ this ++ [(field_number, w)]) this) in
  match w with
  | Wire.LengthDelimited payload =>
      if field_number =? 1 then
        d0 ← get_or_new
               Instance_Description.Instance_Description_default_instance
               (description_ this);
        d ← Instance_Description._InternalParse d0 payload;
        Some (with_description (live d)
                (with_has_bits (Z.lor (_has_bits_ this) 1) this))
      else if field_number =? 2 then
        v ← InternalParse default_instance payload;
        Some (with_decision_variables (decision_variables_ this ++ [v]) this)
      else if field_number =? 3 then
        f0 ← get_or_new default_instance (objective_ this);
        f ← InternalParse f0 payload;
        Some (with_objective (live f)
                (with_has_bits (Z.lor (_has_bits_ this) 2) this))
      else if field_number =? 4 then
        v ← InternalParse default_instance payload;
        Some (with_constraints (constraints_ this ++ [v]) this)
      else unknown
  | Wire.Varint v =>
      if field_number =? 5 then Some (with_sense (Wire.to_int32 v) this)
      else unknown
  | _ => unknown
  end.

(** [Instance::_InternalParse], lines 642-646 *)
Definition _InternalParse (this : Instance) (bs : list byte) : option Instance :=
  Wire.ParseLoop table this bs.

(** [Instance::_InternalSerialize], lines 712-768 *)
Definition _InternalSerialize (i : Instance) : option (list byte) :=
  let cached_has_bits := _has_bits_ i in
  b1 ← (if test cached_has_bits 1
        then d ← deref (description_ i);
             Some (Wire.InternalWriteMessage 1
                     (Instance_Description._InternalSerialize d))
        else Some []);
  let b2 := concat (map (fun repfield =>
                           Wire.InternalWriteMessage 2 (InternalSerialize repfield))
                      (_internal_decision_variables i)) in
  b3 ← (if test cached_has_bits 2
        then f ← deref (objective_ i);
             Some (Wire.InternalWriteMessage 3 (InternalSerialize f))
        else Some []);
  let b4 := concat (map (fun repfield =>
                           Wire.InternalWriteMessage 4 (InternalSerialize repfield))
                      (_internal_constraints i)) in
  let b5 := if negb (_internal_sense i =? 0)
            then Wire.WriteEnumToArray 5 (_internal_sense i) else [] in
  let b6 := if Wire.have_unknown_fields (_internal_metadata_ i)
            then Wire.SerializeUnknownFields (_internal_metadata_ i) else [] in
  Some (b1 ++ b2 ++ b3 ++ b4 ++ b5 ++ b6).

(** [Instance::MergeImpl], lines 813-852 *)
Definition MergeImpl (_this from : Instance) : option Instance :=
  let _this := with_decision_variables
                 (decision_variables_ _this ++ _internal_decision_variables from)
                 _this in
  let _this := with_constraints
                 (constraints_ _this ++ _internal_constraints from) _this in
  let cached_has_bits := _has_bits_ from in
  _this ← (if test cached_has_bits 3 then
             t ← (if test cached_has_bits 1 then
                    x ← deref (description_ from);
                    match description_ _this with
                    | null =>
                        Some (with_description
                                (live (Instance_Description.copy x)) _this)
                    | live d =>
                        Some (with_description
                                (live (Instance_Description.MergeFrom d x)) _this)
                    | dangling => None
                    end
                  else Some _this);
             t ← (if test cached_has_bits 2 then
                    x ← deref (objective_ from);
                    match objective_ t with
                    | null => Some (with_objective (live x) t)
                    | live f => Some (with_objective (live (MergeFrom f x)) t)
                    | dangling => None
                    end
                  else Some t);
             Some t
           else Some _this);
  let _this := if negb (_internal_sense from =? 0)
               then with_sense (sense_ from) _this else _this in
  let _this := with_has_bits (Z.lor (_has_bits_ _this) cached_has_bits) _this in
  Some (with_metadata (_internal_metadata_ _this ++ _internal_metadata_ from)
          _this).

Definition MergeFrom_ (this from : Instance) : option Instance :=
  MergeImpl this from.

(** [Instance::CopyFrom], lines 854-859.  [this] and [from] are the
    addresses of two objects of the store [heap]; [&from == this] compares
    the addresses. *)
Definition CopyFrom (heap : gmap address Instance) (this from : address)
  : option (gmap address Instance) :=
  if decide (from = this) then Some heap
  else
    x ← heap !! this;
    y ← heap !! from;
    x ← Clear_ x;
    x ← MergeFrom_ x y;
    Some (<[this := x]> heap).

(** [Instance::IsInitialized], lines 861-863 *)
Definition IsInitialized (i : Instance) : bool := true.

(** [Instance::InternalSwap], lines 865-877.  The [memswap] exchanges the
    bytes from [description_] to the end of [sense_]: the two pointers and
    the sense, which [Impl_] declares in that order. *)
Definition InternalSwap (this other : Instance) : Instance * Instance :=
  let '(this, other) :=
    (with_metadata (_internal_metadata_ other) this,
     with_metadata (_internal_metadata_ this) other) in
  let '(this, other) :=
    (with_has_bits (_has_bits_ other) this,
     with_has_bits (_has_bits_ this) other) in
  let '(this, other) :=
    (with_decision_variables (decision_variables_ other) this,
     with_decision_variables (decision_variables_ this) other) in
  let '(this, other) :=
    (with_constraints (constraints_ other) this,
     with_constraints (constraints_ this) other) in
  (with_sense (sense_ other)
     (with_objective (objective_ other)
        (with_description (description_ other) this)),
   with_sense (sense_ this)
     (with_objective (objective_ this)
        (with_description (description_ this) other))).

(** [Instance::ByteSizeLong], lines 770-810.  [MessageSize(msg)] is
    [LengthDelimitedSize(msg.ByteSizeLong())]. *)
Context `{!ByteSize DecisionVariable, !ByteSize Constraint, !ByteSize Function}.

Definition ByteSizeLong_ (i : Instance) : option Z :=
  let total_size := 0 in
  let total_size := total_size + 1 * _internal_decision_variables_size i in
  let total_size :=
    fold_left
      (fun total_size msg =>
         total_size + Wire.LengthDelimitedSize (ByteSizeLong msg))
      (_internal_decision_variables i) total_size in
  let total_size := total_size + 1 * _internal_constraints_size i in
  let total_size :=
    fold_left
      (fun total_size msg =>
         total_size + Wire.LengthDelimitedSize (ByteSizeLong msg))
      (_internal_constraints i) total_size in
  let cached_has_bits := _has_bits_ i in
  total_size ←
    (if test cached_has_bits 3 then
       total_size ←
         (if test cached_has_bits 1
          then d ← deref (description_ i);
               Some (total_size +
                     (1 + Wire.LengthDelimitedSize
                            (Instance_Description.ByteSizeLong_ d)))
          else Some total_size);
       total_size ←
         (if test cached_has_bits 2
          then f ← deref (objective_ i);
               Some (total_size +
                     (1 + Wire.LengthDelimitedSize (ByteSizeLong f)))
          else Some total_size);
       Some total_size
     else Some total_size);
  let total_size :=
    if negb (_internal_sense i =? 0)
    then total_size + (1 + Wire.EnumSize (_internal_sense i))
    else total_size in
  Some (Wire.MaybeComputeUnknownFieldsSize total_size (_internal_metadata_ i)).

End WithSubmessages.
Arguments Instance : clear implicits.
End Instance.

(** * What is proved of the model

    The predicates below state which objects the theorems speak about:
    the class invariants ([..._wf]), the objects the wire can carry
    ([..._valid]), equality field for field ([..._same]) and, for each
    parse table, the fields it has an entry for ([..._recognized]). *)

(** A payload short enough for a length prefix. *)
Definition fits (bs : list byte) : Prop := Z.of_nat (length bs) <= Wire.kMaxSize.

Definition uint64_ok (v : Z) : Prop := 0 <= v < 2 ^ 64.

Definition int32_ok (v : Z) : Prop := - 2 ^ 31 <= v < 2 ^ 31.


(** The fields of an input, as [ParseLoop] splits it: the loop run with a
    table that keeps every field. *)
Definition ReadFields (bs : list byte) : option (list Wire.UnknownField) :=
  Wire.ParseLoop (fun acc n w => Some (acc ++ [(n, w)])) [] bs.

Definition Opaque_valid (m : Opaque.Opaque) : Prop :=
  Forall Wire.field_ok (Opaque._internal_metadata_ m).

(** ** [Instance_Description] *)

(** A string the wire can carry and a parser accepts. *)
Definition string_ok (s : list byte) : Prop :=
  Utf8.IsStructurallyValid s = true /\ fits s.

(** The fields [Instance_Description::_table_] has an entry for. *)
Definition Description_recognized (f : Wire.UnknownField) : bool :=
  match snd f with
  | Wire.LengthDelimited _ => (1 <=? fst f) && (fst f <=? 4)
  | _ => false
  end.

(** The class invariant: three has-bits, and an absent string is empty. *)
Definition Description_wf (d : Instance_Description.Instance_Description) : Prop :=
  0 <= Instance_Description._has_bits_ d < 8 /\
  (test (Instance_Description._has_bits_ d) 1 = false ->
   Instance_Description.name_ d = []) /\
  (test (Instance_Description._has_bits_ d) 2 = false ->
   Instance_Description.description_ d = []) /\
  (test (Instance_Description._has_bits_ d) 4 = false ->
   Instance_Description.created_by_ d = []).

(** What the wire can carry of a description: the invariant, strings
    that are valid UTF-8 and fit a length prefix, and unknown fields that
    are fields the table has no entry for. *)
Definition Description_valid (d : Instance_Description.Instance_Description) : Prop :=
  Description_wf d /\
  string_ok (Instance_Description.name_ d) /\
  string_ok (Instance_Description.description_ d) /\
  string_ok (Instance_Description.created_by_ d) /\
  Forall string_ok (Instance_Description.authors_ d) /\
  Forall (fun f => Wire.field_ok f /\ Description_recognized f = false)
    (Instance_Description._internal_metadata_ d).

(** A description whose every string and unknown field can be written:
    nothing is asked of the encoding of the strings. *)
Definition Description_encodable (d : Instance_Description.Instance_Description)
  : Prop :=
  fits (Instance_Description.name_ d) /\
  fits (Instance_Description.description_ d) /\
  fits (Instance_Description.created_by_ d) /\
  Forall fits (Instance_Description.authors_ d) /\
  Forall Wire.field_ok (Instance_Description._internal_metadata_ d).

(** The fields [Instance_Description::_InternalSerialize] writes, in its
    order. *)
Definition Description_fields (d : Instance_Description.Instance_Description)
  : list Wire.UnknownField :=
  (if test (Instance_Description._has_bits_ d) 1
   then [(1, Wire.LengthDelimited (Instance_Description.name_ d))] else [])
  ++ (if test (Instance_Description._has_bits_ d) 2
      then [(2, Wire.LengthDelimited (Instance_Description.description_ d))]
      else [])
  ++ map (fun s => (3, Wire.LengthDelimited s)) (Instance_Description.authors_ d)
  ++ (if test (Instance_Description._has_bits_ d) 4
      then [(4, Wire.LengthDelimited (Instance_Description.created_by_ d))]
      else [])
  ++ Instance_Description._internal_metadata_ d.

(** ** [Quadratic] *)
Section Quadratic_predicates.
Import Quadratic.
Context {Linear : Type} `{!Message Linear}.
Local Abbreviation Quadratic := (Quadratic.Quadratic Linear).
Implicit Types q : Quadratic.


Definition Quadratic_recognized (f : Wire.UnknownField) : bool :=
  match snd f with
  | Wire.LengthDelimited _ => (1 <=? fst f) && (fst f <=? 4)
  | Wire.Varint _ => (1 <=? fst f) && (fst f <=? 2)
  | Wire.Fixed64 _ => fst f =? 3
  | Wire.Fixed32 _ => false
  end.

Definition Quadratic_fields q : list Wire.UnknownField :=
  (if decide (rows_ q = []) then []
   else [(1, Wire.LengthDelimited (Wire.WritePackedVarint (rows_ q)))])
  ++ (if decide (columns_ q = []) then []
      else [(2, Wire.LengthDelimited (Wire.WritePackedVarint (columns_ q)))])
  ++ (if decide (values_ q = []) then []
      else [(3, Wire.LengthDelimited (Wire.WritePackedFixed64 (values_ q)))])
  ++ (if test (_has_bits_ q) 1
      then match linear_ q with
           | live l => [(4, Wire.LengthDelimited (InternalSerialize l))]
           | _ => []
           end
      else [])
  ++ _internal_metadata_ q.

Context `{!MessageLaws Linear}.

(** What the wire can carry of a [Quadratic].  Nothing relates the lengths
    of [rows_], [columns_] and [values_]. *)
Definition Quadratic_valid q : Prop :=
  Forall uint64_ok (rows_ q) /\ fits (Wire.WritePackedVarint (rows_ q)) /\
  Forall uint64_ok (columns_ q) /\ fits (Wire.WritePackedVarint (columns_ q)) /\
  Forall uint64_ok (values_ q) /\ fits (Wire.WritePackedFixed64 (values_ q)) /\
  (has_linear q = true ->
   exists l, linear_ q = live l /\ msg_valid l /\ fits (InternalSerialize l)) /\
  Forall (fun f => Wire.field_ok f /\ Quadratic_recognized f = false)
    (_internal_metadata_ q).

Definition Quadratic_same (q' q : Quadratic) : Prop :=
  has_linear q' = has_linear q /\
  rows_ q' = rows_ q /\ columns_ q' = columns_ q /\ values_ q' = values_ q /\
  (has_linear q = true ->
   exists l' l, linear_ q' = live l' /\ linear_ q = live l /\ msg_same l' l) /\
  _internal_metadata_ q' = _internal_metadata_ q.

Definition Quadratic_wf q : Prop :=
  match linear_ q with
  | null => has_linear q = false
  | live l => if has_linear q then msg_wf l
              else exists l', msg_wf l' /\ l = Clear l'
  | dangling => False
  end.

End Quadratic_predicates.

(** ** [Function] *)
Section Function_predicates.
Import Function.
Context {Linear Quadratic Polynomial : Type}.
Context `{!Message Linear, !Message Quadratic, !Message Polynomial}.
Local Abbreviation Function := (Function.Function Linear Quadratic Polynomial).
Implicit Types f : Function.

Definition Function_recognized (u : Wire.UnknownField) : bool :=
  match snd u with
  | Wire.Fixed64 _ => fst u =? 1
  | Wire.LengthDelimited _ => (2 <=? fst u) && (fst u <=? 4)
  | _ => false
  end.

(** The active variant, seen through a property of each kind of payload. *)
Definition active f (PC : Z -> Prop) (PL : Linear -> Prop)
    (PQ : Quadratic -> Prop) (PP : Polynomial -> Prop) : Prop :=
  match function_ f with
  | constant_ v => function_case f = kConstant /\ PC v
  | linear_ (live l) => function_case f = kLinear /\ PL l
  | quadratic_ (live q) => function_case f = kQuadratic /\ PQ q
  | polynomial_ (live p) => function_case f = kPolynomial /\ PP p
  | _ => False
  end.

Definition Function_fields f : list Wire.UnknownField :=
  (if function_case f =? kConstant then
     match _internal_constant f with
     | Some v => [(1, Wire.Fixed64 v)]
     | None => []
     end
   else if function_case f =? kLinear then
     match _internal_linear f with
     | Some l => [(2, Wire.LengthDelimited (InternalSerialize l))]
     | None => []
     end
   else if function_case f =? kQuadratic then
     match _internal_quadratic f with
     | Some q => [(3, Wire.LengthDelimited (InternalSerialize q))]
     | None => []
     end
   else if function_case f =? kPolynomial then
     match _internal_polynomial f with
     | Some p => [(4, Wire.LengthDelimited (InternalSerialize p))]
     | None => []
     end
   else [])
  ++ _internal_metadata_ f.

Context `{!MessageLaws Linear, !MessageLaws Quadratic, !MessageLaws Polynomial}.

(** [Function.wf], and the submessage held keeps its own invariant. *)
Definition Function_wf_all f : Prop :=
  function_case f = FUNCTION_NOT_SET \/
  active f (fun _ => True) msg_wf msg_wf msg_wf.

Definition Function_valid f : Prop :=
  (function_case f = FUNCTION_NOT_SET \/
   active f uint64_ok
     (fun l => msg_valid l /\ fits (InternalSerialize l))
     (fun q => msg_valid q /\ fits (InternalSerialize q))
     (fun p => msg_valid p /\ fits (InternalSerialize p))) /\
  Forall (fun u => Wire.field_ok u /\ Function_recognized u = false)
    (_internal_metadata_ f).

(** The same variant with the same payload, and the same unknown fields. *)
Definition Function_same (f' f : Function) : Prop :=
  function_case f' = function_case f /\
  (function_case f = FUNCTION_NOT_SET \/
   match function_ f', function_ f with
   | constant_ v', constant_ v => v' = v
   | linear_ (live l'), linear_ (live l) => msg_same l' l
   | quadratic_ (live q'), quadratic_ (live q) => msg_same q' q
   | polynomial_ (live p'), polynomial_ (live p) => msg_same p' p
   | _, _ => False
   end) /\
  _internal_metadata_ f' = _internal_metadata_ f.

End Function_predicates.

(** ** [Instance] *)
Section Instance_predicates.
Import Instance.
Context {DecisionVariable Constraint : Type}.
Context `{!Message DecisionVariable, !Message Constraint}.
Context {Linear Quadratic Polynomial : Type}.
Context `{!Message (Function.Function Linear Quadratic Polynomial)}.
Local Abbreviation Function := (Function.Function Linear Quadratic Polynomial).
Local Abbreviation Instance :=
  (Instance.Instance DecisionVariable Constraint Linear Quadratic Polynomial).
Implicit Types i : Instance.

(** The has-bits and the pointers agree: a submessage marked present is
    there, and no pointer dangles. *)
Definition pointers_ok i : Prop :=
  match description_ i with
  | null => has_description i = false
  | live _ => True
  | dangling => False
  end /\
  match objective_ i with
  | null => has_objective i = false
  | live _ => True
  | dangling => False
  end.

(** The fields [Instance::_table_] has an entry for. *)
Definition Instance_recognized (u : Wire.UnknownField) : bool :=
  match snd u with
  | Wire.LengthDelimited _ => (1 <=? fst u) && (fst u <=? 4)
  | Wire.Varint _ => fst u =? 5
  | _ => false
  end.

(** The fields [Instance::_InternalSerialize] writes, in its order. *)
Definition Instance_fields i : option (list Wire.UnknownField) :=
  b1 ← (if test (_has_bits_ i) 1
        then d ← deref (description_ i);
             Some [(1, Wire.LengthDelimited
                         (Instance_Description._InternalSerialize d))]
        else Some []);
  b3 ← (if test (_has_bits_ i) 2
        then f ← deref (objective_ i);
             Some [(3, Wire.LengthDelimited (InternalSerialize f))]
        else Some []);
  Some (b1
        ++ map (fun v => (2, Wire.LengthDelimited (InternalSerialize v)))
             (decision_variables_ i)
        ++ b3
        ++ map (fun c => (4, Wire.LengthDelimited (InternalSerialize c)))
             (constraints_ i)
        ++ (if negb (sense_ i =? 0)
            then [(5, Wire.Varint (sense_ i mod 2 ^ 64))] else [])
        ++ _internal_metadata_ i).

Context `{!MessageLaws DecisionVariable, !MessageLaws Constraint}.
Context `{!MessageLaws Function}.

(** The class invariant of [Instance]: what [pointers_ok] says, every
    submessage keeps its own invariant, and a submessage that is held
    without its has-bit is one that was cleared. *)
Definition Instance_wf i : Prop :=
  match description_ i with
  | null => has_description i = false
  | live d =>
      if has_description i then Description_wf d
      else d = Instance_Description.Instance_Description_default_instance
  | dangling => False
  end /\
  match objective_ i with
  | null => has_objective i = false
  | live f =>
      if has_objective i then msg_wf f
      else exists f', msg_wf f' /\ f = Clear f'
  | dangling => False
  end /\
  Forall msg_wf (decision_variables_ i) /\ Forall msg_wf (constraints_ i).

(** Equal field for field: the same presence of each optional submessage
    and, where present, the same content; the same elements in the same
    order; the same sense and unknown fields. *)
Definition Instance_same (i' i : Instance) : Prop :=
  has_description i' = has_description i /\
  (has_description i = true ->
   exists d, description_ i' = live d /\ description_ i = live d) /\
  has_objective i' = has_objective i /\
  (has_objective i = true ->
   exists f' f, objective_ i' = live f' /\ objective_ i = live f /\
                msg_same f' f) /\
  Forall2 msg_same (decision_variables_ i') (decision_variables_ i) /\
  Forall2 msg_same (constraints_ i') (constraints_ i) /\
  sense_ i' = sense_ i /\
  _internal_metadata_ i' = _internal_metadata_ i.

(** What the wire can carry of an [Instance]: every submessage it writes is
    one the wire can carry and fits a length prefix, the sense is an
    [int], the unknown fields are fields the table has no entry for. *)
Definition Instance_valid i : Prop :=
  (has_description i = true ->
   exists d, description_ i = live d /\ Description_valid d /\
             fits (Instance_Description._InternalSerialize d)) /\
  (has_objective i = true ->
   exists f, objective_ i = live f /\ msg_valid f /\
             fits (InternalSerialize f)) /\
  Forall (fun v => msg_valid v /\ fits (InternalSerialize v))
    (decision_variables_ i) /\
  Forall (fun c => msg_valid c /\ fits (InternalSerialize c))
    (constraints_ i) /\
  int32_ok (sense_ i) /\
  Forall (fun u => Wire.field_ok u /\ Instance_recognized u = false)
    (_internal_metadata_ i).

End Instance_predicates.

(** ** Sizes *)
Section Size_predicates.
Import Instance.
Context {DecisionVariable Constraint : Type}.
Context `{!Message DecisionVariable, !Message Constraint}.
Context {Linear Quadratic Polynomial : Type}.
Context `{!Message (Function.Function Linear Quadratic Polynomial)}.
Context `{!ByteSize DecisionVariable, !ByteSize Constraint}.
Context `{!ByteSize (Function.Function Linear Quadratic Polynomial)}.
Local Abbreviation Instance :=
  (Instance.Instance DecisionVariable Constraint Linear Quadratic Polynomial).

(** A submessage whose [ByteSizeLong] is the number of bytes it serializes
    to, and short enough for a length prefix. *)
Definition sized {T} `{Message T} `{ByteSize T} (x : T) : Prop :=
  ByteSizeLong x = Z.of_nat (length (InternalSerialize x)) /\
  fits (InternalSerialize x).

(** Every submessage the serializer of an instance writes is [sized], and
    the unknown fields can be written. *)
Definition Instance_sized (i : Instance) : Prop :=
  Forall sized (decision_variables_ i) /\
  Forall sized (constraints_ i) /\
  (forall d, has_description i = true -> description_ i = live d ->
     Description_encodable d /\
     fits (Instance_Description._InternalSerialize d)) /\
  (forall f, has_objective i = true -> objective_ i = live f -> sized f) /\
  Forall Wire.field_ok (_internal_metadata_ i).

End Size_predicates.

(** ** Repeated scalar fields *)

(** What the five accessors of a repeated scalar field promise together:
    [add] appends, [set] replaces one element in place, both defined
    exactly when [get] is, that is for [0 <= index < size]; [clear] leaves
    no element. *)
Definition array_laws {Q : Type} (size : Q -> Z) (get : Q -> Z -> option Z)
    (set : Z -> Z -> Q -> option Q) (add : Z -> Q -> Q) (clear : Q -> Q)
  : Prop :=
  forall (q : Q) (index value : Z),
    0 <= size q /\
    (* add *)
    size (add value q) = size q + 1 /\
    get (add value q) (size q) = Some value /\
    (forall j, 0 <= j < size q -> get (add value q) j = get q j) /\
    (* set and get within bounds *)
    (0 <= index < size q ->
     (exists old, get q index = Some old) /\
     exists q', set index value q = Some q' /\
       size q' = size q /\
       get q' index = Some value /\
       forall j, j <> index -> get q' j = get q j) /\
    (* out of bounds *)
    (index < 0 \/ size q <= index ->
     get q index = None /\ set index value q = None) /\
    (* clear *)
    size (clear q) = 0.

(** ** Sample objects *)
Module Sample.

Abbreviation Linear := Opaque.Opaque.
Abbreviation Polynomial := Opaque.Opaque.
Abbreviation DecisionVariable := Opaque.Opaque.
Abbreviation Constraint := Opaque.Opaque.
Abbreviation Quadratic := (Quadratic.Quadratic Linear).
Abbreviation Function := (Function.Function Linear Quadratic Polynomial).
Abbreviation Instance :=
  (Instance.Instance DecisionVariable Constraint Linear Quadratic Polynomial).

#[export] Existing Instance Opaque.Opaque_Message.
#[export] Existing Instance Quadratic.Quadratic_Message.
#[export] Existing Instance Function.Function_Message.

(** A submessage of a class that is not among the sources, seen through
    the bytes it is made of: fields 1 and 2 as varints. *)
Definition term : Opaque.Opaque :=
  {| Opaque._internal_metadata_ := [(1, Wire.Varint 3); (2, Wire.Varint 7)] |}.

(** The name is present and empty, the description absent, [created_by]
    present; one field the schema does not know. *)
Definition description : Instance_Description.Instance_Description :=
  {| Instance_Description._has_bits_ := 5;
     Instance_Description.authors_ := [bytes [97; 98]; bytes [195; 169]];
     Instance_Description.name_ := [];
     Instance_Description.description_ := [];
     Instance_Description.created_by_ := bytes [111; 109; 109; 120];
     Instance_Description._internal_metadata_ := [(9, Wire.Varint 1)] |}.

(** Two rows, one column, one value (1.0), and a linear part. *)
Definition quadratic : Quadratic :=
  {| Quadratic._has_bits_ := 1;
     Quadratic.rows_ := [0; 1];
     Quadratic.columns_ := [1];
     Quadratic.values_ := [4607182418800017408];
     Quadratic.linear_ := live term;
     Quadratic._internal_metadata_ := [] |}.

Definition function : Function :=
  {| Function.function_ := Function.quadratic_ (live quadratic);
     Function._oneof_case_ := Function.kQuadratic;
     Function._internal_metadata_ := [] |}.

(** An instance with a sense outside the named values. *)
Definition instance : Instance :=
  {| Instance._has_bits_ := 3;
     Instance.decision_variables_ := [term];
     Instance.constraints_ := [];
     Instance.description_ := live description;
     Instance.objective_ := live function;
     Instance.sense_ := 3;
     Instance._internal_metadata_ := [(7, Wire.Fixed32 5)] |}.

(** An instance with neither description nor objective. *)
Definition bare : Instance :=
  {| Instance._has_bits_ := 0;
     Instance.decision_variables_ := [term; term];
     Instance.constraints_ := [term];
     Instance.description_ := null;
     Instance.objective_ := null;
     Instance.sense_ := Instance.SENSE_MAXIMIZE;
     Instance._internal_metadata_ := [] |}.

(** A store holding the two instances, and one holding two descriptions. *)
Definition instances : gmap address Instance := <[2%positive := instance]> {[1%positive := bare]}.

Definition descriptions : gmap address Instance_Description.Instance_Description :=
  <[2%positive := description]>
    {[1%positive := Instance_Description.Instance_Description_default_instance]}.

(** A description whose name is the one byte 0xFF, which is not UTF-8. *)
Definition not_utf8 : Instance_Description.Instance_Description :=
  Instance_Description._internal_set_name (bytes [255])
    Instance_Description.Instance_Description_default_instance.

(** A second description, to merge into the first: it has a name and a
    description, and one author. *)
Definition revision : Instance_Description.Instance_Description :=
  {| Instance_Description._has_bits_ := 3;
     Instance_Description.authors_ := [bytes [99]];
     Instance_Description.name_ := bytes [107; 110; 97; 112];
     Instance_Description.description_ := bytes [48; 45; 49];
     Instance_Description.created_by_ := [];
     Instance_Description._internal_metadata_ := [] |}.

(** A second objective: one more quadratic term (row 2, column 0, value
    2.0) and no linear part. *)
Definition correction : Function :=
  {| Function.function_ :=
       Function.quadratic_
         (live {| Quadratic._has_bits_ := 0;
                  Quadratic.rows_ := [2];
                  Quadratic.columns_ := [0];
                  Quadratic.values_ := [4611686018427387904];
                  Quadratic.linear_ := null;
                  Quadratic._internal_metadata_ := [] |});
     Function._oneof_case_ := Function.kQuadratic;
     Function._internal_metadata_ := [] |}.

(** An instance to merge into the first: a description and an objective
    of its own, one element in each list, and no sense. *)
Definition update : Instance :=
  {| Instance._has_bits_ := 3;
     Instance.decision_variables_ := [term];
     Instance.constraints_ := [term];
     Instance.description_ := live revision;
     Instance.objective_ := live correction;
     Instance.sense_ := Instance.SENSE_UNSPECIFIED;
     Instance._internal_metadata_ := [(8, Wire.Varint 2)] |}.

(** [Function::ByteSizeLong] is defined in function.pb.cc, which is not
    among the sources: on the sample objects it is taken to be what the
    serializer writes. *)
Definition Function_ByteSize : ByteSize Function :=
  fun f => Z.of_nat (length (Function._InternalSerialize f)).

End Sample.

(** * Facts

    First the wire format, then each message, then the four messages
    together and the sample objects. *)

(** ** The wire format *)
Section Wire_facts.
Import Wire.

Lemma byte_to_Z_range b : 0 <= byte_to_Z b < 256.
Proof.
  unfold byte_to_Z. pose proof (Byte.to_N_bounded b). lia.
Qed.

Lemma byte_to_of_Z z : 0 <= z < 256 -> byte_to_Z (byte_of_Z z) = z.
Proof.
  intros Hz. unfold byte_to_Z, byte_of_Z.
  rewrite Z.mod_small by lia.
  destruct (Byte.of_N (Z.to_N z)) as [b|] eqn:E.
  - apply Byte.to_of_N in E. lia.
  - apply Byte.of_N_None_iff in E. lia.
Qed.

Lemma byte_of_to_Z b : byte_of_Z (byte_to_Z b) = b.
Proof.
  unfold byte_to_Z, byte_of_Z.
  pose proof (Byte.to_N_bounded b).
  rewrite Z.mod_small by lia. rewrite N2Z.id, Byte.of_to_N. reflexivity.
Qed.

(** A continuation byte carries seven bits of the value under the flag. *)
Lemma continuation_byte v : Z.lor (Z.land v 127) 128 = v mod 128 + 128.
Proof.
  pose proof (Z.add_lor_land (Z.land v 127) 128) as H.
  rewrite <- Z.land_assoc in H. change (Z.land 127 128) with 0 in H.
  rewrite Z.land_0_r in H.
  change 127 with (Z.ones 7) in H. rewrite Z.land_ones in H by lia.
  change 127 with (Z.ones 7). rewrite Z.land_ones by lia.
  change (2 ^ 7) with 128 in *. lia.
Qed.

(** A varint written on at most [n + 1] bytes is read back by any reader
    that allows more bytes than that. *)
Lemma ReadVarint_go_WriteVarint_go n : forall m v rest,
  (n < m)%nat -> 0 <= v < 128 ^ Z.of_nat (S n) ->
  ReadVarint_go m (WriteVarint_go n v ++ rest) = Some (v, rest).
Proof.
  induction n as [|n IH]; intros m v rest Hm Hv.
  - destruct m as [|m]; [lia|]. simpl in *.
    rewrite byte_to_of_Z by lia.
    destruct (v <? 128) eqn:E; [reflexivity | lia].
  - destruct m as [|m]; [lia|]. cbn [WriteVarint_go].
    destruct (v <? 128) eqn:E.
    + simpl. rewrite byte_to_of_Z by lia. rewrite E. reflexivity.
    + cbn [app ReadVarint_go]. rewrite continuation_byte.
      assert (0 <= v mod 128 < 128) by (apply Z.mod_pos_bound; lia).
      rewrite byte_to_of_Z by lia.
      destruct (v mod 128 + 128 <? 128) eqn:E'; [lia|].
      rewrite IH.
      * f_equal. f_equal.
        change 127 with (Z.ones 7). rewrite Z.land_ones by lia.
        rewrite Z.shiftl_mul_pow2, Z.shiftr_div_pow2 by lia.
        change (2 ^ 7) with 128.
        rewrite Z.add_mod by lia. rewrite Z.mod_mod by lia.
        change (128 mod 128) with 0. rewrite Z.add_0_r, Z.mod_mod by lia.
        pose proof (Z.div_mod v 128). lia.
      * lia.
      * rewrite Z.shiftr_div_pow2 by lia. change (2 ^ 7) with 128.
        rewrite Nat2Z.inj_succ, Z.pow_succ_r in Hv by lia.
        split; [apply Z.div_pos; lia|].
        apply Z.div_lt_upper_bound; lia.
Qed.

Lemma WriteVarint_go_length n v :
  (1 <= length (WriteVarint_go n v) <= S n)%nat.
Proof.
  revert v. induction n as [|n IH]; intros v; simpl.
  - lia.
  - destruct (v <? 128); simpl; [lia|]. specialize (IH (Z.shiftr v 7)). lia.
Qed.

(** A fixed-width value that fits its width is read back. *)
Lemma ReadLE_WriteLE n : forall v rest,
  0 <= v < 256 ^ Z.of_nat n ->
  ReadLE n (WriteLE n v ++ rest) = Some (v, rest).
Proof.
  induction n as [|n IH]; intros v rest Hv.
  - simpl in *. f_equal. f_equal. lia.
  - cbn [WriteLE app ReadLE].
    change 255 with (Z.ones 8). rewrite Z.land_ones by lia.
    change (2 ^ 8) with 256.
    assert (0 <= v mod 256 < 256) by (apply Z.mod_pos_bound; lia).
    rewrite byte_to_of_Z by lia.
    rewrite Z.shiftr_div_pow2 by lia. change (2 ^ 8) with 256.
    rewrite IH.
    + f_equal. f_equal. rewrite Z.shiftl_mul_pow2 by lia.
      change (2 ^ 8) with 256. pose proof (Z.div_mod v 256). lia.
    + rewrite Nat2Z.inj_succ, Z.pow_succ_r in Hv by lia.
      split; [apply Z.div_pos; lia|].
      apply Z.div_lt_upper_bound; lia.
Qed.

Lemma WriteLE_length n v : length (WriteLE n v) = n.
Proof. revert v. induction n; intros; simpl; [|rewrite IHn]; reflexivity. Qed.

(** The wire type takes the three low bits of a tag. *)
Lemma MakeTag_add n wt :
  0 <= wt < 8 -> MakeTag n wt = n * 8 + wt.
Proof.
  intros Hwt. unfold MakeTag.
  pose proof (Z.add_lor_land (Z.shiftl n 3) wt) as H.
  assert (Hw : wt = Z.land 7 wt).
  { change 7 with (Z.ones 3). rewrite Z.land_comm, Z.land_ones by lia.
    rewrite Z.mod_small; [reflexivity | change (2 ^ 3) with 8; lia]. }
  rewrite Hw in H at 2. rewrite Z.land_assoc in H.
  change 7 with (Z.ones 3) in H. rewrite Z.land_ones in H by lia.
  rewrite Z.shiftl_mul_pow2 in H by lia. change (2 ^ 3) with 8 in H.
  rewrite Z.mod_mul in H by lia. rewrite Z.land_0_l in H.
  rewrite Z.shiftl_mul_pow2 by lia. change (2 ^ 3) with 8. lia.
Qed.

Lemma wire_type_range w : 0 <= wire_type w < 8.
Proof. destruct w; cbv; intuition congruence. Qed.

Lemma ReadTag_WriteTag n wt rest :
  1 <= n < 2 ^ 29 -> 0 <= wt < 8 ->
  ReadTag (WriteTag n wt ++ rest) = Some (n * 8 + wt, rest).
Proof.
  intros Hn Hwt. unfold ReadTag, WriteTag, WriteVarint32.
  rewrite MakeTag_add by lia.
  rewrite ReadVarint_go_WriteVarint_go.
  - rewrite Z.mod_small; [reflexivity|]. change (2 ^ 29) with 536870912 in Hn.
    change (2 ^ 32) with 4294967296. lia.
  - lia.
  - change (128 ^ Z.of_nat 5) with 34359738368.
    change (2 ^ 29) with 536870912 in Hn. lia.
Qed.

(** A field that the wire can carry is read back, and what follows it is
    left for the next read. *)
Lemma ReadField_WriteField n w rest :
  field_ok (n, w) ->
  ReadField (WriteField n w ++ rest) = Some (n, w, rest).
Proof.
  intros [Hn Hw]. simpl in Hn, Hw.
  pose proof (wire_type_range w) as Hwt.
  unfold ReadField, WriteField. rewrite <- app_assoc.
  rewrite ReadTag_WriteTag by assumption.
  assert (Hnum : Z.shiftr (n * 8 + wire_type w) 3 = n).
  { rewrite Z.shiftr_div_pow2 by lia. change (2 ^ 3) with 8.
    Z.div_mod_to_equations. lia. }
  assert (Htyp : Z.land (n * 8 + wire_type w) 7 = wire_type w).
  { change 7 with (Z.ones 3). rewrite Z.land_ones by lia. change (2 ^ 3) with 8.
    Z.div_mod_to_equations. lia. }
  cbv zeta. rewrite Hnum, Htyp.
  destruct (n =? 0) eqn:E; [lia|]. clear E.
  destruct w as [v|v|payload|v]; cbn [value_ok WriteValue wire_type] in *;
    unfold WIRETYPE_VARINT, WIRETYPE_FIXED64, WIRETYPE_LENGTH_DELIMITED,
      WIRETYPE_FIXED32; cbn [Z.eqb Pos.eqb].
  - unfold ReadVarint64, WriteVarint64.
    rewrite ReadVarint_go_WriteVarint_go.
    + rewrite Z.mod_small by lia. reflexivity.
    + lia.
    + change (128 ^ Z.of_nat 10) with (2 ^ 70).
      assert (2 ^ 64 < 2 ^ 70) by (apply Z.pow_lt_mono_r; lia). lia.
  - rewrite (ReadLE_WriteLE 8) by (change (256 ^ Z.of_nat 8) with (2 ^ 64); lia).
    reflexivity.
  - unfold ReadSize, WriteVarint32. rewrite <- app_assoc.
    rewrite ReadVarint_go_WriteVarint_go.
    + destruct (Z.of_nat (length payload) <=? kMaxSize) eqn:E; [|lia].
      rewrite length_app.
      destruct (Z.of_nat (length payload + length rest) <? Z.of_nat (length payload)) eqn:E2; [apply Z.ltb_lt in E2; lia|].
      rewrite Nat2Z.id. rewrite take_app_length, drop_app_length. reflexivity.
    + lia.
    + unfold kMaxSize in Hw. change (128 ^ Z.of_nat 5) with 34359738368. lia.
  - rewrite (ReadLE_WriteLE 4) by (change (256 ^ Z.of_nat 4) with (2 ^ 32); lia).
    reflexivity.
Qed.

Lemma WriteField_nonempty n w : WriteField n w <> [].
Proof.
  unfold WriteField, WriteTag, WriteVarint32.
  pose proof (WriteVarint_go_length 4 (MakeTag n (wire_type w))).
  destruct (WriteVarint_go 4 (MakeTag n (wire_type w))); simpl in *; [lia | discriminate].
Qed.

(** Every read uses up input, so the fuel of [ParseLoop] is enough. *)
Lemma ReadVarint_go_shrinks n : forall bs v rest,
  ReadVarint_go n bs = Some (v, rest) -> (length rest < length bs)%nat.
Proof.
  induction n as [|n IH]; intros bs v rest H; [discriminate|].
  destruct bs as [|b bs]; [discriminate|]. simpl in H.
  destruct (byte_to_Z b <? 128).
  - inversion H; subst. simpl. lia.
  - destruct (ReadVarint_go n bs) as [[hi r]|] eqn:E; [|discriminate].
    inversion H; subst. apply IH in E. simpl. lia.
Qed.

Lemma ReadLE_shrinks n : forall bs v rest,
  ReadLE n bs = Some (v, rest) -> (length rest <= length bs)%nat.
Proof.
  induction n as [|n IH]; intros bs v rest H; simpl in H.
  - inversion H; subst. lia.
  - destruct bs as [|b bs]; [discriminate|].
    destruct (ReadLE n bs) as [[hi r]|] eqn:E; [|discriminate].
    inversion H; subst. apply IH in E. simpl. lia.
Qed.

Lemma ReadField_shrinks bs n w rest :
  ReadField bs = Some (n, w, rest) -> (length rest < length bs)%nat.
Proof.
  unfold ReadField, ReadTag, ReadVarint64, ReadSize. intros H.
  destruct (ReadVarint_go 5 bs) as [[tag r0]|] eqn:Et; [|discriminate].
  apply ReadVarint_go_shrinks in Et.
  destruct (Z.shiftr (tag mod 2 ^ 32) 3 =? 0); [discriminate|].
  destruct (Z.land (tag mod 2 ^ 32) 7 =? WIRETYPE_VARINT).
  { destruct (ReadVarint_go 10 r0) as [[v r]|] eqn:E; [|discriminate].
    apply ReadVarint_go_shrinks in E. inversion H; subst. lia. }
  destruct (Z.land (tag mod 2 ^ 32) 7 =? WIRETYPE_FIXED64).
  { destruct (ReadLE 8 r0) as [[v r]|] eqn:E; [|discriminate].
    apply ReadLE_shrinks in E. inversion H; subst. lia. }
  destruct (Z.land (tag mod 2 ^ 32) 7 =? WIRETYPE_LENGTH_DELIMITED).
  { destruct (ReadVarint_go 5 r0) as [[v r]|] eqn:E; [|discriminate].
    apply ReadVarint_go_shrinks in E.
    destruct (v <=? kMaxSize); [|discriminate].
    destruct (Z.of_nat (length r) <? v); [discriminate|].
    inversion H; subst. rewrite length_drop. lia. }
  destruct (Z.land (tag mod 2 ^ 32) 7 =? WIRETYPE_FIXED32); [|discriminate].
  destruct (ReadLE 4 r0) as [[v r]|] eqn:E; [|discriminate].
  apply ReadLE_shrinks in E. inversion H; subst. lia.
Qed.

Section ParseLoop_facts.
Context {T : Type} (handle : T -> Z -> WireValue -> option T).

(** Fuel beyond the length of the input makes no difference. *)
Lemma ParseLoop_go_fuel fuel : forall fuel' bs this,
  (length bs <= fuel)%nat -> (length bs <= fuel')%nat ->
  ParseLoop_go handle fuel this bs = ParseLoop_go handle fuel' this bs.
Proof.
  induction fuel as [|fuel IH]; intros fuel' bs this H1 H2.
  - destruct bs; [|simpl in H1; lia]. destruct fuel'; reflexivity.
  - destruct bs as [|b bs]; [destruct fuel'; reflexivity|].
    destruct fuel' as [|fuel']; [simpl in H2; lia|].
    cbn [ParseLoop_go].
    destruct (ReadField (b :: bs)) as [[[n w] rest]|] eqn:E; [|reflexivity].
    apply ReadField_shrinks in E. simpl in *.
    destruct (handle this n w); [|reflexivity].
    apply IH; lia.
Qed.

Lemma ParseLoop_nil this : ParseLoop handle this [] = Some this.
Proof. reflexivity. Qed.

Lemma ParseLoop_step bs n w rest this :
  ReadField bs = Some (n, w, rest) ->
  ParseLoop handle this bs =
  match handle this n w with
  | Some this' => ParseLoop handle this' rest
  | None => None
  end.
Proof.
  intros E. unfold ParseLoop.
  destruct bs as [|b bs]; [discriminate|].
  cbn [length ParseLoop_go]. rewrite E.
  destruct (handle this n w); [|reflexivity].
  apply ReadField_shrinks in E. simpl in E.
  apply ParseLoop_go_fuel; lia.
Qed.

Lemma ParseLoop_WriteField n w rest this :
  field_ok (n, w) ->
  ParseLoop handle this (WriteField n w ++ rest) =
  match handle this n w with
  | Some this' => ParseLoop handle this' rest
  | None => None
  end.
Proof.
  intros H. apply ParseLoop_step. apply ReadField_WriteField, H.
Qed.

Lemma feed_app fs1 : forall this fs2,
  feed handle this (fs1 ++ fs2) =
  match feed handle this fs1 with
  | Some this' => feed handle this' fs2
  | None => None
  end.
Proof.
  induction fs1 as [|f fs1 IH]; intros this fs2; simpl; [reflexivity|].
  destruct (handle this (fst f) (snd f)); [apply IH | reflexivity].
Qed.

(** Parsing the canonical encoding of a list of fields is handing the
    fields to the table one after the other. *)
Lemma ParseLoop_fields fs : forall this rest,
  Forall field_ok fs ->
  ParseLoop handle this (SerializeUnknownFields fs ++ rest) =
  match feed handle this fs with
  | Some this' => ParseLoop handle this' rest
  | None => None
  end.
Proof.
  induction fs as [|[n w] fs IH]; intros this rest Hok; [reflexivity|].
  apply Forall_cons in Hok as [Hf Hok].
  unfold SerializeUnknownFields. cbn [map concat fst snd]. rewrite <- app_assoc.
  rewrite ParseLoop_WriteField by assumption. cbn [feed fst snd].
  destruct (handle this n w); [|reflexivity].
  apply IH, Hok.
Qed.

Lemma ParseLoop_all_fields fs this :
  Forall field_ok fs ->
  ParseLoop handle this (SerializeUnknownFields fs) = feed handle this fs.
Proof.
  intros Hok. rewrite <- (app_nil_r (SerializeUnknownFields fs)).
  rewrite ParseLoop_fields by assumption.
  destruct (feed handle this fs); reflexivity.
Qed.

(** Whatever the table, a parse that succeeds has split its input into
    the fields [ReadFields] gives. *)
Lemma ParseLoop_go_ReadFields fuel : forall this bs m acc,
  ParseLoop_go handle fuel this bs = Some m ->
  exists fs,
    ParseLoop_go (fun acc n w => Some (acc ++ [(n, w)])) fuel acc bs =
      Some (acc ++ fs) /\
    feed handle this fs = Some m.
Proof.
  induction fuel as [|fuel IH]; intros this bs m acc H.
  - destruct bs; [|discriminate]. inversion H; subst.
    exists []. rewrite app_nil_r. split; reflexivity.
  - destruct bs as [|b bs].
    + inversion H; subst. exists []. rewrite app_nil_r. split; reflexivity.
    + cbn [ParseLoop_go] in *.
      destruct (ReadField (b :: bs)) as [[[n w] rest]|]; [|discriminate].
      destruct (handle this n w) as [this'|] eqn:E; [|discriminate].
      destruct (IH _ _ _ (acc ++ [(n, w)]) H) as (fs & E1 & E2).
      exists ((n, w) :: fs). split.
      * rewrite E1, <- app_assoc. reflexivity.
      * cbn [feed fst snd]. rewrite E. exact E2.
Qed.

(** Parsing is splitting the input into fields and handing them to the
    table one after the other. *)
Lemma ParseLoop_ReadFields this bs m :
  ParseLoop handle this bs = Some m ->
  exists fs, ReadFields bs = Some fs /\ feed handle this fs = Some m.
Proof. intros H. apply (ParseLoop_go_ReadFields _ _ _ _ []) in H. exact H. Qed.

End ParseLoop_facts.

Lemma feed_collect fs : forall acc : list UnknownField,
  feed (fun acc n w => Some (acc ++ [(n, w)])) acc fs = Some (acc ++ fs).
Proof.
  induction fs as [|[n w] fs IH]; intros acc; cbn [feed fst snd].
  - rewrite app_nil_r. reflexivity.
  - rewrite IH, <- app_assoc. reflexivity.
Qed.

(** The fields of a canonical encoding are the fields encoded. *)
Lemma ReadFields_canonical fs :
  Forall field_ok fs -> ReadFields (SerializeUnknownFields fs) = Some fs.
Proof.
  intros H. unfold ReadFields. rewrite ParseLoop_all_fields by exact H.
  apply feed_collect.
Qed.

End Wire_facts.

(** ** [Function]: the oneof *)
Section Function_facts.
Import Function.
Context {Linear Quadratic Polynomial : Type}.
Context `{!Message Linear, !Message Quadratic, !Message Polynomial}.
Local Abbreviation Function := (Function.Function Linear Quadratic Polynomial).
Implicit Types f g : Function.

Ltac case_split f H :=
  destruct f as [[ | ? | [ | ? | ] | [ | ? | ] | [ | ? | ]] ? ?];
  unfold wf, function_case in H; cbn in H;
  destruct H as [H | H]; rewrite H in *; clear H.

(** [clear_function] succeeds on a well-formed object, leaves no variant
    set, and doing it again changes nothing. *)
Lemma clear_function_wf f :
  wf f ->
  exists f0, clear_function f = Some f0 /\ wf f0 /\
             function_case f0 = FUNCTION_NOT_SET /\
             clear_function f0 = Some f0.
Proof.
  intros H. case_split f H; eexists; repeat split; try (left; reflexivity).
Qed.

(** Each setter succeeds on a well-formed object, keeps it well formed and
    makes its own variant the active one. *)
Lemma do_call_wf c f :
  wf f ->
  exists f', do_call c f = Some f' /\ wf f' /\
             function_case f' = case_of_call c.
Proof.
  intros H. case_split f H; destruct c; eexists;
    repeat split; try (right; reflexivity).
Qed.

Lemma do_calls_wf cs : forall f,
  wf f -> exists f', do_calls cs f = Some f' /\ wf f'.
Proof.
  induction cs as [|c cs IH]; intros f H; [exists f; split; [reflexivity | assumption]|].
  destruct (do_call_wf c f H) as (f1 & E1 & H1 & _).
  destruct (IH f1 H1) as (f' & E' & H').
  exists f'. split; [|assumption]. simpl. rewrite E1. exact E'.
Qed.

Lemma do_calls_app cs1 cs2 f :
  do_calls (cs1 ++ cs2) f = do_calls cs1 f ≫= do_calls cs2.
Proof.
  revert f. induction cs1 as [|c cs1 IH]; intros f; simpl; [reflexivity|].
  destruct (do_call c f); simpl; [apply IH | reflexivity].
Qed.

(** A setter that changes the variant acts as on the cleared object. *)
Lemma do_call_after_clear c f f0 :
  wf f -> function_case f <> case_of_call c ->
  clear_function f = Some f0 -> do_call c f = do_call c f0.
Proof.
  intros H Hc E. case_split f H; destruct c; cbn in *;
    try congruence; inversion E; subst; reflexivity.
Qed.

(** Claim C2.  After any sequence of calls to [set_constant],
    [mutable_linear], [mutable_quadratic] and [mutable_polynomial], each
    call succeeds, the case is the one of the last call and exactly that
    variant's [has_...] answers true.  A call that changes the variant
    first clears the one that was held: it is [clear_function] followed by
    the call on the cleared object, where no variant is set and the
    submessage that was held has been deleted (the pointer left in the
    union dangles, and the call stores the new member over it).  This is
    so on every object, also one that is not well formed: where
    [clear_function] has no defined result, for a submessage that was
    deleted before, the call has none.  A call for the variant already
    active deletes nothing. *)
Theorem oneof_exclusive_after_calls f cs c :
  wf f ->
  exists g f',
    do_calls cs f = Some g /\ do_call c g = Some f' /\
    do_calls (cs ++ [c]) f = Some f' /\ wf f' /\
    function_case f' = case_of_call c /\
    has_constant f' = (case_of_call c =? kConstant) /\
    has_linear f' = (case_of_call c =? kLinear) /\
    has_quadratic f' = (case_of_call c =? kQuadratic) /\
    has_polynomial f' = (case_of_call c =? kPolynomial) /\
    (function_case g <> case_of_call c ->
     exists g0, clear_function g = Some g0 /\
                function_case g0 = FUNCTION_NOT_SET /\
                (function_case g = kLinear ->
                 exists l, function_ g = linear_ (live l) /\
                           function_ g0 = linear_ dangling) /\
                (function_case g = kQuadratic ->
                 exists q, function_ g = quadratic_ (live q) /\
                           function_ g0 = quadratic_ dangling) /\
                (function_case g = kPolynomial ->
                 exists p, function_ g = polynomial_ (live p) /\
                           function_ g0 = polynomial_ dangling) /\
                do_call c g0 = Some f') /\
    (function_case g = case_of_call c ->
     f' = match c with
          | call_set_constant value => with_function (constant_ value) g
          | _ => g
          end) /\
    (forall h : Function,
       function_case h <> case_of_call c ->
       do_call c h = clear_function h ≫= do_call c).
Proof.
  intros H.
  (* the call, on any object with another variant *)
  assert (Hfirst : forall h : Function,
             function_case h <> case_of_call c ->
             do_call c h = clear_function h ≫= do_call c).
  { intros [u k m]. unfold function_case. cbn [_oneof_case_]. intros Hne.
    assert (Hk : k = 1 \/ k = 2 \/ k = 3 \/ k = 4 \/
                 (k <> 1 /\ k <> 2 /\ k <> 3 /\ k <> 4)) by lia.
    destruct Hk as [-> | [-> | [-> | [-> | (H1 & H2 & H3 & H4)]]]].
    1-4: destruct c; try (exfalso; apply Hne; reflexivity);
      destruct u as [ | ? | [ | ? | ] | [ | ? | ] | [ | ? | ]]; reflexivity.
    apply Z.eqb_neq in H1, H2, H3, H4.
    destruct c;
      unfold do_call, set_constant, mutable_linear, mutable_quadratic,
        mutable_polynomial, _internal_mutable_linear,
        _internal_mutable_quadratic, _internal_mutable_polynomial,
        clear_function, function_case, kConstant, kLinear, kQuadratic,
        kPolynomial;
      cbn [_oneof_case_]; rewrite ?H1, ?H2, ?H3, ?H4; reflexivity. }
  (* what [clear_function] leaves of a well-formed object *)
  assert (Hreleases : forall g : Function, wf g ->
            exists g0, clear_function g = Some g0 /\
              function_case g0 = FUNCTION_NOT_SET /\
              (function_case g = kLinear ->
               exists l, function_ g = linear_ (live l) /\
                         function_ g0 = linear_ dangling) /\
              (function_case g = kQuadratic ->
               exists q, function_ g = quadratic_ (live q) /\
                         function_ g0 = quadratic_ dangling) /\
              (function_case g = kPolynomial ->
               exists p, function_ g = polynomial_ (live p) /\
                         function_ g0 = polynomial_ dangling)).
  { intros g Hg. case_split g Hg; eexists; (split; [reflexivity|]);
      repeat split; try discriminate; intros _; eexists; split; reflexivity. }
  destruct (do_calls_wf cs f H) as (g & Eg & Hg).
  destruct (do_call_wf c g Hg) as (f' & Ef & Hf & Hcase).
  exists g, f'. repeat (split; [first [assumption | idtac]|]).
  - rewrite do_calls_app, Eg. simpl. rewrite Ef. reflexivity.
  - unfold has_constant. rewrite Hcase. reflexivity.
  - unfold has_linear. rewrite Hcase. reflexivity.
  - unfold has_quadratic. rewrite Hcase. reflexivity.
  - unfold has_polynomial. rewrite Hcase. reflexivity.
  - intros Hne.
    destruct (Hreleases g Hg) as (g0 & E0 & Hc0 & Hl & Hq & Hp).
    exists g0. repeat (split; [assumption|]).
    rewrite Hfirst, E0 in Ef by exact Hne. exact Ef.
  - intros Hc. clear Hfirst Hreleases.
    case_split g Hg; destruct c; cbn in *;
      try discriminate; inversion Ef; reflexivity.
  - exact Hfirst.
Qed.

(** Claim C3.  Reading a variant that is not the active one gives the
    default: 0.0 for [constant], the default instance for [linear],
    [quadratic] and [polynomial]. *)
Theorem inactive_variant_reads_default f :
  (function_case f <> kConstant -> constant f = Some 0) /\
  (function_case f <> kLinear -> linear f = Some default_instance) /\
  (function_case f <> kQuadratic -> quadratic f = Some default_instance) /\
  (function_case f <> kPolynomial -> polynomial f = Some default_instance).
Proof.
  unfold constant, _internal_constant, linear, _internal_linear,
    quadratic, _internal_quadratic, polynomial, _internal_polynomial.
  repeat split; intros H.
  - destruct (function_case f =? kConstant) eqn:E; [lia | reflexivity].
  - destruct (function_case f =? kLinear) eqn:E; [lia | reflexivity].
  - destruct (function_case f =? kQuadratic) eqn:E; [lia | reflexivity].
  - destruct (function_case f =? kPolynomial) eqn:E; [lia | reflexivity].
Qed.

(** Claim C8.  [set_constant(0.0)] makes the constant the active variant:
    [has_constant] is true and the case is [kConstant], which tells the
    object from one where nothing is set, though [constant] reads 0.0 on
    both. *)
Theorem constant_zero_is_present f :
  wf f ->
  exists f', set_constant 0 f = Some f' /\
    has_constant f' = true /\ function_case f' = kConstant /\
    constant f' = Some 0 /\
    has_constant (Function_default_instance : Function) = false /\
    function_case (Function_default_instance : Function) = FUNCTION_NOT_SET /\
    constant (Function_default_instance : Function) = Some 0 /\
    function_case f' <> function_case (Function_default_instance : Function).
Proof.
  intros H. case_split f H; eexists; repeat split; discriminate.
Qed.

End Function_facts.

(** ** [Instance_Description] *)
Lemma SerializeUnknownFields_app u1 u2 :
  Wire.SerializeUnknownFields (u1 ++ u2) =
  Wire.SerializeUnknownFields u1 ++ Wire.SerializeUnknownFields u2.
Proof. unfold Wire.SerializeUnknownFields. rewrite map_app, concat_app. reflexivity. Qed.

Lemma have_unknown_fields_if u :
  (if Wire.have_unknown_fields u then Wire.SerializeUnknownFields u else []) =
  Wire.SerializeUnknownFields u.
Proof. destruct u; reflexivity. Qed.

Lemma SerializeUnknownFields_one n w :
  Wire.SerializeUnknownFields [(n, w)] = Wire.WriteField n w.
Proof. unfold Wire.SerializeUnknownFields. simpl. apply app_nil_r. Qed.

Lemma SerializeUnknownFields_if (b : bool) n w :
  Wire.SerializeUnknownFields (if b then [(n, w)] else []) =
  if b then Wire.WriteField n w else [].
Proof. destruct b; [apply SerializeUnknownFields_one | reflexivity]. Qed.


Section Description_facts.
Import Wire Instance_Description.

(** The serializer writes the canonical encoding of [Description_fields]. *)
Lemma Description_serialize_fields d :
  _InternalSerialize d = SerializeUnknownFields (Description_fields d).
Proof.
  unfold _InternalSerialize, Description_fields. rewrite have_unknown_fields_if.
  rewrite !SerializeUnknownFields_app, !SerializeUnknownFields_if.
  unfold WriteString, _internal_name, _internal_description,
    _internal_created_by, _internal_authors.
  replace (SerializeUnknownFields (map (fun s => (3, LengthDelimited s)) (authors_ d)))
    with (concat (map (fun s => WriteField 3 (LengthDelimited s)) (authors_ d)));
    [reflexivity|].
  unfold SerializeUnknownFields. rewrite map_map. reflexivity.
Qed.

Lemma string_field_ok n s :
  1 <= n <= 4 -> string_ok s -> field_ok (n, LengthDelimited s).
Proof.
  intros Hn [_ Hs]. split; simpl; [|exact Hs].
  change (2 ^ 29) with 536870912. lia.
Qed.

Lemma Description_fields_ok d : Description_valid d -> Forall field_ok (Description_fields d).
Proof.
  intros (_ & Hn & Hd & Hc & Ha & Hu). unfold Description_fields.
  repeat apply Forall_app_2.
  - destruct (test (_has_bits_ d) 1); [|constructor].
    constructor; [|constructor]. apply string_field_ok; [lia | assumption].
  - destruct (test (_has_bits_ d) 2); [|constructor].
    constructor; [|constructor]. apply string_field_ok; [lia | assumption].
  - apply Forall_map. eapply Forall_impl; [exact Ha|].
    intros s Hs. apply string_field_ok; [lia | assumption].
  - destruct (test (_has_bits_ d) 4); [|constructor].
    constructor; [|constructor]. apply string_field_ok; [lia | assumption].
  - eapply Forall_impl; [exact Hu|]. intros f [H _]. exact H.
Qed.

Lemma Description_feed_authors l : forall this,
  Forall string_ok l ->
  feed table this (map (fun s => (3, LengthDelimited s)) l) =
  Some (with_authors (authors_ this ++ l) this).
Proof.
  induction l as [|s l IH]; intros this H.
  - simpl. rewrite app_nil_r. destruct this; reflexivity.
  - apply Forall_cons in H as [[Hs _] H]. cbn [map feed fst snd table].
    change (3 =? 1) with false. change (3 =? 2) with false.
    change (3 =? 3) with true. cbv iota. rewrite Hs.
    rewrite IH by assumption. f_equal. unfold with_authors. simpl.
    rewrite <- app_assoc. reflexivity.
Qed.

(** A field the table has no entry for is appended to the unknown fields. *)
Lemma Description_table_unknown this f :
  Description_recognized f = false ->
  table this (fst f) (snd f) =
  Some (with_metadata (_internal_metadata_ this ++ [f]) this).
Proof.
  destruct f as [n w]. unfold Description_recognized, table. cbn [fst snd].
  destruct w; try reflexivity. intros H.
  destruct (n =? 1) eqn:E1; [lia|]. destruct (n =? 2) eqn:E2; [lia|].
  destruct (n =? 3) eqn:E3; [lia|]. destruct (n =? 4) eqn:E4; [lia|].
  reflexivity.
Qed.

Lemma Description_feed_unknown u : forall this,
  Forall (fun f => Description_recognized f = false) u ->
  feed table this u = Some (with_metadata (_internal_metadata_ this ++ u) this).
Proof.
  induction u as [|f u IH]; intros this H.
  - simpl. rewrite app_nil_r. destruct this; reflexivity.
  - apply Forall_cons in H as [Hf H]. cbn [feed].
    rewrite Description_table_unknown by assumption. rewrite IH by assumption.
    f_equal. unfold with_metadata. simpl. rewrite <- app_assoc. reflexivity.
Qed.

Lemma Description_feed_name (b : bool) s this rest :
  string_ok s ->
  feed table this ((if b then [(1, LengthDelimited s)] else []) ++ rest) =
  feed table
    (if b then with_name s (with_has_bits (Z.lor (_has_bits_ this) 1) this)
     else this) rest.
Proof.
  intros [Hs _]. destruct b; [|reflexivity].
  cbn [app feed fst snd table]. change (1 =? 1) with true. cbv iota.
  rewrite Hs. reflexivity.
Qed.

Lemma Description_feed_description (b : bool) s this rest :
  string_ok s ->
  feed table this ((if b then [(2, LengthDelimited s)] else []) ++ rest) =
  feed table
    (if b then with_description s (with_has_bits (Z.lor (_has_bits_ this) 2) this)
     else this) rest.
Proof.
  intros [Hs _]. destruct b; [|reflexivity].
  cbn [app feed fst snd table]. change (2 =? 1) with false.
  change (2 =? 2) with true. cbv iota. rewrite Hs. reflexivity.
Qed.

Lemma Description_feed_created_by (b : bool) s this rest :
  string_ok s ->
  feed table this ((if b then [(4, LengthDelimited s)] else []) ++ rest) =
  feed table
    (if b then with_created_by s (with_has_bits (Z.lor (_has_bits_ this) 4) this)
     else this) rest.
Proof.
  intros [Hs _]. destruct b; [|reflexivity].
  cbn [app feed fst snd table]. change (4 =? 1) with false.
  change (4 =? 2) with false. change (4 =? 3) with false.
  change (4 =? 4) with true. cbv iota. rewrite Hs. reflexivity.
Qed.

(** Feeding the fields of a valid description to the table, starting from
    the default instance, builds that description. *)
Lemma Description_feed_fields d :
  Description_valid d -> feed table Instance_Description_default_instance (Description_fields d) = Some d.
Proof.
  intros (Hwf & Hn & Hd & Hc & Ha & Hu).
  destruct Hwf as (Hh & H1 & H2 & H4).
  assert (Hu' : Forall (fun f => Description_recognized f = false) (_internal_metadata_ d)).
  { eapply Forall_impl; [exact Hu|]. intros f [_ H]. exact H. }
  unfold Description_fields.
  rewrite Description_feed_name, Description_feed_description by assumption.
  rewrite feed_app, Description_feed_authors by assumption.
  rewrite Description_feed_created_by, Description_feed_unknown by assumption.
  destruct d as [h a n de c u].
  cbn [_has_bits_ name_ description_ created_by_ authors_
       Instance_Description._internal_metadata_] in *.
  assert (Hcases : h = 0 \/ h = 1 \/ h = 2 \/ h = 3 \/
                   h = 4 \/ h = 5 \/ h = 6 \/ h = 7) by lia.
  destruct Hcases as [-> | [-> | [-> | [-> | [-> | [-> | [-> | ->]]]]]]];
    repeat match goal with
           | H : context [test ?h ?m] |- _ =>
               let v := eval vm_compute in (test h m) in
               change (test h m) with v in H
           end;
    repeat match goal with
           | H : false = false -> _ |- _ => specialize (H eq_refl)
           | H : true = false -> _ |- _ => clear H
           end; subst; reflexivity.
Qed.

(** The round trip of a valid description. *)
Lemma Description_parse_serialize d :
  Description_valid d ->
  _InternalParse Instance_Description_default_instance (_InternalSerialize d) = Some d.
Proof.
  intros H. unfold _InternalParse. rewrite Description_serialize_fields.
  rewrite ParseLoop_all_fields by (apply Description_fields_ok, H).
  apply Description_feed_fields, H.
Qed.

Ltac eval_test_in_hyps :=
  repeat match goal with
         | H : context [test ?h ?m] |- _ =>
             let v := eval vm_compute in (test h m) in
             change (test h m) with v in H
         end;
  repeat match goal with
         | H : false = false -> _ |- _ => specialize (H eq_refl)
         | H : true = false -> _ |- _ => clear H
         end.

Ltac has_bits_cases h Hh :=
  let Hcases := fresh in
  assert (Hcases : h = 0 \/ h = 1 \/ h = 2 \/ h = 3 \/
                   h = 4 \/ h = 5 \/ h = 6 \/ h = 7) by lia;
  clear Hh;
  destruct Hcases as [-> | [-> | [-> | [-> | [-> | [-> | [-> | ->]]]]]]].

(** [Clear] gives the default instance: the strings that were absent were
    empty already. *)
Lemma Description_Clear_default d : Description_wf d -> Clear d = Instance_Description_default_instance.
Proof.
  intros (Hh & H1 & H2 & H4). destruct d as [h a n de c u]. cbn in Hh, H1, H2, H4.
  has_bits_cases h Hh; eval_test_in_hyps; subst; reflexivity.
Qed.

(** Merging into the default instance copies the source. *)
Lemma Description_MergeFrom_default d :
  Description_wf d -> MergeFrom Instance_Description_default_instance d = d.
Proof.
  intros (Hh & H1 & H2 & H4). destruct d as [h a n de c u]. cbn in Hh, H1, H2, H4.
  has_bits_cases h Hh; eval_test_in_hyps; subst; reflexivity.
Qed.

Lemma Description_merge_clear x y : Description_wf x -> Description_wf y -> MergeFrom (Clear x) y = y.
Proof. intros Hx Hy. rewrite Description_Clear_default by assumption. apply Description_MergeFrom_default, Hy. Qed.

Lemma Description_copy_eq d : copy d = d.
Proof. destruct d; reflexivity. Qed.

Lemma Description_wf_default : Description_wf Instance_Description_default_instance.
Proof. repeat split; try reflexivity; cbn; lia. Qed.

Lemma Description_valid_wf d : Description_valid d -> Description_wf d.
Proof. intros [H _]. exact H. Qed.

(** *** Unknown fields *)



(** *** [MergeImpl], field by field *)

Lemma test_mask_false h m m' :
  test h m = false -> Z.land m m' = m' -> test h m' = false.
Proof.
  unfold test. intros H Hm.
  destruct (Z.land h m =? 0) eqn:E; [|discriminate]. apply Z.eqb_eq in E.
  rewrite <- Hm, Z.land_assoc, E. reflexivity.
Qed.

Lemma lor_absorb_bit h k :
  0 <= k -> test h (2 ^ k) = true -> Z.lor (2 ^ k) h = h.
Proof.
  intros Hk Ht. unfold test in Ht. apply negb_true_iff, Z.eqb_neq in Ht.
  assert (Hbit : Z.testbit h k = true).
  { destruct (Z.testbit h k) eqn:E; [reflexivity|]. exfalso. apply Ht.
    apply Z.bits_inj'. intros j Hj. rewrite Z.land_spec, Z.bits_0.
    rewrite Z.pow2_bits_eqb by assumption.
    destruct (Z.eqb_spec k j) as [<- | _]; [rewrite E; reflexivity|].
    apply andb_false_r. }
  apply Z.bits_inj'. intros j Hj. rewrite Z.lor_spec.
  rewrite Z.pow2_bits_eqb by assumption.
  destruct (Z.eqb_spec k j) as [<- | _]; [rewrite Hbit|]; reflexivity.
Qed.

Lemma lor_set_bit h0 h k :
  0 <= k -> test h (2 ^ k) = true ->
  Z.lor (Z.lor h0 (2 ^ k)) h = Z.lor h0 h.
Proof.
  intros Hk Ht. rewrite <- Z.lor_assoc, lor_absorb_bit by assumption. reflexivity.
Qed.

(** [MergeImpl], field by field. *)
Lemma Description_MergeFrom_eq this from :
  MergeFrom this from =
  {| _has_bits_ := Z.lor (_has_bits_ this) (_has_bits_ from);
     authors_ := authors_ this ++ authors_ from;
     name_ := if has_name from then name_ from else name_ this;
     description_ :=
       if has_description from then description_ from else description_ this;
     created_by_ :=
       if has_created_by from then created_by_ from else created_by_ this;
     _internal_metadata_ :=
       _internal_metadata_ this ++ _internal_metadata_ from |}.
Proof.
  destruct this as [h0 a0 n0 d0 c0 u0], from as [h a n de c u].
  unfold MergeFrom, MergeImpl, has_name, has_description, has_created_by,
    _internal_set_name, _internal_set_description, _internal_set_created_by,
    _internal_name, _internal_description, _internal_created_by,
    _internal_authors.
  cbn [_has_bits_ name_ description_ created_by_ authors_
       Instance_Description._internal_metadata_].
  pose proof (lor_set_bit h0 h 0 ltac:(lia)) as L1.
  pose proof (fun x => lor_set_bit x h 1 ltac:(lia)) as L2.
  pose proof (fun x => lor_set_bit x h 2 ltac:(lia)) as L4.
  change (2 ^ 0) with 1 in L1. change (2 ^ 1) with 2 in L2.
  change (2 ^ 2) with 4 in L4.
  destruct (test h 7) eqn:E7.
  - destruct (test h 1) eqn:E1, (test h 2) eqn:E2, (test h 4) eqn:E4;
      cbv [with_name with_description with_created_by with_has_bits
           with_authors with_metadata _has_bits_ name_ description_
           created_by_ authors_ Instance_Description._internal_metadata_];
      f_equal;
      repeat first [rewrite L4 by reflexivity | rewrite L2 by reflexivity
                   | rewrite L1 by reflexivity]; reflexivity.
  - rewrite (test_mask_false h 7 1 E7), (test_mask_false h 7 2 E7),
      (test_mask_false h 7 4 E7) by reflexivity. reflexivity.
Qed.

End Description_facts.

Section Opaque_facts.
Import Wire Opaque.

Lemma Opaque_feed_table u : forall this,
  feed table this u = Some {| _internal_metadata_ := _internal_metadata_ this ++ u |}.
Proof.
  induction u as [|f u IH]; intros this; simpl.
  - rewrite app_nil_r. destruct this; reflexivity.
  - rewrite IH. simpl. rewrite <- app_assoc. destruct f; reflexivity.
Qed.

Lemma Opaque_parse_serialize m :
  Opaque_valid m -> _InternalParse Opaque_default_instance (_InternalSerialize m) = Some m.
Proof.
  intros H. unfold _InternalParse, _InternalSerialize.
  rewrite ParseLoop_all_fields by exact H. rewrite Opaque_feed_table.
  destruct m; reflexivity.
Qed.

(** The class with no field keeps the laws of a message class, with
    equality as [msg_same]. *)
Definition Opaque_Laws : @MessageLaws Opaque Opaque_Message.
Proof.
  refine (@Build_MessageLaws Opaque Opaque_Message
            (fun _ => True) Opaque_valid eq (fun x _ => eq_refl) _ _).
  - intros x H. exists x. split; [apply Opaque_parse_serialize, H | reflexivity].
  - intros x [y] _ _. reflexivity.
Defined.

End Opaque_facts.

(** ** [Quadratic] *)
(** A has-bit just set reads as set, one just cleared as clear. *)
Lemma test_set h m : 0 < m -> test (Z.lor h m) m = true.
Proof.
  intros Hm. unfold test. rewrite Z.land_lor_distr_l, Z.land_diag.
  destruct (Z.lor (Z.land h m) m =? 0) eqn:E; [|reflexivity].
  apply Z.eqb_eq, Z.lor_eq_0_iff in E. lia.
Qed.

Lemma test_clear h m : 0 <= m < 2 ^ 32 -> test (clear_bits h m) m = false.
Proof.
  intros Hm. unfold test, clear_bits. rewrite <- Z.land_assoc.
  replace (Z.land (Z.lnot m mod 2 ^ 32) m) with 0; [rewrite Z.land_0_r; reflexivity|].
  symmetry. apply Z.bits_inj'. intros n Hn.
  rewrite Z.land_spec, Z.bits_0.
  destruct (Z.testbit m n) eqn:Em; [|apply andb_false_r].
  rewrite andb_true_r.
  destruct (Z_lt_le_dec n 32) as [Hlt | Hge].
  - rewrite Z.mod_pow2_bits_low by lia. rewrite Z.lnot_spec by lia.
    rewrite Em. reflexivity.
  - rewrite Z.mod_pow2_bits_high by lia. reflexivity.
Qed.

Section Quadratic_facts.
Import Wire Quadratic.
Context {Linear : Type} `{!Message Linear}.
Local Abbreviation Quadratic := (Quadratic.Quadratic Linear).
Implicit Types q : Quadratic.

Lemma has_linear_set h q : has_linear (with_has_bits (set_bit0 h) q) = true.
Proof. apply (test_set h 1). lia. Qed.





(** Each [add_...] appends to its own array and leaves the two others. *)
Lemma add_independent q (v : Z) :
  (rows_ (add_rows v q) = rows_ q ++ [v] /\
   columns_ (add_rows v q) = columns_ q /\ values_ (add_rows v q) = values_ q) /\
  (columns_ (add_columns v q) = columns_ q ++ [v] /\
   rows_ (add_columns v q) = rows_ q /\ values_ (add_columns v q) = values_ q) /\
  (values_ (add_values v q) = values_ q ++ [v] /\
   rows_ (add_values v q) = rows_ q /\ columns_ (add_values v q) = columns_ q).
Proof. repeat split. Qed.

End Quadratic_facts.

Section Packed_facts.
Import Wire.

Lemma WriteVarint64_nonempty v : WriteVarint64 v <> [].
Proof.
  unfold WriteVarint64. pose proof (WriteVarint_go_length 9 v).
  destruct (WriteVarint_go 9 v); simpl in *; [lia | discriminate].
Qed.

Lemma ReadVarint64_WriteVarint64 v rest :
  0 <= v < 2 ^ 64 -> ReadVarint64 (WriteVarint64 v ++ rest) = Some (v, rest).
Proof.
  intros Hv. unfold ReadVarint64, WriteVarint64.
  rewrite ReadVarint_go_WriteVarint_go.
  - rewrite Z.mod_small by lia. reflexivity.
  - lia.
  - change (128 ^ Z.of_nat 10) with (2 ^ 70).
    assert (2 ^ 64 < 2 ^ 70) by (apply Z.pow_lt_mono_r; lia). lia.
Qed.

(** Packed arrays are read back element by element. *)
Lemma ReadPackedVarint_go_Write l : forall fuel,
  Forall uint64_ok l ->
  (length (WritePackedVarint l) <= fuel)%nat ->
  ReadPackedVarint_go fuel (WritePackedVarint l) = Some l.
Proof.
  induction l as [|v l IH]; intros fuel Hl Hfuel.
  - destruct fuel; reflexivity.
  - apply Forall_cons in Hl as [Hv Hl].
    unfold WritePackedVarint in *. cbn [map concat] in *.
    rewrite length_app in Hfuel.
    pose proof (WriteVarint64_nonempty v) as Hne.
    destruct (WriteVarint64 v) as [|b bs] eqn:E; [congruence|].
    destruct fuel as [|fuel]; [simpl in Hfuel; lia|].
    cbn [app ReadPackedVarint_go].
    change (b :: bs ++ concat (map WriteVarint64 l))
      with ((b :: bs) ++ concat (map WriteVarint64 l)).
    rewrite <- E, ReadVarint64_WriteVarint64 by exact Hv.
    rewrite IH; [reflexivity | assumption | simpl in Hfuel; lia].
Qed.

Lemma ReadPackedVarint_Write l :
  Forall uint64_ok l -> ReadPackedVarint (WritePackedVarint l) = Some l.
Proof. intros H. apply ReadPackedVarint_go_Write; [assumption | lia]. Qed.

Lemma ReadPackedFixed64_go_Write l : forall fuel,
  Forall uint64_ok l ->
  (length (WritePackedFixed64 l) <= fuel)%nat ->
  ReadPackedFixed64_go fuel (WritePackedFixed64 l) = Some l.
Proof.
  induction l as [|v l IH]; intros fuel Hl Hfuel.
  - destruct fuel; reflexivity.
  - apply Forall_cons in Hl as [Hv Hl].
    unfold WritePackedFixed64 in *. cbn [map concat] in *.
    rewrite length_app, WriteLE_length in Hfuel.
    destruct fuel as [|fuel]; [lia|].
    destruct (WriteLE 8 v ++ concat (map (WriteLE 8) l)) as [|b bs] eqn:E.
    { apply (f_equal length) in E. rewrite length_app, WriteLE_length in E.
      simpl in E. lia. }
    cbn [ReadPackedFixed64_go]. rewrite <- E.
    rewrite (ReadLE_WriteLE 8) by (change (256 ^ Z.of_nat 8) with (2 ^ 64); exact Hv).
    rewrite IH; [reflexivity | assumption | lia].
Qed.

Lemma ReadPackedFixed64_Write l :
  Forall uint64_ok l -> ReadPackedFixed64 (WritePackedFixed64 l) = Some l.
Proof. intros H. apply ReadPackedFixed64_go_Write; [assumption | lia]. Qed.

End Packed_facts.

Lemma message_field_ok n payload :
  1 <= n < 2 ^ 29 -> fits payload -> Wire.field_ok (n, Wire.LengthDelimited payload).
Proof. intros Hn Hp. split; [exact Hn | exact Hp]. Qed.

Section Quadratic_laws.
Import Wire Quadratic.
Context {Linear : Type} `{!Message Linear} `{!MessageLaws Linear}.
Local Abbreviation Quadratic := (Quadratic.Quadratic Linear).
Implicit Types q : Quadratic.

(** The serializer writes the canonical encoding of [Quadratic_fields]. *)
Lemma Quadratic_serialize_fields q :
  _InternalSerialize q = SerializeUnknownFields (Quadratic_fields q).
Proof.
  unfold _InternalSerialize, Quadratic_fields. rewrite have_unknown_fields_if.
  rewrite !SerializeUnknownFields_app.
  repeat (f_equal; [destruct (decide _); [reflexivity | symmetry; apply SerializeUnknownFields_one]|]).
  f_equal. destruct (test (_has_bits_ q) 1); [|reflexivity].
  destruct (linear_ q); try reflexivity. symmetry. apply SerializeUnknownFields_one.
Qed.

Lemma Quadratic_fields_ok q :
  Quadratic_valid q -> Forall field_ok (Quadratic_fields q).
Proof.
  intros (Hr & Hrf & Hc & Hcf & Hv & Hvf & Hl & Hu). unfold Quadratic_fields.
  assert (Hsmall : forall n, 1 <= n <= 4 -> 1 <= n < 2 ^ 29)
    by (intros; change (2 ^ 29) with 536870912; lia).
  repeat apply Forall_app_2.
  - destruct (decide _); [constructor|].
    constructor; [|constructor].
    apply message_field_ok; [apply Hsmall; lia | assumption].
  - destruct (decide _); [constructor|].
    constructor; [|constructor].
    apply message_field_ok; [apply Hsmall; lia | assumption].
  - destruct (decide _); [constructor|].
    constructor; [|constructor].
    apply message_field_ok; [apply Hsmall; lia | assumption].
  - unfold has_linear in Hl. fold (test (_has_bits_ q) 1) in Hl.
    destruct (test (_has_bits_ q) 1); [|constructor].
    destruct (Hl eq_refl) as (l & -> & _ & Hf).
    constructor; [|constructor].
    apply message_field_ok; [apply Hsmall; lia | assumption].
  - eapply Forall_impl; [exact Hu|]. intros f [H _]. exact H.
Qed.

Lemma Quadratic_table_unknown this f :
  Quadratic_recognized f = false ->
  table this (fst f) (snd f) =
  Some {| _has_bits_ := _has_bits_ this; rows_ := rows_ this;
          columns_ := columns_ this; values_ := values_ this;
          linear_ := linear_ this;
          _internal_metadata_ := _internal_metadata_ this ++ [f] |}.
Proof.
  destruct f as [n w]. unfold Quadratic_recognized, table. cbn [fst snd].
  destruct w; intros H; try reflexivity.
  - destruct (n =? 1) eqn:E1; [lia|]. destruct (n =? 2) eqn:E2; [lia|]. reflexivity.
  - rewrite H. reflexivity.
  - destruct (n =? 1) eqn:E1; [lia|]. destruct (n =? 2) eqn:E2; [lia|].
    destruct (n =? 3) eqn:E3; [lia|]. destruct (n =? 4) eqn:E4; [lia|].
    reflexivity.
Qed.

Lemma Quadratic_feed_unknown u : forall this,
  Forall (fun f => Quadratic_recognized f = false) u ->
  feed table this u =
  Some {| _has_bits_ := _has_bits_ this; rows_ := rows_ this;
          columns_ := columns_ this; values_ := values_ this;
          linear_ := linear_ this;
          _internal_metadata_ := _internal_metadata_ this ++ u |}.
Proof.
  induction u as [|f u IH]; intros this H.
  - simpl. rewrite app_nil_r. destruct this; reflexivity.
  - apply Forall_cons in H as [Hf H]. cbn [feed].
    rewrite Quadratic_table_unknown by assumption. rewrite IH by assumption.
    cbn. rewrite <- app_assoc. reflexivity.
Qed.

(** The round trip of a valid [Quadratic]. *)
Lemma Quadratic_parse_serialize q :
  Quadratic_valid q ->
  exists q', _InternalParse Quadratic_default_instance (_InternalSerialize q) = Some q' /\
             Quadratic_same q' q.
Proof.
  intros Hvalid. unfold _InternalParse. rewrite Quadratic_serialize_fields.
  rewrite ParseLoop_all_fields by (apply Quadratic_fields_ok, Hvalid).
  destruct Hvalid as (Hr & _ & Hc & _ & Hv & _ & Hl & Hu).
  assert (Hu' : Forall (fun f => Quadratic_recognized f = false) (_internal_metadata_ q)).
  { eapply Forall_impl; [exact Hu|]. intros f [_ H]. exact H. }
  destruct q as [h r c v p u]. unfold Quadratic_fields, Quadratic_same, has_linear in *.
  fold (test h 1) in *.
  cbn [_has_bits_ rows_ columns_ values_ linear_ Quadratic._internal_metadata_] in *.
  assert (E1 : forall this,
             feed table this
               (if decide (r = []) then []
                else [(1, LengthDelimited (WritePackedVarint r))]) =
             Some (with_rows (rows_ this ++ r) this)).
  { intros this. destruct (decide (r = [])) as [-> | _].
    - rewrite app_nil_r. destruct this; reflexivity.
    - cbn [feed fst snd table]. change (1 =? 1) with true. cbv iota.
      rewrite ReadPackedVarint_Write by assumption. reflexivity. }
  assert (E2 : forall this,
             feed table this
               (if decide (c = []) then []
                else [(2, LengthDelimited (WritePackedVarint c))]) =
             Some (with_columns (columns_ this ++ c) this)).
  { intros this. destruct (decide (c = [])) as [-> | _].
    - rewrite app_nil_r. destruct this; reflexivity.
    - cbn [feed fst snd table]. change (2 =? 1) with false.
      change (2 =? 2) with true. cbv iota.
      rewrite ReadPackedVarint_Write by assumption. reflexivity. }
  assert (E3 : forall this,
             feed table this
               (if decide (v = []) then []
                else [(3, LengthDelimited (WritePackedFixed64 v))]) =
             Some (with_values (values_ this ++ v) this)).
  { intros this. destruct (decide (v = [])) as [-> | _].
    - rewrite app_nil_r. destruct this; reflexivity.
    - cbn [feed fst snd table]. change (3 =? 1) with false.
      change (3 =? 2) with false. change (3 =? 3) with true. cbv iota.
      rewrite ReadPackedFixed64_Write by assumption. reflexivity. }
  destruct (test h 1) eqn:Eh.
  - destruct (Hl Eh) as (l & -> & Hlv & _).
    destruct (msg_parse_serialize l Hlv) as (l' & El & Hsame).
    eexists. split.
    + rewrite feed_app, E1, feed_app, E2, feed_app, E3, feed_app.
      cbn [feed fst snd table]. change (4 =? 1) with false.
      change (4 =? 2) with false. change (4 =? 3) with false.
      change (4 =? 4) with true. cbv iota.
      cbn [with_values with_columns with_rows linear_ Quadratic_default_instance
           get_or_new mbind option_bind].
      rewrite El. cbn [mbind option_bind].
      rewrite Quadratic_feed_unknown by assumption. reflexivity.
    + cbn. change (negb (Z.land h 1 =? 0)) with (test h 1). rewrite Eh.
      do 4 (split; [reflexivity|]). split; [|reflexivity].
      intros _. exists l', l. repeat split. exact Hsame.
  - eexists. split.
    + rewrite feed_app, E1, feed_app, E2, feed_app, E3, feed_app.
      cbn [feed]. rewrite Quadratic_feed_unknown by assumption. reflexivity.
    + cbn. change (negb (Z.land h 1 =? 0)) with (test h 1). rewrite Eh.
      do 4 (split; [reflexivity|]). split; [|reflexivity].
      intros; discriminate.
Qed.

(** Merging into a cleared [Quadratic] copies the source. *)
Lemma Quadratic_merge_clear (x y : Quadratic) :
  Quadratic_wf x -> Quadratic_wf y ->
  Quadratic_same (MergeImpl (Clear_ x) y) y.
Proof.
  unfold Quadratic_wf, Quadratic_same, has_linear.
  destruct x as [hx rx cx vx px ux], y as [hy ry cy vy py uy].
  cbn [_has_bits_ rows_ columns_ values_ linear_ Quadratic._internal_metadata_
       MergeImpl Clear_ app].
  fold (test hx 1) (test hy 1). intros Hx Hy.
  repeat split.
  intros Ey. rewrite Ey in *.
  destruct py as [|ly|]; [discriminate | | contradiction].
  destruct px as [|lx|]; [| |contradiction].
  - destruct (test hx 1); exists ly, ly; repeat split; apply msg_same_refl; assumption.
  - destruct (test hx 1).
    + eexists _, ly. repeat split. apply msg_merge_clear; assumption.
    + destruct Hx as (l' & Hl' & ->).
      eexists _, ly. repeat split. apply msg_merge_clear; assumption.
Qed.

Lemma Quadratic_same_refl q : Quadratic_wf q -> Quadratic_same q q.
Proof.
  unfold Quadratic_wf, Quadratic_same. intros H.
  do 4 (split; [reflexivity|]). split; [|reflexivity].
  intros E. rewrite E in H. destruct (linear_ q) as [|l|]; [discriminate | | contradiction].
  exists l, l. repeat split. apply msg_same_refl, H.
Qed.

(** [Quadratic] keeps the laws of a message class when [Linear] does. *)
Definition Quadratic_Laws : @MessageLaws Quadratic Quadratic_Message :=
  @Build_MessageLaws Quadratic Quadratic_Message
    Quadratic_wf Quadratic_valid Quadratic_same
    Quadratic_same_refl Quadratic_parse_serialize Quadratic_merge_clear.

End Quadratic_laws.

(** ** [Function]: the codec *)
Section Function_laws.
Import Wire Function.
Context {Linear Quadratic Polynomial : Type}.
Context `{!Message Linear, !Message Quadratic, !Message Polynomial}.
Context `{!MessageLaws Linear, !MessageLaws Quadratic, !MessageLaws Polynomial}.
Local Abbreviation Function := (Function.Function Linear Quadratic Polynomial).
Implicit Types f this : Function.

(** The serializer writes the canonical encoding of [Function_fields]. *)
Lemma Function_serialize_fields f :
  _InternalSerialize f = SerializeUnknownFields (Function_fields f).
Proof.
  unfold _InternalSerialize, Function_fields. rewrite have_unknown_fields_if.
  rewrite SerializeUnknownFields_app. f_equal.
  repeat (destruct (_ =? _); [match goal with |- context [match ?x with _ => _ end] => destruct x end; [symmetry; apply SerializeUnknownFields_one | reflexivity]|]).
  reflexivity.
Qed.

Lemma Function_table_unknown this u :
  Function_recognized u = false ->
  table this (fst u) (snd u) =
  Some (with_metadata (_internal_metadata_ this ++ [u]) this).
Proof.
  destruct u as [n w]. unfold Function_recognized, table. cbn [fst snd].
  destruct w; intros H; try reflexivity.
  - rewrite H. reflexivity.
  - destruct (n =? 2) eqn:E2; [lia|]. destruct (n =? 3) eqn:E3; [lia|].
    destruct (n =? 4) eqn:E4; [lia|]. reflexivity.
Qed.

Lemma Function_feed_unknown u : forall this,
  Forall (fun x => Function_recognized x = false) u ->
  feed table this u = Some (with_metadata (_internal_metadata_ this ++ u) this).
Proof.
  induction u as [|x u IH]; intros this H.
  - simpl. rewrite app_nil_r. destruct this; reflexivity.
  - apply Forall_cons in H as [Hf H]. cbn [feed].
    rewrite Function_table_unknown by assumption. rewrite IH by assumption.
    cbn. rewrite <- app_assoc. reflexivity.
Qed.

(** The round trip of a valid [Function]. *)
Lemma Function_parse_serialize f :
  Function_valid f ->
  exists f', _InternalParse Function_default_instance (_InternalSerialize f) = Some f' /\
             Function_same f' f.
Proof.
  intros [Hact Hu]. unfold _InternalParse. rewrite Function_serialize_fields.
  assert (Hu' : Forall (fun u => Function_recognized u = false) (_internal_metadata_ f)).
  { eapply Forall_impl; [exact Hu|]. intros u [_ H]. exact H. }
  assert (Hu'' : Forall field_ok (_internal_metadata_ f)).
  { eapply Forall_impl; [exact Hu|]. intros u [H _]. exact H. }
  assert (Hsmall : forall n, 1 <= n <= 4 -> 1 <= n < 2 ^ 29)
    by (intros; change (2 ^ 29) with 536870912; lia).
  destruct f as [un k u]. unfold Function_fields, Function_same, active in *.
  cbn [function_case _oneof_case_ function_ Function._internal_metadata_] in *.
  destruct Hact as [-> | Hact].
  { unfold FUNCTION_NOT_SET, kConstant, kLinear, kQuadratic, kPolynomial.
    cbn [Z.eqb Pos.eqb app].
    rewrite ParseLoop_all_fields by assumption.
    rewrite Function_feed_unknown by assumption.
    eexists; split; [reflexivity|]. cbn. repeat split. left. reflexivity. }
  destruct un as [ | v | [ | l | ] | [ | q | ] | [ | p | ]]; try contradiction;
    destruct Hact as [-> HP];
    unfold _internal_constant, _internal_linear, _internal_quadratic,
      _internal_polynomial, read_constant_, read_linear_, read_quadratic_,
      read_polynomial_, kConstant, kLinear, kQuadratic, kPolynomial;
    cbn [Z.eqb Pos.eqb app function_case _oneof_case_ function_ deref
         mbind option_bind].
  - rewrite ParseLoop_all_fields
      by (constructor; [split; [apply Hsmall; cbn; lia | exact HP] | assumption]).
    cbn. rewrite Function_feed_unknown by assumption.
    eexists; split; [reflexivity|]. cbn. repeat split. right. reflexivity.
  - destruct HP as [Hv Hf]. destruct (msg_parse_serialize _ Hv) as (l' & El & Hs).
    rewrite ParseLoop_all_fields
      by (constructor; [apply message_field_ok; [apply Hsmall; lia | exact Hf] | assumption]).
    cbn. rewrite El. cbn. rewrite Function_feed_unknown by assumption.
    eexists; split; [reflexivity|]. cbn. repeat split. right. exact Hs.
  - destruct HP as [Hv Hf]. destruct (msg_parse_serialize _ Hv) as (l' & El & Hs).
    rewrite ParseLoop_all_fields
      by (constructor; [apply message_field_ok; [apply Hsmall; lia | exact Hf] | assumption]).
    cbn. rewrite El. cbn. rewrite Function_feed_unknown by assumption.
    eexists; split; [reflexivity|]. cbn. repeat split. right. exact Hs.
  - destruct HP as [Hv Hf]. destruct (msg_parse_serialize _ Hv) as (l' & El & Hs).
    rewrite ParseLoop_all_fields
      by (constructor; [apply message_field_ok; [apply Hsmall; lia | exact Hf] | assumption]).
    cbn. rewrite El. cbn. rewrite Function_feed_unknown by assumption.
    eexists; split; [reflexivity|]. cbn. repeat split. right. exact Hs.
Qed.

(** Merging into a cleared [Function] copies the source. *)
Lemma Function_merge_clear (x y : Function) :
  Function_wf_all x -> Function_wf_all y ->
  Function_same (MergeImpl (Clear_ x) y) y.
Proof.
  intros Hx Hy. unfold Function_wf_all, Function_same, active in *.
  destruct y as [uy ky my]. cbn [function_case _oneof_case_ function_] in Hy.
  assert (Hc : function_case (Clear_ x) = FUNCTION_NOT_SET).
  { unfold Clear_, clear_function. destruct x as [ux kx mx]. cbn.
    repeat (destruct (_ =? _); [destruct ux as [ | ? | [ | ? | ] | [ | ? | ] | [ | ? | ]]; reflexivity|]).
    reflexivity. }
  assert (Hm : _internal_metadata_ (Clear_ x) = []) by reflexivity.
  destruct (Clear_ x) as [ux kx mx]. cbn in Hc, Hm. subst kx mx.
  destruct Hy as [-> | Hy].
  { cbn. repeat split. left. reflexivity. }
  destruct uy as [ | v | [ | l | ] | [ | q | ] | [ | p | ]]; try contradiction;
    destruct Hy as [-> HP]; cbn; repeat split; right;
    try reflexivity; apply msg_same_refl; exact HP.
Qed.

Lemma Function_same_refl f : Function_wf_all f -> Function_same f f.
Proof.
  unfold Function_wf_all, Function_same, active. intros H.
  split; [reflexivity|]. split; [|reflexivity].
  destruct H as [H | H]; [left; exact H | right].
  destruct (function_ f) as [ | v | [ | l | ] | [ | q | ] | [ | p | ]];
    try contradiction; try reflexivity; apply msg_same_refl, H.
Qed.

(** [Function] keeps the laws of a message class when the three classes
    it holds do. *)
Definition Function_Laws : @MessageLaws Function Function_Message :=
  @Build_MessageLaws Function Function_Message
    Function_wf_all Function_valid Function_same
    Function_same_refl Function_parse_serialize Function_merge_clear.

End Function_laws.

(** ** [Instance] *)
Section Instance_facts.
Import Wire Instance.
Context {DecisionVariable Constraint : Type}.
Context `{!Message DecisionVariable, !Message Constraint}.
Context {Linear Quadratic Polynomial : Type}.
Context `{!Message (Function.Function Linear Quadratic Polynomial)}.
Local Abbreviation Function := (Function.Function Linear Quadratic Polynomial).
Local Abbreviation Description := Instance_Description.Instance_Description.
Local Abbreviation Instance :=
  (Instance.Instance DecisionVariable Constraint Linear Quadratic Polynomial).
Implicit Types i x y this : Instance.

(** What [MergeImpl] leaves in each field of the destination. *)
Lemma MergeImpl_result x y :
  pointers_ok x -> pointers_ok y ->
  exists r, MergeFrom_ x y = Some r /\
    decision_variables_ r = decision_variables_ x ++ decision_variables_ y /\
    constraints_ r = constraints_ x ++ constraints_ y /\
    sense_ r = (if sense_ y =? 0 then sense_ x else sense_ y) /\
    _has_bits_ r = Z.lor (_has_bits_ x) (_has_bits_ y) /\
    _internal_metadata_ r = _internal_metadata_ x ++ _internal_metadata_ y /\
    description_ r =
      (if has_description y then
         match description_ x, description_ y with
         | live dx, live dy => live (Instance_Description.MergeFrom dx dy)
         | _, p => p
         end
       else description_ x) /\
    objective_ r =
      (if has_objective y then
         match objective_ x, objective_ y with
         | live fx, live fy => live (MergeFrom fx fy)
         | _, p => p
         end
       else objective_ x).
Proof.
  intros [Hdx Hox] [Hdy Hoy].
  destruct x as [hx vx cx dx ox sx ux], y as [hy vy cy dy oy sy uy].
  unfold MergeFrom_, MergeImpl, has_description, has_objective, _internal_sense in *.
  cbn [_has_bits_ decision_variables_ constraints_ description_ objective_
       sense_ Instance._internal_metadata_ _internal_decision_variables
       _internal_constraints with_decision_variables with_constraints] in *.
  assert (E3 : test hy 3 = false -> test hy 1 = false /\ test hy 2 = false).
  { unfold test. intros H.
    destruct (Z.land hy 3 =? 0) eqn:E; [|discriminate]. apply Z.eqb_eq in E.
    assert (H1 : Z.land hy 1 = 0).
    { change 1 with (Z.land 3 1). rewrite Z.land_assoc, E. reflexivity. }
    assert (H2 : Z.land hy 2 = 0).
    { change 2 with (Z.land 3 2). rewrite Z.land_assoc, E. reflexivity. }
    rewrite H1, H2. split; reflexivity. }
  destruct (test hy 3) eqn:Ehy.
  - destruct (test hy 1) eqn:E1, (test hy 2) eqn:E2;
      destruct dy as [|dy|]; try contradiction; try discriminate;
      destruct oy as [|oy|]; try contradiction; try discriminate;
      destruct dx as [|dx|]; try contradiction;
      destruct ox as [|ox|]; try contradiction;
      destruct (sy =? 0); cbn;
      rewrite ?Description_copy_eq;
      eexists; (split; [reflexivity|]); cbn; repeat split.
  - destruct (E3 eq_refl) as [-> ->].
    destruct (sy =? 0); eexists; (split; [reflexivity|]); cbn; repeat split.
Qed.

Lemma test_3_false h :
  test h 3 = false -> test h 1 = false /\ test h 2 = false.
Proof.
  unfold test. intros H.
  destruct (Z.land h 3 =? 0) eqn:E; [|discriminate]. apply Z.eqb_eq in E.
  assert (H1 : Z.land h 1 = 0).
  { change 1 with (Z.land 3 1). rewrite Z.land_assoc, E. reflexivity. }
  assert (H2 : Z.land h 2 = 0).
  { change 2 with (Z.land 3 2). rewrite Z.land_assoc, E. reflexivity. }
  rewrite H1, H2. split; reflexivity.
Qed.

(** *** Unknown fields and the open enum *)





Lemma test_lor h1 h2 m : test (Z.lor h1 h2) m = test h1 m || test h2 m.
Proof.
  unfold test. rewrite Z.land_lor_distr_l.
  destruct (Z.eqb_spec (Z.land h1 m) 0) as [E1|E1],
           (Z.eqb_spec (Z.land h2 m) 0) as [E2|E2]; cbn.
  1: rewrite E1, E2; reflexivity.
  all: apply negb_true_iff, Z.eqb_neq; intros H;
    apply Z.lor_eq_0_iff in H; tauto.
Qed.

(** Claim C10.  [Instance::MergeFrom] appends the source's decision
    variables and constraints to the destination's; a [description] or
    [objective] of the source is merged into the one the destination
    holds, and copied when the destination holds none; nothing happens to
    them when the source has none; [sense] is overwritten only when the
    source's sense is not zero.  The merged description is spelled out
    field by field: authors and unknown fields appended, each string of
    the source that is present in place of the destination's.  The merge
    of two objectives is [Function::MergeFrom], whose code is in
    function.pb.cc. *)
Theorem MergeFrom_semantics x y :
  pointers_ok x -> pointers_ok y ->
  exists r, MergeFrom_ x y = Some r /\
    decision_variables_ r = decision_variables_ x ++ decision_variables_ y /\
    constraints_ r = constraints_ x ++ constraints_ y /\
    (sense_ y = 0 -> sense_ r = sense_ x) /\
    (sense_ y <> 0 -> sense_ r = sense_ y) /\
    has_description r = has_description x || has_description y /\
    (has_description y = false -> description_ r = description_ x) /\
    (has_description y = true ->
     exists dy, description_ y = live dy /\
       match description_ x with
       | live dx =>
           exists dr, description_ r = live dr /\
             dr = Instance_Description.MergeFrom dx dy /\
             Instance_Description.authors_ dr =
               Instance_Description.authors_ dx ++
               Instance_Description.authors_ dy /\
             Instance_Description.name_ dr =
               (if Instance_Description.has_name dy
                then Instance_Description.name_ dy
                else Instance_Description.name_ dx) /\
             Instance_Description.description_ dr =
               (if Instance_Description.has_description dy
                then Instance_Description.description_ dy
                else Instance_Description.description_ dx) /\
             Instance_Description.created_by_ dr =
               (if Instance_Description.has_created_by dy
                then Instance_Description.created_by_ dy
                else Instance_Description.created_by_ dx) /\
             Instance_Description.has_name dr =
               Instance_Description.has_name dx ||
               Instance_Description.has_name dy /\
             Instance_Description.has_description dr =
               Instance_Description.has_description dx ||
               Instance_Description.has_description dy /\
             Instance_Description.has_created_by dr =
               Instance_Description.has_created_by dx ||
               Instance_Description.has_created_by dy /\
             Instance_Description._internal_metadata_ dr =
               Instance_Description._internal_metadata_ dx ++
               Instance_Description._internal_metadata_ dy
       | _ => description_ r = live dy
       end) /\
    has_objective r = has_objective x || has_objective y /\
    (has_objective y = false -> objective_ r = objective_ x) /\
    (has_objective y = true ->
     exists fy, objective_ y = live fy /\
       match objective_ x with
       | live fx => objective_ r = live (MergeFrom fx fy)
       | _ => objective_ r = live fy
       end) /\
    _internal_metadata_ r = _internal_metadata_ x ++ _internal_metadata_ y.
Proof.
  intros Hx Hy.
  destruct (MergeImpl_result x y Hx Hy)
    as (r & E & Hv & Hc & Hs & Hh & Hu & Hd & Ho).
  exists r. split; [exact E|]. split; [exact Hv|]. split; [exact Hc|].
  split; [intros H0; rewrite Hs, H0; reflexivity|].
  split; [intros H0; rewrite Hs; apply Z.eqb_neq in H0; rewrite H0; reflexivity|].
  destruct Hy as [Hdy Hoy].
  split; [unfold has_description; rewrite Hh; apply test_lor|].
  split; [intros H0; rewrite Hd, H0; reflexivity|].
  split.
  { intros H0. rewrite H0 in Hd.
    destruct (description_ y) as [|dy|]; [congruence| |contradiction].
    exists dy. split; [reflexivity|].
    destruct (description_ x) as [|dx|]; [exact Hd| |exact Hd].
    exists (Instance_Description.MergeFrom dx dy).
    split; [exact Hd|]. split; [reflexivity|].
    clear Hd. destruct dx as [h0 a0 n0 d0 c0 u0], dy as [h a n de c u].
    unfold Instance_Description.MergeFrom, Instance_Description.MergeImpl,
      Instance_Description.has_name, Instance_Description.has_description,
      Instance_Description.has_created_by,
      Instance_Description._internal_set_name,
      Instance_Description._internal_set_description,
      Instance_Description._internal_set_created_by,
      Instance_Description._internal_name,
      Instance_Description._internal_description,
      Instance_Description._internal_created_by,
      Instance_Description._internal_authors.
    cbn [Instance_Description._has_bits_ Instance_Description.authors_
         Instance_Description.name_ Instance_Description.description_
         Instance_Description.created_by_
         Instance_Description._internal_metadata_].
    pose proof (lor_set_bit h0 h 0 ltac:(lia)) as L1.
    pose proof (fun z : Z => lor_set_bit z h 1 ltac:(lia)) as L2.
    pose proof (fun z : Z => lor_set_bit z h 2 ltac:(lia)) as L4.
    change (2 ^ 0) with 1 in L1. change (2 ^ 1) with 2 in L2.
    change (2 ^ 2) with 4 in L4.
    destruct (test h 7) eqn:E7.
    - destruct (test h 1) eqn:E1, (test h 2) eqn:E2, (test h 4) eqn:E4;
        cbv [Instance_Description.with_name
             Instance_Description.with_description
             Instance_Description.with_created_by
             Instance_Description.with_has_bits
             Instance_Description.with_authors
             Instance_Description.with_metadata
             Instance_Description._has_bits_ Instance_Description.name_
             Instance_Description.description_
             Instance_Description.created_by_ Instance_Description.authors_
             Instance_Description._internal_metadata_];
        repeat first [rewrite L4 by reflexivity | rewrite L2 by reflexivity
                     | rewrite L1 by reflexivity];
        rewrite !test_lor, ?E1, ?E2, ?E4, ?orb_true_r, ?orb_false_r;
        repeat (split; [reflexivity|]); reflexivity.
    - rewrite (test_mask_false h 7 1 E7), (test_mask_false h 7 2 E7),
        (test_mask_false h 7 4 E7) by reflexivity.
      cbn [Instance_Description.with_has_bits Instance_Description.with_authors
           Instance_Description.with_metadata
           Instance_Description._has_bits_ Instance_Description.name_
           Instance_Description.description_
           Instance_Description.created_by_ Instance_Description.authors_
           Instance_Description._internal_metadata_].
      rewrite !test_lor, (test_mask_false h 7 1 E7), (test_mask_false h 7 2 E7),
        (test_mask_false h 7 4 E7), ?orb_false_r by reflexivity.
      repeat (split; [reflexivity|]); reflexivity. }
  split; [unfold has_objective; rewrite Hh; apply test_lor|].
  split; [intros H0; rewrite Ho, H0; reflexivity|].
  split; [|exact Hu].
  intros H0. rewrite H0 in Ho.
  destruct (objective_ y) as [|fy|]; [congruence| |contradiction].
  exists fy. split; [reflexivity|].
  destruct (objective_ x); exact Ho.
Qed.



(** An [int] sign-extended to 64 bits and cut back to 32 is the [int]. *)
Lemma to_int32_mod v : int32_ok v -> to_int32 (v mod 2 ^ 64) = v.
Proof.
  unfold int32_ok, to_int32. intros Hv.
  change (2 ^ 64) with 18446744073709551616.
  change (2 ^ 32) with 4294967296. change (2 ^ 31) with 2147483648 in *.
  destruct (_ <? _) eqn:E; [apply Z.ltb_lt in E | apply Z.ltb_ge in E];
    Z.div_mod_to_equations; lia.
Qed.

(** Claim C5.  [sense] is an open enum: a value outside the three named
    ones is accepted by the parser, kept as the raw integer and written
    back as it came; [Instance_Sense_IsValid] alone tells the named values
    from the others. *)
Theorem sense_is_an_open_enum :
  (forall v, Instance_Sense_IsValid v = true <-> 0 <= v <= 2) /\
  (forall (this : Instance) raw,
     table this 5 (Varint raw) = Some (with_sense (to_int32 raw) this)) /\
  (forall v, int32_ok v -> v <> 0 ->
     exists i : Instance,
       _InternalParse Instance_default_instance (WriteEnumToArray 5 v) = Some i /\
       sense_ i = v /\
       _InternalSerialize i = Some (WriteEnumToArray 5 v)) /\
  WriteEnumToArray 5 3 = bytes [40; 3] /\
  Instance_Sense_IsValid 3 = false.
Proof.
  split; [|split; [|split; [|split]]]; try reflexivity.
  - intros v. unfold Instance_Sense_IsValid. rewrite andb_true_iff. lia.
  - intros v Hv Hnz.
    exists (with_sense v Instance_default_instance). split; [|split].
    + unfold _InternalParse, WriteEnumToArray.
      rewrite <- SerializeUnknownFields_one.
      rewrite ParseLoop_all_fields.
      * cbn [feed fst snd table]. change (5 =? 5) with true. cbv iota.
        rewrite to_int32_mod by exact Hv. reflexivity.
      * constructor; [|constructor]. split; cbn.
        -- change (2 ^ 29) with 536870912. lia.
        -- apply Z.mod_pos_bound. reflexivity.
    + reflexivity.
    + unfold _InternalSerialize, _internal_sense. cbn.
      apply Z.eqb_neq in Hnz. rewrite Hnz. cbn. rewrite app_nil_r. reflexivity.
Qed.

Context `{!MessageLaws DecisionVariable, !MessageLaws Constraint}.
Context `{!MessageLaws Function}.

Lemma Forall2_same_refl {T} `{MessageLaws T} (l : list T) :
  Forall msg_wf l -> Forall2 msg_same l l.
Proof.
  induction 1 as [|x l Hx _ IH]; constructor; [apply msg_same_refl, Hx | exact IH].
Qed.

Lemma test_lor_0 h m : test (Z.lor 0 h) m = test h m.
Proof. reflexivity. Qed.

Lemma wf_pointers_ok i : Instance_wf i -> pointers_ok i.
Proof.
  intros (Hd & Ho & _). split.
  - destruct (description_ i); [assumption | exact I | contradiction].
  - destruct (objective_ i); [assumption | exact I | contradiction].
Qed.

(** [Clear] succeeds on a well-formed instance and leaves an empty one,
    whose submessages, if kept, are cleared. *)
Lemma Clear_spec x :
  Instance_wf x ->
  exists x1, Clear_ x = Some x1 /\
    _has_bits_ x1 = 0 /\ decision_variables_ x1 = [] /\
    constraints_ x1 = [] /\ sense_ x1 = 0 /\ _internal_metadata_ x1 = [] /\
    (description_ x1 = null \/
     description_ x1 =
       live Instance_Description.Instance_Description_default_instance) /\
    (objective_ x1 = null \/
     exists f', msg_wf f' /\ objective_ x1 = live (Clear f')).
Proof.
  intros (Hdx & Hox & _ & _).
  destruct x as [hx vx cx dx ox sx ux].
  unfold Clear_, has_description, has_objective in *.
  cbn [_has_bits_ decision_variables_ constraints_ description_ objective_
       sense_ Instance._internal_metadata_ with_decision_variables
       with_constraints] in *.
  destruct (test hx 3) eqn:E3.
  - destruct (test hx 1) eqn:E1, (test hx 2) eqn:E2;
      destruct dx as [|dx|]; try contradiction; try discriminate;
      destruct ox as [|ox|]; try contradiction; try discriminate; cbn;
      rewrite ?Description_Clear_default by assumption;
      (eexists; split; [reflexivity|]); cbn; subst;
      repeat (split; [reflexivity|]); split; eauto.
    all: destruct Hox as (f' & Hf' & ->); eauto.
  - destruct (test_3_false hx E3) as [E1 E2]. rewrite E1, E2 in *.
    destruct dx as [|dx|]; try contradiction;
      destruct ox as [|ox|]; try contradiction; cbn;
      (eexists; split; [reflexivity|]); cbn; subst;
      repeat (split; [reflexivity|]); split; eauto.
    all: destruct Hox as (f' & Hf' & ->); eauto.
Qed.

(** Merging into a cleared instance copies the source. *)
Lemma Clear_then_MergeFrom x y :
  Instance_wf x -> Instance_wf y ->
  exists x1 x2, Clear_ x = Some x1 /\ MergeFrom_ x1 y = Some x2 /\
                Instance_same x2 y.
Proof.
  intros Hx Hy.
  destruct (Clear_spec x Hx) as (x1 & E1 & Hh & Hv & Hc & Hs & Hu & Hd & Ho).
  assert (Hp1 : pointers_ok x1).
  { split.
    - destruct Hd as [-> | ->]; [|exact I].
      unfold has_description. rewrite Hh. reflexivity.
    - destruct Ho as [-> | (f' & _ & ->)]; [|exact I].
      unfold has_objective. rewrite Hh. reflexivity. }
  destruct (MergeImpl_result x1 y Hp1 (wf_pointers_ok y Hy))
    as (r & Er & Rv & Rc & Rs & Rh & Ru & Rd & Ro).
  exists x1, r. split; [exact E1|]. split; [exact Er|].
  destruct Hy as (Hdy & Hoy & Hvy & Hcy).
  unfold Instance_same, has_description, has_objective in *.
  rewrite Rv, Rc, Rs, Rh, Ru, Rd, Ro, Hh, Hv, Hc, Hs, Hu. cbn [app].
  change (Z.lor 0 (_has_bits_ y)) with (_has_bits_ y).
  split; [reflexivity|]. split.
  { intros E. rewrite E in *.
    destruct (description_ y) as [|dy|]; [discriminate | | contradiction].
    exists dy. split; [|reflexivity].
    destruct Hd as [-> | ->]; [reflexivity|].
    rewrite Description_MergeFrom_default by assumption. reflexivity. }
  split; [reflexivity|]. split.
  { intros E. rewrite E in *.
    destruct (objective_ y) as [|fy|]; [discriminate | | contradiction].
    destruct Ho as [-> | (f' & Hf' & ->)].
    - exists fy, fy. repeat split. apply msg_same_refl, Hoy.
    - eexists _, fy. repeat split. apply msg_merge_clear; assumption. }
  split; [apply Forall2_same_refl, Hvy|].
  split; [apply Forall2_same_refl, Hcy|].
  split; [|reflexivity].
  destruct (sense_ y =? 0) eqn:E; [apply Z.eqb_eq in E; congruence | reflexivity].
Qed.

(** [CopyFrom] on the store: nothing on the object itself, otherwise
    [Clear] then [MergeFrom]. *)
Lemma Instance_CopyFrom_result (heap : gmap address Instance) (this from : address) x y :
  heap !! this = Some x -> heap !! from = Some y ->
  Instance_wf x -> Instance_wf y ->
  exists heap', CopyFrom heap this from = Some heap' /\
    (from = this -> heap' = heap) /\
    (from <> this ->
     exists x1 x2, Clear_ x = Some x1 /\ MergeFrom_ x1 y = Some x2 /\
       heap' = <[this := x2]> heap /\ Instance_same x2 y /\
       heap' !! from = Some y).
Proof.
  intros Hx Hy Wx Wy. unfold CopyFrom.
  destruct (decide (from = this)) as [-> | Hne].
  - exists heap. split; [reflexivity|]. split; [reflexivity | congruence].
  - destruct (Clear_then_MergeFrom x y Wx Wy) as (x1 & x2 & E1 & E2 & Hsame).
    exists (<[this := x2]> heap). split.
    { rewrite Hx, Hy. cbn. rewrite E1. cbn. rewrite E2. reflexivity. }
    split; [congruence|].
    intros _. exists x1, x2.
    split; [exact E1|]. split; [exact E2|]. split; [reflexivity|].
    split; [exact Hsame|].
    rewrite lookup_insert_ne by congruence. exact Hy.
Qed.

(** Claim C9.  [CopyFrom] on the object itself changes nothing; on another
    object it is [Clear] followed by [MergeFrom], the source is left as it
    was, and the destination ends up equal to the source: field for field
    for an [Instance], identical for an [Instance_Description]. *)
Theorem CopyFrom_overwrites :
  (forall (heap : gmap address Instance) (this from : address) x y,
     heap !! this = Some x -> heap !! from = Some y ->
     Instance_wf x -> Instance_wf y ->
     exists heap', CopyFrom heap this from = Some heap' /\
       (from = this -> heap' = heap) /\
       (from <> this ->
        exists x1 x2, Clear_ x = Some x1 /\ MergeFrom_ x1 y = Some x2 /\
          heap' = <[this := x2]> heap /\ Instance_same x2 y /\
          heap' !! from = Some y)) /\
  (forall (heap : gmap address Description) (this from : address) dx dy,
     heap !! this = Some dx -> heap !! from = Some dy ->
     Description_wf dx -> Description_wf dy ->
     exists heap', Instance_Description.CopyFrom heap this from = Some heap' /\
       (from = this -> heap' = heap) /\
       (from <> this ->
        heap' = <[this := Instance_Description.MergeFrom
                            (Instance_Description.Clear dx) dy]> heap /\
        heap' !! this = Some dy /\ heap' !! from = Some dy)).
Proof.
  split.
  - intros heap this from x y. apply Instance_CopyFrom_result.
  - intros heap this from dx dy Hx Hy Wx Wy. unfold Instance_Description.CopyFrom.
    destruct (decide (from = this)) as [-> | Hne].
    + exists heap. split; [reflexivity|]. split; [reflexivity | congruence].
    + rewrite Hx, Hy. cbn. eexists. split; [reflexivity|].
      split; [congruence|]. intros _. split; [reflexivity|].
      rewrite Description_merge_clear by assumption.
      split; [apply lookup_insert_eq|].
      rewrite lookup_insert_ne by congruence. exact Hy.
Qed.

Lemma SerializeUnknownFields_map {T} n (g : T -> list byte) (l : list T) :
  SerializeUnknownFields (map (fun v => (n, LengthDelimited (g v))) l) =
  concat (map (fun v => InternalWriteMessage n (g v)) l).
Proof. unfold SerializeUnknownFields. rewrite map_map. reflexivity. Qed.

(** The serializer writes the canonical encoding of [Instance_fields]. *)
Lemma Instance_serialize_fields i :
  _InternalSerialize i = SerializeUnknownFields <$> Instance_fields i.
Proof.
  unfold _InternalSerialize, Instance_fields, _internal_decision_variables,
    _internal_constraints, _internal_sense.
  rewrite have_unknown_fields_if.
  destruct (test (_has_bits_ i) 1); [destruct (deref (description_ i)); [|reflexivity]|];
    (destruct (test (_has_bits_ i) 2); [destruct (deref (objective_ i)); [|reflexivity]|]);
    cbn [mbind option_bind fmap option_fmap option_map];
    rewrite !SerializeUnknownFields_app, !SerializeUnknownFields_map,
      ?SerializeUnknownFields_one, SerializeUnknownFields_if; reflexivity.
Qed.

Lemma Instance_table_unknown this u :
  Instance_recognized u = false ->
  table this (fst u) (snd u) =
  Some (with_metadata (_internal_metadata_ this ++ [u]) this).
Proof.
  destruct u as [n w]. unfold Instance_recognized, table. cbn [fst snd].
  destruct w; intros H; try reflexivity.
  - rewrite H. reflexivity.
  - destruct (n =? 1) eqn:E1; [lia|]. destruct (n =? 2) eqn:E2; [lia|].
    destruct (n =? 3) eqn:E3; [lia|]. destruct (n =? 4) eqn:E4; [lia|].
    reflexivity.
Qed.

Lemma Instance_feed_unknown u : forall this,
  Forall (fun e => Instance_recognized e = false) u ->
  feed table this u = Some (with_metadata (_internal_metadata_ this ++ u) this).
Proof.
  induction u as [|e u IH]; intros this H.
  - simpl. rewrite app_nil_r. destruct this; reflexivity.
  - apply Forall_cons in H as [Hf H]. cbn [feed].
    rewrite Instance_table_unknown by assumption. rewrite IH by assumption.
    cbn. rewrite <- app_assoc. reflexivity.
Qed.

Lemma feed_decision_variables (l : list DecisionVariable) :
  Forall (fun v => msg_valid v /\ fits (InternalSerialize v)) l ->
  exists l', Forall2 msg_same l' l /\
    forall this rest,
      feed table this
        (map (fun v => (2, LengthDelimited (InternalSerialize v))) l ++ rest) =
      feed table
        (with_decision_variables (decision_variables_ this ++ l') this) rest.
Proof.
  induction 1 as [|v l [Hv _] _ (l' & Hl' & IH)].
  - exists []. split; [constructor|]. intros this rest.
    cbn [map app]. rewrite app_nil_r. destruct this; reflexivity.
  - destruct (msg_parse_serialize v Hv) as (v' & Ev & Hs).
    exists (v' :: l'). split; [constructor; assumption|].
    intros this rest. cbn [map app feed fst snd table].
    change (2 =? 1) with false. change (2 =? 2) with true. cbv iota.
    rewrite Ev. cbn [mbind option_bind]. rewrite IH.
    cbn. rewrite <- app_assoc. reflexivity.
Qed.

Lemma feed_constraints (l : list Constraint) :
  Forall (fun v => msg_valid v /\ fits (InternalSerialize v)) l ->
  exists l', Forall2 msg_same l' l /\
    forall this rest,
      feed table this
        (map (fun v => (4, LengthDelimited (InternalSerialize v))) l ++ rest) =
      feed table (with_constraints (constraints_ this ++ l') this) rest.
Proof.
  induction 1 as [|v l [Hv _] _ (l' & Hl' & IH)].
  - exists []. split; [constructor|]. intros this rest.
    cbn [map app]. rewrite app_nil_r. destruct this; reflexivity.
  - destruct (msg_parse_serialize v Hv) as (v' & Ev & Hs).
    exists (v' :: l'). split; [constructor; assumption|].
    intros this rest. cbn [map app feed fst snd table].
    change (4 =? 1) with false. change (4 =? 2) with false.
    change (4 =? 3) with false. change (4 =? 4) with true. cbv iota.
    rewrite Ev. cbn [mbind option_bind]. rewrite IH.
    cbn. rewrite <- app_assoc. reflexivity.
Qed.

Lemma feed_description this d rest :
  description_ this = null -> Description_valid d ->
  feed table this
    ((1, LengthDelimited (Instance_Description._InternalSerialize d)) :: rest) =
  feed table
    (with_description (live d) (with_has_bits (Z.lor (_has_bits_ this) 1) this))
    rest.
Proof.
  intros Hnull Hd. cbn [feed fst snd table]. change (1 =? 1) with true. cbv iota.
  rewrite Hnull. cbn [get_or_new mbind option_bind].
  rewrite Description_parse_serialize by exact Hd. reflexivity.
Qed.

Lemma feed_objective (f : Function) :
  msg_valid f ->
  exists f', msg_same f' f /\
    forall this rest, objective_ this = null ->
      feed table this ((3, LengthDelimited (InternalSerialize f)) :: rest) =
      feed table
        (with_objective (live f') (with_has_bits (Z.lor (_has_bits_ this) 2) this))
        rest.
Proof.
  intros Hf. destruct (msg_parse_serialize f Hf) as (f' & Ef & Hs).
  exists f'. split; [exact Hs|]. intros this rest Hnull.
  cbn [feed fst snd table]. change (3 =? 1) with false.
  change (3 =? 2) with false. change (3 =? 3) with true. cbv iota.
  rewrite Hnull. cbn [get_or_new mbind option_bind].
  rewrite Ef. reflexivity.
Qed.

Lemma feed_sense this s rest :
  int32_ok s ->
  feed table this ((5, Varint (s mod 2 ^ 64)) :: rest) =
  feed table (with_sense s this) rest.
Proof.
  intros Hs. cbn [feed fst snd table]. change (5 =? 5) with true. cbv iota.
  rewrite to_int32_mod by exact Hs. reflexivity.
Qed.

Lemma small_field_number n : 1 <= n <= 5 -> 1 <= n < 2 ^ 29.
Proof. change (2 ^ 29) with 536870912. lia. Qed.

Lemma children_fields_ok {T} `{MessageLaws T} n (l : list T) :
  1 <= n <= 5 ->
  Forall (fun v => msg_valid v /\ fits (InternalSerialize v)) l ->
  Forall field_ok (map (fun v => (n, LengthDelimited (InternalSerialize v))) l).
Proof.
  intros Hn Hl. apply Forall_map. eapply Forall_impl; [exact Hl|].
  intros v [_ Hv]. apply message_field_ok; [apply small_field_number, Hn | exact Hv].
Qed.

(** The round trip of a valid [Instance]. *)
Lemma Instance_parse_serialize i :
  Instance_valid i ->
  exists bs i', _InternalSerialize i = Some bs /\
    _InternalParse Instance_default_instance bs = Some i' /\
    Instance_same i' i.
Proof.
  intros (Hd & Ho & Hv & Hc & Hs & Hu).
  assert (Hu1 : Forall field_ok (_internal_metadata_ i))
    by (eapply Forall_impl; [exact Hu|]; intros e [H _]; exact H).
  assert (Hu2 : Forall (fun e => Instance_recognized e = false) (_internal_metadata_ i))
    by (eapply Forall_impl; [exact Hu|]; intros e [_ H]; exact H).
  destruct (feed_decision_variables _ Hv) as (lv & Hlv & Ev).
  destruct (feed_constraints _ Hc) as (lc & Hlc & Ec).
  pose proof (children_fields_ok 2 _ ltac:(lia) Hv) as Fv.
  pose proof (children_fields_ok 4 _ ltac:(lia) Hc) as Fc.
  assert (F5 : Forall field_ok
                 (if negb (sense_ i =? 0)
                  then [(5, Varint (sense_ i mod 2 ^ 64))] else [])).
  { destruct (negb _); [|constructor]. constructor; [|constructor].
    split; [apply small_field_number; cbn; lia|].
    cbn. apply Z.mod_pos_bound. lia. }
  assert (E5 : forall this rest,
             feed table this
               ((if negb (sense_ i =? 0)
                 then [(5, Varint (sense_ i mod 2 ^ 64))] else []) ++ rest) =
             feed table
               (if negb (sense_ i =? 0) then with_sense (sense_ i) this else this)
               rest).
  { intros this rest. destruct (negb _); [|reflexivity].
    apply feed_sense, Hs. }
  rewrite Instance_serialize_fields. unfold _InternalParse, Instance_same.
  unfold has_description, has_objective in *.
  destruct i as [h vs cs dp op s u]. unfold Instance_fields.
  cbn [_has_bits_ decision_variables_ constraints_ description_ objective_
       sense_ Instance._internal_metadata_] in *.
  assert (Hsense : (if negb (s =? 0) then s else 0) = s).
  { destruct (s =? 0) eqn:E; [apply Z.eqb_eq in E; subst|]; reflexivity. }
  destruct (test h 1) eqn:E1.
  - destruct (Hd eq_refl) as (d & -> & Hdv & Hdf).
    destruct (test h 2) eqn:E2.
    + destruct (Ho eq_refl) as (f & -> & Hfv & Hff).
      destruct (feed_objective f Hfv) as (f' & Hsf & Ef).
      cbn [deref mbind option_bind fmap option_fmap option_map].
      eexists _, _. split; [reflexivity|]. split.
      * rewrite ParseLoop_all_fields.
        2:{ repeat apply Forall_app_2; try assumption;
            (constructor; [|constructor]);
            (apply message_field_ok; [apply small_field_number; lia | assumption]). }
        cbn [app]. rewrite feed_description by (reflexivity || assumption).
        rewrite Ev, Ef by reflexivity. rewrite Ec, E5.
        rewrite Instance_feed_unknown by assumption. reflexivity.
      * destruct (negb (s =? 0)); cbn -[test]; rewrite ?E1, ?E2.
        all: split; [reflexivity|]; split; [intros _; exists d; split; reflexivity|].
        all: split; [reflexivity|]; split; [intros _; exists f', f; repeat split; exact Hsf|].
        all: split; [exact Hlv|]; split; [exact Hlc|]; split; [|reflexivity].
        all: cbn in Hsense; congruence.
    + cbn [deref mbind option_bind fmap option_fmap option_map].
      eexists _, _. split; [reflexivity|]. split.
      * rewrite ParseLoop_all_fields.
        2:{ repeat apply Forall_app_2; try assumption; try constructor;
            try constructor;
            (apply message_field_ok; [apply small_field_number; lia | assumption]). }
        cbn [app]. rewrite feed_description by (reflexivity || assumption).
        rewrite Ev. cbn [app]. rewrite Ec, E5.
        rewrite Instance_feed_unknown by assumption. reflexivity.
      * destruct (negb (s =? 0)); cbn -[test]; rewrite ?E1, ?E2.
        all: split; [reflexivity|]; split; [intros _; exists d; split; reflexivity|].
        all: split; [reflexivity|]; split; [discriminate|].
        all: split; [exact Hlv|]; split; [exact Hlc|]; split; [|reflexivity].
        all: cbn in Hsense; congruence.
  - destruct (test h 2) eqn:E2.
    + destruct (Ho eq_refl) as (f & -> & Hfv & Hff).
      destruct (feed_objective f Hfv) as (f' & Hsf & Ef).
      cbn [deref mbind option_bind fmap option_fmap option_map].
      eexists _, _. split; [reflexivity|]. split.
      * rewrite ParseLoop_all_fields.
        2:{ repeat apply Forall_app_2; try assumption; try constructor;
            try constructor;
            (apply message_field_ok; [apply small_field_number; lia | assumption]). }
        cbn [app]. rewrite Ev, Ef by reflexivity. rewrite Ec, E5.
        rewrite Instance_feed_unknown by assumption. reflexivity.
      * destruct (negb (s =? 0)); cbn -[test]; rewrite ?E1, ?E2.
        all: split; [reflexivity|]; split; [discriminate|].
        all: split; [reflexivity|]; split; [intros _; exists f', f; repeat split; exact Hsf|].
        all: split; [exact Hlv|]; split; [exact Hlc|]; split; [|reflexivity].
        all: cbn in Hsense; congruence.
    + cbn [deref mbind option_bind fmap option_fmap option_map].
      eexists _, _. split; [reflexivity|]. split.
      * rewrite ParseLoop_all_fields.
        2:{ repeat apply Forall_app_2; try assumption; constructor. }
        cbn [app]. rewrite Ev. cbn [app]. rewrite Ec, E5.
        rewrite Instance_feed_unknown by assumption. reflexivity.
      * destruct (negb (s =? 0)); cbn -[test]; rewrite ?E1, ?E2.
        all: split; [reflexivity|]; split; [discriminate|].
        all: split; [reflexivity|]; split; [discriminate|].
        all: split; [exact Hlv|]; split; [exact Hlc|]; split; [|reflexivity].
        all: cbn in Hsense; congruence.
Qed.

End Instance_facts.

(** ** The four messages together *)
Section Round_trip.
Context {DecisionVariable Constraint Linear Polynomial : Type}.
Context `{!Message DecisionVariable, !Message Constraint}.
Context `{!Message Linear, !Message Polynomial}.
Context `{!MessageLaws DecisionVariable, !MessageLaws Constraint}.
Context `{!MessageLaws Linear, !MessageLaws Polynomial}.
Local Existing Instance Quadratic.Quadratic_Message.
Local Existing Instance Function.Function_Message.
Local Existing Instance Quadratic_Laws.
Local Existing Instance Function_Laws.
Local Abbreviation Description := Instance_Description.Instance_Description.
Local Abbreviation Quadratic := (Quadratic.Quadratic Linear).
Local Abbreviation Function := (Function.Function Linear Quadratic Polynomial).
Local Abbreviation Instance :=
  (Instance.Instance DecisionVariable Constraint Linear Quadratic Polynomial).

(** Claim C1, as the code has it.  Decoding the encoding of a message gives
    the message back when the message is one the wire can carry: its
    strings are valid UTF-8, its unknown fields are not fields of the
    schema, every payload fits a length prefix.  A description comes back
    identical, so that a string that is absent, one that is present and
    empty, and one that is present with a value stay three different
    states; a [Quadratic], a [Function] and an [Instance] come back equal
    field for field. *)
Theorem round_trip_of_valid_messages :
  (forall d : Description, Description_valid d ->
     Instance_Description._InternalParse
       Instance_Description.Instance_Description_default_instance
       (Instance_Description._InternalSerialize d) = Some d) /\
  (forall s, string_ok s ->
     let absent := Instance_Description.Instance_Description_default_instance in
     let empty := Instance_Description._internal_set_name [] absent in
     let value := Instance_Description._internal_set_name s absent in
     Description_valid absent /\ Description_valid empty /\
     Description_valid value /\
     Instance_Description.has_name absent = false /\
     Instance_Description.has_name empty = true /\
     Instance_Description._internal_name empty = [] /\
     Instance_Description.has_name value = true /\
     Instance_Description._internal_name value = s /\
     absent <> empty) /\
  (forall q : Quadratic, Quadratic_valid q ->
     exists q',
       Quadratic._InternalParse Quadratic.Quadratic_default_instance
         (Quadratic._InternalSerialize q) = Some q' /\
       Quadratic_same q' q) /\
  (forall f : Function, Function_valid f ->
     exists f',
       Function._InternalParse Function.Function_default_instance
         (Function._InternalSerialize f) = Some f' /\
       Function_same f' f) /\
  (forall i : Instance, Instance_valid i ->
     exists bs i',
       Instance._InternalSerialize i = Some bs /\
       Instance._InternalParse Instance.Instance_default_instance bs = Some i' /\
       Instance_same i' i).
Proof.
  split; [exact Description_parse_serialize|].
  split; [|split; [exact Quadratic_parse_serialize|
           split; [exact Function_parse_serialize|
                   exact Instance_parse_serialize]]].
  intros s Hs absent empty value.
  assert (Hnil : string_ok []) by (split; [reflexivity | unfold fits, Wire.kMaxSize; simpl; lia]).
  assert (Hwf : forall (b : bool) (n : list byte), Description_wf
            {| Instance_Description._has_bits_ := if b then 1 else 0;
               Instance_Description.authors_ := [];
               Instance_Description.name_ := if b then n else [];
               Instance_Description.description_ := [];
               Instance_Description.created_by_ := [];
               Instance_Description._internal_metadata_ := [] |}).
  { intros b n. unfold Description_wf. cbn.
    destruct b; (split; [lia|]); (split; [|split]); intros H;
      reflexivity || discriminate H. }
  split; [split; [exact (Hwf false []) | repeat (split; [exact Hnil|]);
                  split; constructor]|].
  split; [split; [exact (Hwf true []) | repeat (split; [exact Hnil|]);
                  split; constructor]|].
  split; [split; [exact (Hwf true s) |
                  split; [exact Hs | repeat (split; [exact Hnil|]);
                  split; constructor]]|].
  do 5 (split; [reflexivity|]). discriminate.
Qed.

(** Claim C6.  Nothing ties the three index arrays of a [Quadratic]
    together: each [add_...] touches its own array only, arrays of
    different lengths are written and read back as they are, and
    [IsInitialized] answers [true] whatever the message holds. *)
Theorem no_structural_validation :
  (forall (q : Quadratic) v,
     (Quadratic.rows_ (Quadratic.add_rows v q) = Quadratic.rows_ q ++ [v] /\
      Quadratic.columns_ (Quadratic.add_rows v q) = Quadratic.columns_ q /\
      Quadratic.values_ (Quadratic.add_rows v q) = Quadratic.values_ q) /\
     (Quadratic.columns_ (Quadratic.add_columns v q) = Quadratic.columns_ q ++ [v] /\
      Quadratic.rows_ (Quadratic.add_columns v q) = Quadratic.rows_ q /\
      Quadratic.values_ (Quadratic.add_columns v q) = Quadratic.values_ q) /\
     (Quadratic.values_ (Quadratic.add_values v q) = Quadratic.values_ q ++ [v] /\
      Quadratic.rows_ (Quadratic.add_values v q) = Quadratic.rows_ q /\
      Quadratic.columns_ (Quadratic.add_values v q) = Quadratic.columns_ q)) /\
  (let q : Quadratic :=
     Quadratic.add_values 4607182418800017408
       (Quadratic.add_rows 1
          (Quadratic.add_rows 2 Quadratic.Quadratic_default_instance)) in
   Quadratic.constructible q /\
   length (Quadratic.rows_ q) = 2%nat /\
   length (Quadratic.columns_ q) = 0%nat /\
   length (Quadratic.values_ q) = 1%nat /\
   Quadratic._InternalSerialize q =
     bytes [10; 2; 2; 1; 26; 8; 0; 0; 0; 0; 0; 0; 240; 63] /\
   Quadratic._InternalParse Quadratic.Quadratic_default_instance
     (Quadratic._InternalSerialize q) = Some q /\
   Quadratic.IsInitialized q = true) /\
  (forall q : Quadratic, Quadratic.IsInitialized q = true) /\
  (forall f : Function, Function.IsInitialized f = true) /\
  (forall d : Description, Instance_Description.IsInitialized d = true) /\
  (forall i : Instance, Instance.IsInitialized i = true).
Proof.
  split; [intros q v; apply add_independent|].
  split; [|repeat split].
  cbv zeta. split.
  { eapply (Quadratic.constructible_call (Quadratic.call_add_values _));
      [|exact I|reflexivity].
    eapply (Quadratic.constructible_call (Quadratic.call_add_rows _));
      [|exact I|reflexivity].
    eapply (Quadratic.constructible_call (Quadratic.call_add_rows _));
      [|exact I|reflexivity].
    apply Quadratic.constructible_default. }
  do 4 (split; [reflexivity|]).
  split; [vm_compute; reflexivity | reflexivity].
Qed.

End Round_trip.

(** ** The sample objects *)
Section Sample_facts.
Import Sample.
Local Existing Instance Opaque_Laws.
Local Existing Instance Quadratic_Laws.
Local Existing Instance Function_Laws.

Ltac fits_by_computation :=
  unfold fits, Wire.kMaxSize; vm_compute; discriminate.

Lemma term_valid : Opaque_valid term.
Proof.
  unfold Opaque_valid, term. cbn.
  constructor; [|constructor; [|constructor]]; split; cbn;
    change (2 ^ 29) with 536870912; change (2 ^ 64) with 18446744073709551616; lia.
Qed.

Lemma term_fits : fits (Opaque._InternalSerialize term).
Proof. fits_by_computation. Qed.

Lemma description_wf : Description_wf description.
Proof.
  unfold Description_wf, description. cbn.
  split; [lia|]. split; [|split]; intros H; reflexivity || discriminate H.
Qed.

Lemma string_ok_computed s :
  Utf8.IsStructurallyValid s = true ->
  (Z.of_nat (length s) <=? Wire.kMaxSize) = true -> string_ok s.
Proof. intros H1 H2. split; [exact H1 | apply Z.leb_le, H2]. Qed.

Lemma description_valid : Description_valid description.
Proof.
  split; [exact description_wf|].
  split; [apply string_ok_computed; reflexivity|].
  split; [apply string_ok_computed; reflexivity|].
  split; [apply string_ok_computed; reflexivity|].
  split.
  - constructor; [|constructor; [|constructor]];
      apply string_ok_computed; reflexivity.
  - constructor; [|constructor]. split; [|reflexivity].
    split; cbn; change (2 ^ 29) with 536870912;
      change (2 ^ 64) with 18446744073709551616; lia.
Qed.

Lemma quadratic_valid : Quadratic_valid quadratic.
Proof.
  unfold Quadratic_valid, uint64_ok. change (2 ^ 64) with 18446744073709551616.
  split; [constructor; [lia | constructor; [lia | constructor]]|].
  split; [fits_by_computation|].
  split; [constructor; [lia | constructor]|].
  split; [fits_by_computation|].
  split; [constructor; [lia | constructor]|].
  split; [fits_by_computation|].
  split; [|constructor].
  intros _. exists term. split; [reflexivity|].
  split; [exact term_valid | exact term_fits].
Qed.

Lemma function_valid : Function_valid function.
Proof.
  split; [|constructor]. right. split; [reflexivity|].
  split; [exact quadratic_valid | fits_by_computation].
Qed.

Lemma instance_valid : Instance_valid instance.
Proof.
  split.
  { intros _. exists description. split; [reflexivity|].
    split; [exact description_valid | fits_by_computation]. }
  split.
  { intros _. exists function. split; [reflexivity|].
    split; [exact function_valid | fits_by_computation]. }
  split; [constructor; [split; [exact term_valid | exact term_fits] | constructor]|].
  split; [constructor|].
  split; [unfold int32_ok; change (2 ^ 31) with 2147483648; cbn; lia|].
  constructor; [|constructor]. split; [|reflexivity].
  split; cbn; change (2 ^ 29) with 536870912;
    change (2 ^ 32) with 4294967296; lia.
Qed.

Lemma instance_wf : Instance_wf instance.
Proof.
  split; [exact description_wf|].
  split; [right; split; [reflexivity | exact I]|].
  split; [constructor; [exact I | constructor] | constructor].
Qed.

Lemma bare_wf : Instance_wf bare.
Proof.
  split; [reflexivity|]. split; [reflexivity|].
  split; repeat (constructor; try exact I).
Qed.

End Sample_facts.

(** ** The claims on the sample objects *)

#[local] Existing Instance Opaque.Opaque_Message.
#[local] Existing Instance Quadratic.Quadratic_Message.
#[local] Existing Instance Function.Function_Message.
#[local] Existing Instance Opaque_Laws.
#[local] Existing Instance Quadratic_Laws.
#[local] Existing Instance Function_Laws.

(** Claim C1 fails as the spec words it: a name that is not valid UTF-8 is
    set and encoded without complaint, and the parser rejects the bytes. *)
Lemma invalid_utf8_name_does_not_round_trip :
  Instance_Description.has_name Sample.not_utf8 = true /\
  Instance_Description._InternalSerialize Sample.not_utf8 = bytes [10; 1; 255] /\
  Instance_Description._InternalParse
    Instance_Description.Instance_Description_default_instance
    (Instance_Description._InternalSerialize Sample.not_utf8) = None.
Proof. split; [|split]; reflexivity. Qed.

Lemma round_trip_of_valid_messages_example :
  Instance_Description._InternalParse
    Instance_Description.Instance_Description_default_instance
    (Instance_Description._InternalSerialize Sample.description)
  = Some Sample.description /\
  (exists q',
     Quadratic._InternalParse Quadratic.Quadratic_default_instance
       (Quadratic._InternalSerialize Sample.quadratic) = Some q' /\
     Quadratic_same q' Sample.quadratic) /\
  (exists f',
     Function._InternalParse Function.Function_default_instance
       (Function._InternalSerialize Sample.function) = Some f' /\
     Function_same f' Sample.function) /\
  (exists bs i',
     Instance._InternalSerialize Sample.instance = Some bs /\
     Instance._InternalParse Instance.Instance_default_instance bs = Some i' /\
     Instance_same i' Sample.instance).
Proof.
  destruct (round_trip_of_valid_messages
              (DecisionVariable := Opaque.Opaque) (Constraint := Opaque.Opaque)
              (Linear := Opaque.Opaque) (Polynomial := Opaque.Opaque))
    as (HD & _ & HQ & HF & HI).
  split; [apply HD, description_valid|].
  split; [apply HQ, quadratic_valid|].
  split; [apply HF, function_valid | apply HI, instance_valid].
Defined.

(** From a default-constructed function: [set_constant], [mutable_linear],
    then [mutable_quadratic], which deletes the linear submessage.  On an
    object whose linear submessage was deleted before, the same call has
    no defined result. *)
Lemma oneof_exclusive_after_calls_example :
  exists g g0 f' : Sample.Function,
    Function.do_calls [Function.call_set_constant 1; Function.call_mutable_linear]
      Function.Function_default_instance = Some g /\
    Function.function_ g = Function.linear_ (live Opaque.Opaque_default_instance) /\
    Function.function_case g = Function.kLinear /\
    Function.clear_function g = Some g0 /\
    Function.function_ g0 = Function.linear_ dangling /\
    Function.function_case g0 = Function.FUNCTION_NOT_SET /\
    Function.do_call Function.call_mutable_quadratic g0 = Some f' /\
    Function.do_call Function.call_mutable_quadratic g = Some f' /\
    Function.function_ f' =
      Function.quadratic_ (live Quadratic.Quadratic_default_instance) /\
    Function.function_case f' = Function.kQuadratic /\
    Function.has_constant f' = false /\ Function.has_linear f' = false /\
    Function.has_quadratic f' = true /\ Function.has_polynomial f' = false /\
    Function.do_call Function.call_mutable_quadratic
      ({| Function.function_ := Function.linear_ dangling;
          Function._oneof_case_ := Function.kLinear;
          Function._internal_metadata_ := [] |} : Sample.Function) = None.
Proof.
  destruct (oneof_exclusive_after_calls
              (Function.Function_default_instance : Sample.Function)
              [Function.call_set_constant 1; Function.call_mutable_linear]
              Function.call_mutable_quadratic)
    as (g & f' & Hg & Hf & _ & _ & Hc & H1 & H2 & H3 & H4 & Hclear & _ & Hall).
  - left. reflexivity.
  - assert (Eg : g = {| Function.function_ :=
                          Function.linear_ (live Opaque.Opaque_default_instance);
                        Function._oneof_case_ := Function.kLinear;
                        Function._internal_metadata_ := [] |}).
    { cbv in Hg. inversion Hg. reflexivity. }
    destruct Hclear as (g0 & E0 & Hc0 & Hl & _ & _ & Hf0).
    { rewrite Eg. discriminate. }
    destruct Hl as (l & _ & El0); [rewrite Eg; reflexivity|].
    exists g, g0, f'.
    split; [exact Hg|]. split; [rewrite Eg; reflexivity|].
    split; [rewrite Eg; reflexivity|].
    split; [exact E0|]. split; [exact El0|]. split; [exact Hc0|].
    split; [exact Hf0|]. split; [exact Hf|].
    split; [rewrite Eg in Hf; cbv in Hf; inversion Hf; reflexivity|].
    split; [exact Hc|]. split; [exact H1|]. split; [exact H2|].
    split; [exact H3|]. split; [exact H4|].
    reflexivity.
Defined.

Lemma inactive_variant_reads_default_example :
  Function.constant Sample.function = Some 0 /\
  Function.linear Sample.function = Some Opaque.Opaque_default_instance /\
  Function.polynomial Sample.function = Some Opaque.Opaque_default_instance.
Proof.
  destruct (inactive_variant_reads_default Sample.function)
    as (H1 & H2 & _ & H4).
  split; [apply H1; discriminate|].
  split; [apply H2; discriminate | apply H4; discriminate].
Defined.



Lemma sense_is_an_open_enum_example :
  exists i : Sample.Instance,
    Instance._InternalParse Instance.Instance_default_instance (bytes [40; 3])
      = Some i /\
    Instance.sense_ i = 3 /\
    Instance._InternalSerialize i = Some (bytes [40; 3]).
Proof.
  destruct (sense_is_an_open_enum
              (DecisionVariable := Opaque.Opaque) (Constraint := Opaque.Opaque)
              (Linear := Opaque.Opaque) (Quadratic := Sample.Quadratic)
              (Polynomial := Opaque.Opaque)) as (_ & _ & H & _).
  apply (H 3).
  - unfold int32_ok. change (2 ^ 31) with 2147483648. lia.
  - discriminate.
Defined.

Lemma no_structural_validation_example :
  exists q',
    Quadratic._InternalParse Quadratic.Quadratic_default_instance
      (Quadratic._InternalSerialize Sample.quadratic) = Some q' /\
    Quadratic.rows_ q' = [0; 1] /\ Quadratic.columns_ q' = [1] /\
    Quadratic.IsInitialized Sample.quadratic = true.
Proof.
  destruct (no_structural_validation
              (DecisionVariable := Opaque.Opaque) (Constraint := Opaque.Opaque)
              (Linear := Opaque.Opaque) (Polynomial := Opaque.Opaque))
    as (_ & (_ & _ & _ & _ & _ & _ & _) & HI & _).
  destruct (Quadratic_parse_serialize Sample.quadratic quadratic_valid)
    as (q' & E & _ & Hr & Hc & _).
  exists q'. split; [exact E|]. split; [exact Hr|]. split; [exact Hc | apply HI].
Defined.



Lemma constant_zero_is_present_example :
  exists f' : Sample.Function,
    Function.set_constant 0 Sample.function = Some f' /\
    Function.has_constant f' = true /\
    Function.constant f' = Some 0 /\
    Function.has_constant (Function.Function_default_instance : Sample.Function)
      = false.
Proof.
  destruct (constant_zero_is_present Sample.function)
    as (f' & E & H1 & _ & H2 & H3 & _).
  - right. reflexivity.
  - exists f'. split; [exact E|]. split; [exact H1|]. split; [exact H2 | exact H3].
Defined.

Lemma CopyFrom_overwrites_example :
  (exists heap',
     Instance.CopyFrom Sample.instances 1%positive 2%positive = Some heap' /\
     exists x2, heap' !! 1%positive = Some x2 /\ Instance_same x2 Sample.instance) /\
  (exists heap',
     Instance_Description.CopyFrom Sample.descriptions 1%positive 2%positive
       = Some heap' /\
     heap' !! 1%positive = Some Sample.description /\
     heap' !! 2%positive = Some Sample.description).
Proof.
  destruct (CopyFrom_overwrites
              (DecisionVariable := Opaque.Opaque) (Constraint := Opaque.Opaque)
              (Linear := Opaque.Opaque) (Quadratic := Sample.Quadratic)
              (Polynomial := Opaque.Opaque)) as (HI & HD).
  split.
  - destruct (HI Sample.instances 1%positive 2%positive Sample.bare Sample.instance)
      as (heap' & E & _ & H); [reflexivity | reflexivity | exact bare_wf
                               | exact instance_wf |].
    destruct H as (x1 & x2 & _ & _ & -> & Hsame & _); [discriminate|].
    exists (<[1%positive := x2]> Sample.instances). split; [exact E|].
    exists x2. split; [apply lookup_insert_eq | exact Hsame].
  - destruct (HD Sample.descriptions 1%positive 2%positive
                Instance_Description.Instance_Description_default_instance
                Sample.description)
      as (heap' & E & _ & H); [reflexivity | reflexivity
                               | exact Description_wf_default
                               | exact description_wf |].
    destruct H as (_ & H1 & H2); [discriminate|].
    exists heap'. split; [exact E|]. split; [exact H1 | exact H2].
Defined.

(** Two merges into [Sample.instance], whose sense is 3: of an instance
    with a description, an objective and sense 0, and of one with neither
    and sense 2. *)
Lemma MergeFrom_semantics_example :
  (exists r : Sample.Instance,
     Instance.MergeFrom_ Sample.instance Sample.update = Some r /\
     Instance.decision_variables_ r = [Sample.term; Sample.term] /\
     Instance.constraints_ r = [Sample.term] /\
     Instance.sense_ r = 3 /\
     Instance.description_ r =
       live {| Instance_Description._has_bits_ := 7;
               Instance_Description.authors_ :=
                 [bytes [97; 98]; bytes [195; 169]; bytes [99]];
               Instance_Description.name_ := bytes [107; 110; 97; 112];
               Instance_Description.description_ := bytes [48; 45; 49];
               Instance_Description.created_by_ := bytes [111; 109; 109; 120];
               Instance_Description._internal_metadata_ := [(9, Wire.Varint 1)] |} /\
     Instance.objective_ r =
       live {| Function.function_ :=
                 Function.quadratic_
                   (live {| Quadratic._has_bits_ := 1;
                            Quadratic.rows_ := [0; 1; 2];
                            Quadratic.columns_ := [1; 0];
                            Quadratic.values_ :=
                              [4607182418800017408; 4611686018427387904];
                            Quadratic.linear_ := live Sample.term;
                            Quadratic._internal_metadata_ := [] |});
               Function._oneof_case_ := Function.kQuadratic;
               Function._internal_metadata_ := [] |} /\
     Instance._internal_metadata_ r = [(7, Wire.Fixed32 5); (8, Wire.Varint 2)]) /\
  (exists r : Sample.Instance,
     Instance.MergeFrom_ Sample.instance Sample.bare = Some r /\
     Instance.decision_variables_ r = [Sample.term; Sample.term; Sample.term] /\
     Instance.constraints_ r = [Sample.term] /\
     Instance.sense_ r = Instance.SENSE_MAXIMIZE /\
     Instance.description_ r = live Sample.description /\
     Instance.objective_ r = live Sample.function).
Proof.
  split.
  - destruct (MergeFrom_semantics Sample.instance Sample.update)
      as (r & E & Hv & Hc & Hs & _ & _ & _ & Hd & _ & _ & Ho & Hu).
    + split; exact I.
    + split; exact I.
    + exists r. split; [exact E|]. split; [exact Hv|]. split; [exact Hc|].
      split; [apply Hs; reflexivity|].
      destruct (Hd eq_refl) as (dy & Edy & dr & Edr & -> & _).
      destruct (Ho eq_refl) as (fy & Efy & Hfy).
      inversion Edy; subst dy. inversion Efy; subst fy.
      split; [rewrite Edr; reflexivity|].
      split; [exact Hfy | exact Hu].
  - destruct (MergeFrom_semantics Sample.instance Sample.bare)
      as (r & E & Hv & Hc & _ & Hs & _ & Hd & _ & _ & Ho & _).
    + split; exact I.
    + split; reflexivity.
    + exists r. split; [exact E|]. split; [exact Hv|]. split; [exact Hc|].
      split; [apply Hs; discriminate|].
      split; [apply Hd; reflexivity | apply Ho; reflexivity].
Defined.

(** * Further properties of the code

    ** Sizes *)
Section Size_facts.
Import Wire.

(** The closed formula of [VarintSize32] and [VarintSize64] counts the
    groups of seven bits. *)
Lemma VarintSize_log2 L : 0 <= L <= 63 -> (L * 9 + 73) / 64 = L / 7 + 1.
Proof. intros H. Z.div_mod_to_equations. lia. Qed.

Lemma log2_lor_1 v : 0 <= v -> Z.log2 (Z.lor v 1) = Z.log2 v.
Proof.
  intros Hv. rewrite Z.log2_lor by lia. change (Z.log2 1) with 0.
  pose proof (Z.log2_nonneg v). lia.
Qed.

Lemma WriteVarint_go_size n : forall v,
  0 <= v < 128 ^ Z.of_nat (S n) ->
  Z.of_nat (length (WriteVarint_go n v)) = Z.log2 (Z.lor v 1) / 7 + 1.
Proof.
  assert (Hsmall : forall v, 0 <= v < 128 -> Z.log2 (Z.lor v 1) / 7 = 0).
  { intros v Hv. rewrite log2_lor_1 by lia.
    destruct (Z.eq_dec v 0) as [-> | Hnz]; [reflexivity|].
    assert (Z.log2 v < 7) by (apply Z.log2_lt_pow2; change (2 ^ 7) with 128; lia).
    pose proof (Z.log2_nonneg v). Z.div_mod_to_equations. lia. }
  induction n as [|n IH]; intros v Hv.
  - cbn [WriteVarint_go length]. change (128 ^ Z.of_nat 1) with 128 in Hv.
    rewrite Hsmall by lia. reflexivity.
  - cbn [WriteVarint_go]. destruct (v <? 128) eqn:E.
    + apply Z.ltb_lt in E. cbn [length]. rewrite Hsmall by lia. reflexivity.
    + apply Z.ltb_ge in E. cbn [length]. rewrite Nat2Z.inj_succ, IH.
      * rewrite !log2_lor_1.
        -- rewrite Z.log2_shiftr by lia.
           assert (7 <= Z.log2 v) by (apply Z.log2_le_pow2; change (2 ^ 7) with 128; lia).
           rewrite Z.max_r by lia. Z.div_mod_to_equations. lia.
        -- lia.
        -- apply Z.shiftr_nonneg. lia.
      * rewrite Z.shiftr_div_pow2 by lia. change (2 ^ 7) with 128.
        rewrite (Nat2Z.inj_succ (S n)), Z.pow_succ_r in Hv by lia.
        split; [apply Z.div_pos; lia | apply Z.div_lt_upper_bound; lia].
Qed.

Lemma VarintSize32_length v :
  0 <= v < 2 ^ 32 -> VarintSize32 v = Z.of_nat (length (WriteVarint32 v)).
Proof.
  intros Hv. unfold VarintSize32, WriteVarint32.
  rewrite WriteVarint_go_size.
  - apply VarintSize_log2. rewrite log2_lor_1 by lia.
    pose proof (Z.log2_nonneg v).
    destruct (Z.eq_dec v 0) as [-> | Hnz]; [cbn; lia|].
    assert (Z.log2 v < 32) by (apply Z.log2_lt_pow2; lia). lia.
  - change (128 ^ Z.of_nat 5) with (2 ^ 35).
    assert (2 ^ 32 < 2 ^ 35) by (apply Z.pow_lt_mono_r; lia). lia.
Qed.

Lemma VarintSize64_length v :
  0 <= v < 2 ^ 64 -> VarintSize64 v = Z.of_nat (length (WriteVarint64 v)).
Proof.
  intros Hv. unfold VarintSize64, WriteVarint64.
  rewrite WriteVarint_go_size.
  - apply VarintSize_log2. rewrite log2_lor_1 by lia.
    pose proof (Z.log2_nonneg v).
    destruct (Z.eq_dec v 0) as [-> | Hnz]; [cbn; lia|].
    assert (Z.log2 v < 64) by (apply Z.log2_lt_pow2; lia). lia.
  - change (128 ^ Z.of_nat 10) with (2 ^ 70).
    assert (2 ^ 64 < 2 ^ 70) by (apply Z.pow_lt_mono_r; lia). lia.
Qed.

(** The size computed for a field is the number of bytes written for it. *)
Lemma UnknownFieldSize_length f :
  field_ok f ->
  UnknownFieldSize f = Z.of_nat (length (WriteField (fst f) (snd f))).
Proof.
  destruct f as [n w]. intros [Hn Hw]. cbn [fst snd] in *.
  unfold UnknownFieldSize, WriteField, WriteTag. cbn [fst snd].
  pose proof (wire_type_range w) as Hwt.
  rewrite length_app, Nat2Z.inj_add, <- VarintSize32_length.
  2:{ rewrite MakeTag_add by assumption. change (2 ^ 29) with 536870912 in Hn.
      change (2 ^ 32) with 4294967296. lia. }
  f_equal. destruct w as [v|v|payload|v]; cbn [value_ok WriteValue] in *.
  - apply VarintSize64_length, Hw.
  - rewrite WriteLE_length. reflexivity.
  - unfold kMaxSize in Hw. rewrite length_app, Nat2Z.inj_add.
    rewrite Z.mod_small by (change (2 ^ 32) with 4294967296; lia).
    rewrite VarintSize32_length by (change (2 ^ 32) with 4294967296; lia).
    reflexivity.
  - rewrite WriteLE_length. reflexivity.
Qed.

Lemma fold_left_add_size {A} (g : A -> Z) (l : list A) : forall acc,
  fold_left (fun size x => size + g x) l acc = acc + fold_left (fun size x => size + g x) l 0.
Proof.
  induction l as [|x l IH]; intros acc; cbn [fold_left]; [lia|].
  rewrite IH, (IH (0 + g x)). lia.
Qed.

Lemma ComputeUnknownFieldsSize_length u :
  Forall field_ok u ->
  ComputeUnknownFieldsSize u = Z.of_nat (length (SerializeUnknownFields u)).
Proof.
  unfold ComputeUnknownFieldsSize, SerializeUnknownFields.
  induction 1 as [|f u Hf _ IH]; [reflexivity|].
  cbn [fold_left map concat]. rewrite fold_left_add_size, IH.
  rewrite length_app, Nat2Z.inj_add, UnknownFieldSize_length by assumption. lia.
Qed.

Lemma MaybeComputeUnknownFieldsSize_length total_size u :
  Forall field_ok u ->
  MaybeComputeUnknownFieldsSize total_size u =
  total_size +
  Z.of_nat (length (if have_unknown_fields u then SerializeUnknownFields u else [])).
Proof.
  intros H. unfold MaybeComputeUnknownFieldsSize.
  destruct (have_unknown_fields u); [|cbn; lia].
  rewrite ComputeUnknownFieldsSize_length by assumption. reflexivity.
Qed.

(** A length-delimited field of number 1 to 15 takes one byte of tag, the
    length prefix and the payload. *)
Lemma LengthDelimited_field_length n payload :
  1 <= n <= 15 -> fits payload ->
  Z.of_nat (length (WriteField n (LengthDelimited payload))) =
  1 + LengthDelimitedSize (Z.of_nat (length payload)).
Proof.
  intros Hn Hp. unfold fits, kMaxSize in Hp.
  unfold WriteField, WriteTag, LengthDelimitedSize. cbn [wire_type WriteValue].
  rewrite !length_app, !Nat2Z.inj_add.
  rewrite Z.mod_small by (change (2 ^ 32) with 4294967296; lia).
  rewrite <- (VarintSize32_length (Z.of_nat (length payload)))
    by (change (2 ^ 32) with 4294967296; lia).
  assert (Htag : Z.of_nat (length (WriteVarint32 (MakeTag n WIRETYPE_LENGTH_DELIMITED))) = 1).
  { rewrite MakeTag_add by (unfold WIRETYPE_LENGTH_DELIMITED; lia).
    unfold WriteVarint32, WIRETYPE_LENGTH_DELIMITED. cbn [WriteVarint_go].
    destruct (n * 8 + 2 <? 128) eqn:E; [reflexivity | apply Z.ltb_ge in E; lia]. }
  rewrite Htag. lia.
Qed.

End Size_facts.

Section Description_size.
Import Wire Instance_Description.

Lemma authors_size l :
  Forall fits l ->
  Z.of_nat (length l) + fold_left (fun total_size s => total_size + StringSize s) l 0 =
  Z.of_nat (length (concat (map (WriteString 3) l))).
Proof.
  induction 1 as [|s l Hs _ IH]; [reflexivity|].
  cbn [fold_left map concat length]. rewrite fold_left_add_size.
  rewrite length_app, Nat2Z.inj_add, <- IH. unfold WriteString at 1.
  rewrite LengthDelimited_field_length by (lia || assumption).
  unfold StringSize. lia.
Qed.

Lemma Description_ByteSizeLong_length d :
  Description_encodable d ->
  ByteSizeLong_ d = Z.of_nat (length (_InternalSerialize d)).
Proof.
  intros (Hn & Hd & Hc & Ha & Hu).
  unfold ByteSizeLong_, _InternalSerialize, _internal_authors_size,
    _internal_authors, _internal_name, _internal_description,
    _internal_created_by.
  rewrite MaybeComputeUnknownFieldsSize_length by assumption.
  rewrite !length_app, !Nat2Z.inj_add, <- authors_size by assumption.
  rewrite fold_left_add_size.
  assert (Hfield : forall (b : bool) n s, 1 <= n <= 15 -> fits s ->
            Z.of_nat (length (if b then WriteString n s else [])) =
            if b then 1 + StringSize s else 0).
  { intros b n s Hn' Hs. destruct b; [|reflexivity].
    apply LengthDelimited_field_length; assumption. }
  rewrite !Hfield by (lia || assumption).
  destruct (test (_has_bits_ d) 7) eqn:E7.
  - destruct (test (_has_bits_ d) 1), (test (_has_bits_ d) 2),
      (test (_has_bits_ d) 4); lia.
  - rewrite (test_mask_false _ 7 1 E7), (test_mask_false _ 7 2 E7),
      (test_mask_false _ 7 4 E7) by reflexivity. lia.
Qed.

(** X1.  [ByteSizeLong] is the number of bytes [_InternalSerialize] writes,
    for every description whose strings and unknown fields can be written
    at all; on the default instance it is 0. *)
Theorem Description_ByteSizeLong_is_serialized_length d :
  Description_encodable d ->
  ByteSizeLong_ d = Z.of_nat (length (_InternalSerialize d)) /\
  ByteSizeLong_ Instance_Description_default_instance = 0.
Proof.
  intros H. split; [apply Description_ByteSizeLong_length, H | reflexivity].
Qed.

End Description_size.

Section Instance_size.
Import Wire Instance.
Context {DecisionVariable Constraint : Type}.
Context `{!Message DecisionVariable, !Message Constraint}.
Context {Linear Quadratic Polynomial : Type}.
Context `{!Message (Function.Function Linear Quadratic Polynomial)}.
Context `{!ByteSize DecisionVariable, !ByteSize Constraint}.
Context `{!ByteSize (Function.Function Linear Quadratic Polynomial)}.
Local Abbreviation Function := (Function.Function Linear Quadratic Polynomial).
Local Abbreviation Instance :=
  (Instance.Instance DecisionVariable Constraint Linear Quadratic Polynomial).
Implicit Types i : Instance.

Lemma messages_size {T} `{Message T} `{ByteSize T} n (l : list T) :
  1 <= n <= 15 -> Forall sized l ->
  Z.of_nat (length l) +
  fold_left (fun total_size msg => total_size + LengthDelimitedSize (ByteSizeLong msg))
    l 0 =
  Z.of_nat (length (concat (map (fun v => InternalWriteMessage n (InternalSerialize v)) l))).
Proof.
  intros Hn. induction 1 as [|x l [Hx Hfit] _ IH]; [reflexivity|].
  cbn [fold_left map concat length]. rewrite fold_left_add_size.
  rewrite length_app, Nat2Z.inj_add, <- IH. unfold InternalWriteMessage at 1.
  rewrite LengthDelimited_field_length by assumption. rewrite Hx. lia.
Qed.

Lemma message_size {T} `{Message T} `{ByteSize T} n (x : T) :
  1 <= n <= 15 -> sized x ->
  Z.of_nat (length (InternalWriteMessage n (InternalSerialize x))) =
  1 + LengthDelimitedSize (ByteSizeLong x).
Proof.
  intros Hn [Hx Hfit]. unfold InternalWriteMessage.
  rewrite LengthDelimited_field_length by assumption. rewrite Hx. reflexivity.
Qed.

Lemma WriteEnumToArray_size v :
  Z.of_nat (length (WriteEnumToArray 5 v)) = 1 + EnumSize v.
Proof.
  unfold WriteEnumToArray, WriteField, WriteTag, EnumSize.
  cbn [wire_type WriteValue]. rewrite length_app, Nat2Z.inj_add.
  rewrite <- VarintSize64_length by (apply Z.mod_pos_bound; reflexivity).
  reflexivity.
Qed.

(** X2.  [Instance::ByteSizeLong] is the number of bytes
    [Instance::_InternalSerialize] writes, when that holds of each
    submessage: the size of a submessage is counted with its length prefix
    and the sense as a sign-extended varint. *)
Theorem Instance_ByteSizeLong_is_serialized_length i :
  pointers_ok i -> Instance_sized i ->
  exists bs, _InternalSerialize i = Some bs /\
             ByteSizeLong_ i = Some (Z.of_nat (length bs)).
Proof.
  intros [Hpd Hpo] (Hv & Hc & Hd & Ho & Hu).
  unfold _InternalSerialize, ByteSizeLong_, _internal_decision_variables_size,
    _internal_constraints_size, _internal_decision_variables,
    _internal_constraints, _internal_sense, has_description, has_objective in *.
  pose proof (messages_size 2 _ ltac:(lia) Hv) as Ev.
  pose proof (messages_size 4 _ ltac:(lia) Hc) as Ec.
  rewrite (fold_left_add_size _ (decision_variables_ i)).
  rewrite (fold_left_add_size _ (constraints_ i)).
  assert (Hsense : Z.of_nat (length (if negb (sense_ i =? 0)
                                      then WriteEnumToArray 5 (sense_ i) else [])) =
                   if negb (sense_ i =? 0) then 1 + EnumSize (sense_ i) else 0).
  { destruct (negb (sense_ i =? 0)); [apply WriteEnumToArray_size | reflexivity]. }
  assert (E3 := test_mask_false (_has_bits_ i) 3).
  assert (Hdesc : forall d, test (_has_bits_ i) 1 = true -> description_ i = live d ->
            Z.of_nat (length (InternalWriteMessage 1
                                (Instance_Description._InternalSerialize d))) =
            1 + LengthDelimitedSize (Instance_Description.ByteSizeLong_ d)).
  { intros d E1 Ed. destruct (Hd d E1 Ed) as [Hde Hdf].
    unfold InternalWriteMessage.
    rewrite LengthDelimited_field_length by (lia || assumption).
    rewrite (Description_ByteSizeLong_length d Hde). reflexivity. }
  assert (Hobj : forall f, test (_has_bits_ i) 2 = true -> objective_ i = live f ->
            Z.of_nat (length (InternalWriteMessage 3 (InternalSerialize f))) =
            1 + LengthDelimitedSize (ByteSizeLong f)).
  { intros f E2 Ef. apply message_size; [lia | apply Ho; assumption]. }
  destruct (test (_has_bits_ i) 3) eqn:Eh3.
  - destruct (test (_has_bits_ i) 1) eqn:E1, (test (_has_bits_ i) 2) eqn:E2;
      destruct (description_ i) as [|d|]; try contradiction; try discriminate;
      destruct (objective_ i) as [|f|]; try contradiction; try discriminate;
      cbn [deref mbind option_bind]; eexists; (split; [reflexivity|]); f_equal;
      rewrite MaybeComputeUnknownFieldsSize_length by assumption;
      rewrite !length_app, !Nat2Z.inj_add, Hsense, <- Ev, <- Ec;
      rewrite ?(Hdesc d eq_refl eq_refl), ?(Hobj f eq_refl eq_refl);
      destruct (negb (sense_ i =? 0)); cbn [length]; lia.
  - rewrite (E3 1 eq_refl eq_refl), (E3 2 eq_refl eq_refl).
    cbn [mbind option_bind]. eexists. split; [reflexivity|]. f_equal.
    rewrite MaybeComputeUnknownFieldsSize_length by assumption.
    rewrite !length_app, !Nat2Z.inj_add, Hsense, <- Ev, <- Ec.
    destruct (negb (sense_ i =? 0)); cbn [length]; lia.
Qed.

End Instance_size.

(** ** [Instance_Description]: parsing, merging, clearing *)
Section Description_more.
Import Wire Instance_Description.
Implicit Types d this from : Instance_Description.

Lemma has_bits_8_cases h :
  0 <= h < 8 ->
  h = 0 \/ h = 1 \/ h = 2 \/ h = 3 \/ h = 4 \/ h = 5 \/ h = 6 \/ h = 7.
Proof. lia. Qed.

(** Feeding the fields of a valid description to the table, starting from
    any object, merges the description into the object. *)
Lemma Description_feed_merge this d :
  Description_valid d ->
  feed table this (Description_fields d) = Some (MergeFrom this d).
Proof.
  intros (Hwf & Hn & Hd & Hc & Ha & Hu).
  destruct Hwf as (Hh & H1 & H2 & H4).
  assert (Hu' : Forall (fun f => Description_recognized f = false)
                  (_internal_metadata_ d)).
  { eapply Forall_impl; [exact Hu|]. intros f [_ H]. exact H. }
  unfold Description_fields.
  rewrite Description_feed_name, Description_feed_description by assumption.
  rewrite feed_app, Description_feed_authors by assumption.
  rewrite Description_feed_created_by, Description_feed_unknown by assumption.
  f_equal.
  destruct this as [h0 a0 n0 d0 c0 u0], d as [h a n de c u].
  unfold MergeFrom, MergeImpl, _internal_set_name, _internal_set_description,
    _internal_set_created_by, _internal_name, _internal_description,
    _internal_created_by, _internal_authors.
  cbn [_has_bits_ name_ description_ created_by_ authors_
       Instance_Description._internal_metadata_] in *.
  destruct (has_bits_8_cases h Hh) as [-> | [-> | [-> | [-> | [-> | [-> | [-> | ->]]]]]]];
    repeat match goal with
           | |- context [test ?x ?m] =>
               let v := eval vm_compute in (test x m) in
               change (test x m) with v
           end;
    cbn [with_name with_description with_created_by with_has_bits with_authors
         with_metadata _has_bits_ name_ description_ created_by_ authors_
         Instance_Description._internal_metadata_];
    rewrite <- ?Z.lor_assoc; try rewrite Z.lor_0_r; reflexivity.
Qed.

Lemma Description_parse_merge this d :
  Description_valid d ->
  _InternalParse this (_InternalSerialize d) = Some (MergeFrom this d).
Proof.
  intros H. unfold _InternalParse. rewrite Description_serialize_fields.
  rewrite ParseLoop_all_fields by (apply Description_fields_ok, H).
  apply Description_feed_merge, H.
Qed.

(** X3.  Parsing the bytes of a description into an object that already
    holds data merges the two as [MergeFrom] does; so parsing two
    serializations one after the other, from scratch, gives the merge of
    the two descriptions. *)
Theorem Description_parse_is_merge this d1 d2 :
  Description_valid d1 -> Description_valid d2 ->
  _InternalParse this (_InternalSerialize d1) = Some (MergeFrom this d1) /\
  _InternalParse Instance_Description_default_instance
    (_InternalSerialize d1 ++ _InternalSerialize d2) = Some (MergeFrom d1 d2).
Proof.
  intros H1 H2. split; [apply Description_parse_merge, H1|].
  unfold _InternalParse. rewrite !Description_serialize_fields.
  rewrite ParseLoop_fields by (apply Description_fields_ok, H1).
  rewrite Description_feed_fields by exact H1.
  rewrite ParseLoop_all_fields by (apply Description_fields_ok, H2).
  apply Description_feed_merge, H2.
Qed.

(** A has-bit that is set is absorbed by [|=]. *)
(** X4.  What [MergeFrom] leaves in the destination: the source's authors
    and unknown fields after its own, each optional string of the source
    that is present in place of its own (one that is absent in the source
    leaves the destination's alone), and the presence of either. *)
Theorem Description_MergeFrom_fields this from :
  let r := MergeFrom this from in
  authors_ r = authors_ this ++ authors_ from /\
  name_ r = (if has_name from then name_ from else name_ this) /\
  description_ r =
    (if has_description from then description_ from else description_ this) /\
  created_by_ r =
    (if has_created_by from then created_by_ from else created_by_ this) /\
  has_name r = has_name this || has_name from /\
  has_description r = has_description this || has_description from /\
  has_created_by r = has_created_by this || has_created_by from /\
  _internal_metadata_ r = _internal_metadata_ this ++ _internal_metadata_ from.
Proof.
  cbv zeta. rewrite Description_MergeFrom_eq.
  unfold has_name, has_description, has_created_by. cbn [_has_bits_].
  rewrite !test_lor. repeat (split; [reflexivity|]). reflexivity.
Qed.

(** X5.  [MergeFrom] is associative, merging the default instance in
    changes nothing, and merging a well-formed description into the
    default instance copies it. *)
Theorem Description_MergeFrom_monoid x y z :
  MergeFrom (MergeFrom x y) z = MergeFrom x (MergeFrom y z) /\
  MergeFrom x Instance_Description_default_instance = x /\
  (Description_wf y -> MergeFrom Instance_Description_default_instance y = y).
Proof.
  split; [|split].
  - rewrite !Description_MergeFrom_eq.
    unfold has_name, has_description, has_created_by.
    cbn [_has_bits_ name_ description_ created_by_ authors_
         Instance_Description._internal_metadata_].
    rewrite !test_lor, Z.lor_assoc, !app_assoc.
    destruct (test (_has_bits_ y) 1), (test (_has_bits_ z) 1),
      (test (_has_bits_ y) 2), (test (_has_bits_ z) 2),
      (test (_has_bits_ y) 4), (test (_has_bits_ z) 4); reflexivity.
  - rewrite Description_MergeFrom_eq. destruct x as [h a n d c u].
    cbn. rewrite Z.lor_0_r, !app_nil_r. reflexivity.
  - apply Description_MergeFrom_default.
Qed.

(** X6.  [Clear] leaves an object that is written as no byte at all, of
    size 0, and that a second [Clear] does not change; on a well-formed
    description it is the default instance. *)
Theorem Description_Clear_resets d :
  _InternalSerialize (Clear d) = [] /\
  ByteSizeLong_ (Clear d) = 0 /\
  Clear (Clear d) = Clear d /\
  has_name (Clear d) = false /\ has_description (Clear d) = false /\
  has_created_by (Clear d) = false /\
  (Description_wf d -> Clear d = Instance_Description_default_instance).
Proof.
  assert (E : exists n de c, Clear d =
            {| _has_bits_ := 0; authors_ := []; name_ := n; description_ := de;
               created_by_ := c; _internal_metadata_ := [] |}).
  { destruct d as [h a n de c u]. unfold Clear. cbn.
    destruct (test h 7), (test h 1), (test h 2), (test h 4); cbn;
      eexists _, _, _; reflexivity. }
  destruct E as (n & de & c & E).
  split; [rewrite E; reflexivity|]. split; [rewrite E; reflexivity|].
  split; [rewrite E; reflexivity|]. do 3 (split; [rewrite E; reflexivity|]).
  apply Description_Clear_default.
Qed.

(** One field handed to the table only adds to the object. *)
Lemma Description_table_grows this n w t :
  table this n w = Some t ->
  (forall mask, test (_has_bits_ this) mask = true ->
                test (_has_bits_ t) mask = true) /\
  authors_ this `prefix_of` authors_ t /\
  _internal_metadata_ this `prefix_of` _internal_metadata_ t.
Proof.
  assert (Hset : forall b mask, test (_has_bits_ this) mask = true ->
            test (Z.lor (_has_bits_ this) b) mask = true).
  { intros b mask H. rewrite test_lor, H. reflexivity. }
  unfold table. intros H.
  destruct w as [v|v|s|v];
    try (inversion H; subst; cbn; split; [tauto|];
         split; [reflexivity | apply prefix_app_r; reflexivity]).
  destruct (n =? 1); [|destruct (n =? 2); [|destruct (n =? 3); [|destruct (n =? 4)]]];
    try (destruct (Utf8.IsStructurallyValid s); [|discriminate]);
    inversion H; subst; cbn;
    (split; [first [apply Hset | tauto]|]);
    (split; [first [reflexivity | apply prefix_app_r; reflexivity]
            | first [reflexivity | apply prefix_app_r; reflexivity]]).
Qed.

Lemma Description_feed_grows fs : forall this m,
  feed table this fs = Some m ->
  (forall mask, test (_has_bits_ this) mask = true ->
                test (_has_bits_ m) mask = true) /\
  authors_ this `prefix_of` authors_ m /\
  _internal_metadata_ this `prefix_of` _internal_metadata_ m.
Proof.
  induction fs as [|[n w] fs IH]; intros this m H.
  - inversion H; subst. split; [tauto|]. split; reflexivity.
  - cbn [feed fst snd] in H.
    destruct (table this n w) as [t|] eqn:E; [|discriminate].
    apply Description_table_grows in E as (E1 & E2 & E3).
    apply IH in H as (H1 & H2 & H3).
    split; [intros mask Hm; apply H1, E1, Hm|].
    split; etrans; eassumption.
Qed.

Lemma Description_parse_grows this bs m :
  _InternalParse this bs = Some m ->
  (forall mask, test (_has_bits_ this) mask = true ->
                test (_has_bits_ m) mask = true) /\
  authors_ this `prefix_of` authors_ m /\
  _internal_metadata_ this `prefix_of` _internal_metadata_ m.
Proof.
  intros H. apply ParseLoop_ReadFields in H as (fs & _ & H).
  apply Description_feed_grows in H. exact H.
Qed.

(** X7.  A string field whose bytes are not valid UTF-8 makes the parse
    fail, wherever it stands among well-formed fields and whatever
    follows it. *)
Theorem Description_parse_rejects_invalid_utf8 this fs n s rest :
  Forall field_ok fs -> 1 <= n <= 4 -> fits s ->
  Utf8.IsStructurallyValid s = false ->
  _InternalParse this (SerializeUnknownFields fs ++ WriteString n s ++ rest)
  = None.
Proof.
  intros Hfs Hn Hs Hbad. unfold _InternalParse.
  rewrite ParseLoop_fields by assumption.
  destruct (feed table this fs) as [this'|]; [|reflexivity].
  unfold WriteString. rewrite ParseLoop_WriteField.
  - unfold table. rewrite Hbad.
    destruct (n =? 1) eqn:E1; [reflexivity|].
    destruct (n =? 2) eqn:E2; [reflexivity|].
    destruct (n =? 3) eqn:E3; [reflexivity|].
    destruct (n =? 4) eqn:E4; [reflexivity | lia].
  - split; [cbn; change (2 ^ 29) with 536870912; lia | exact Hs].
Qed.

(** X8.  What the serializer writes, read back field by field: the name
    and the description if present (an empty one included), one field
    per author, [created_by] if present, then the unknown fields; an
    absent string is not written. *)
Theorem Description_serialized_layout d :
  Description_encodable d ->
  ReadFields (_InternalSerialize d) =
  Some ((if has_name d then [(1, LengthDelimited (name_ d))] else [])
        ++ (if has_description d
            then [(2, LengthDelimited (description_ d))] else [])
        ++ map (fun s => (3, LengthDelimited s)) (authors_ d)
        ++ (if has_created_by d
            then [(4, LengthDelimited (created_by_ d))] else [])
        ++ _internal_metadata_ d).
Proof.
  intros (Hn & Hd & Hc & Ha & Hu).
  rewrite Description_serialize_fields.
  apply (ReadFields_canonical (Description_fields d)).
  assert (Hf : forall n s, 1 <= n <= 4 -> fits s -> field_ok (n, LengthDelimited s)).
  { intros n s Hn' Hs. split; [cbn; change (2 ^ 29) with 536870912; lia | exact Hs]. }
  unfold Description_fields. repeat apply Forall_app_2.
  - destruct (test (_has_bits_ d) 1); [|constructor].
    constructor; [apply Hf; [lia | assumption] | constructor].
  - destruct (test (_has_bits_ d) 2); [|constructor].
    constructor; [apply Hf; [lia | assumption] | constructor].
  - apply Forall_map. eapply Forall_impl; [exact Ha|].
    intros s Hs. apply Hf; [lia | assumption].
  - destruct (test (_has_bits_ d) 4); [|constructor].
    constructor; [apply Hf; [lia | assumption] | constructor].
  - exact Hu.
Qed.

End Description_more.

(** ** [Instance]: nested parsing, clearing, copying, swapping *)
Section Instance_more.
Import Wire Instance.
Context {DecisionVariable Constraint : Type}.
Context `{!Message DecisionVariable, !Message Constraint}.
Context {Linear Quadratic Polynomial : Type}.
Context `{!Message (Function.Function Linear Quadratic Polynomial)}.
Local Abbreviation Function := (Function.Function Linear Quadratic Polynomial).
Local Abbreviation Description := Instance_Description.Instance_Description.
Local Abbreviation Instance :=
  (Instance.Instance DecisionVariable Constraint Linear Quadratic Polynomial).
Implicit Types i this from other : Instance.

(** How the table treats one occurrence of field 1. *)
Lemma Instance_parse_field_1 this payload rest :
  fits payload ->
  _InternalParse this (InternalWriteMessage 1 payload ++ rest) =
  d0 ← get_or_new Instance_Description.Instance_Description_default_instance
         (description_ this);
  d ← Instance_Description._InternalParse d0 payload;
  _InternalParse
    (with_description (live d) (with_has_bits (Z.lor (_has_bits_ this) 1) this))
    rest.
Proof.
  intros Hp. unfold _InternalParse, InternalWriteMessage.
  rewrite ParseLoop_WriteField
    by (split; [cbn; change (2 ^ 29) with 536870912; lia | exact Hp]).
  cbn [table]. change (1 =? 1) with true. cbv iota.
  destruct (get_or_new _ _) as [d0|]; [|reflexivity]. cbn [mbind option_bind].
  destruct (Instance_Description._InternalParse d0 payload); reflexivity.
Qed.

(** X9.  A description met on the wire is merged into the one the
    instance holds: parsing field 1 into an instance that has a
    description gives the [MergeFrom] of the two, into one that has none
    gives the description read; either way the description is marked
    present and nothing else changes. *)
Theorem Instance_parse_merges_description this d :
  description_ this <> dangling ->
  Description_valid d -> fits (Instance_Description._InternalSerialize d) ->
  _InternalParse this
    (InternalWriteMessage 1 (Instance_Description._InternalSerialize d)) =
  Some (with_description
          (live match description_ this with
                | live d0 => Instance_Description.MergeFrom d0 d
                | _ => d
                end)
          (with_has_bits (Z.lor (_has_bits_ this) 1) this)).
Proof.
  intros Hp Hd Hfit.
  rewrite <- (app_nil_r (InternalWriteMessage 1 _)).
  rewrite Instance_parse_field_1 by exact Hfit.
  destruct (description_ this) as [|d0|]; [| |contradiction];
    cbn [get_or_new mbind option_bind];
    rewrite Description_parse_merge by exact Hd; cbn [mbind option_bind].
  - rewrite Description_MergeFrom_default by apply Hd. reflexivity.
  - reflexivity.
Qed.

(** X10.  An error inside a nested description is an error of the
    instance: when the payload of field 1 does not parse as a description,
    the instance does not parse, whatever follows. *)
Theorem Instance_parse_fails_with_description this d0 payload rest :
  fits payload ->
  get_or_new Instance_Description.Instance_Description_default_instance
    (description_ this) = Some d0 ->
  Instance_Description._InternalParse d0 payload = None ->
  _InternalParse this (InternalWriteMessage 1 payload ++ rest) = None.
Proof.
  intros Hp Hd0 Hfail. rewrite Instance_parse_field_1 by exact Hp.
  rewrite Hd0. cbn [mbind option_bind]. rewrite Hfail. reflexivity.
Qed.

(** X11.  [Clear] empties an instance without giving up its submessages:
    the result has no has-bit, no element, sense 0 and no unknown field,
    and is written as no byte at all.  A description or objective marked
    present is cleared in place, by its own [Clear], and stays held; one
    held without its has-bit is left as it is. *)
Theorem Instance_Clear_keeps_submessages i :
  pointers_ok i ->
  exists i', Clear_ i = Some i' /\
    _has_bits_ i' = 0 /\ decision_variables_ i' = [] /\
    constraints_ i' = [] /\ sense_ i' = 0 /\ _internal_metadata_ i' = [] /\
    _InternalSerialize i' = Some [] /\
    description_ i' =
      (if has_description i
       then match description_ i with
            | live d => live (Instance_Description.Clear d)
            | p => p
            end
       else description_ i) /\
    objective_ i' =
      (if has_objective i
       then match objective_ i with
            | live f => live (Clear f)
            | p => p
            end
       else objective_ i) /\
    is_null (description_ i') = is_null (description_ i) /\
    is_null (objective_ i') = is_null (objective_ i) /\
    pointers_ok i' /\ Clear_ i' = Some i'.
Proof.
  intros [Hd Ho]. destruct i as [h vs cs dp op s u].
  unfold Clear_, pointers_ok, has_description, has_objective in *.
  cbn [_has_bits_ decision_variables_ constraints_ description_ objective_
       sense_ Instance._internal_metadata_ with_decision_variables
       with_constraints] in *.
  destruct (test h 3) eqn:E3.
  - destruct (test h 1) eqn:E1, (test h 2) eqn:E2;
      destruct dp as [|d|]; try contradiction; try discriminate;
      destruct op as [|f|]; try contradiction; try discriminate;
      cbn; eexists; (split; [reflexivity|]); cbn;
      repeat split; try reflexivity; exact I.
  - destruct (test_3_false h E3) as [E1 E2]. rewrite E1, E2 in *.
    destruct dp as [|d|]; try contradiction;
      destruct op as [|f|]; try contradiction;
      cbn; eexists; (split; [reflexivity|]); cbn;
      repeat split; try reflexivity; exact I.
Qed.

(** X12.  The copy constructor gives an object that is written as the
    same bytes as its source.  It copies a submessage only where the
    has-bit says one is present: a description or objective that the
    source holds without its has-bit is not copied. *)
Theorem Instance_copy_serializes_alike from :
  pointers_ok from ->
  exists c, copy from = Some c /\
    _InternalSerialize c = _InternalSerialize from /\
    _has_bits_ c = _has_bits_ from /\
    decision_variables_ c = decision_variables_ from /\
    constraints_ c = constraints_ from /\
    sense_ c = sense_ from /\
    _internal_metadata_ c = _internal_metadata_ from /\
    description_ c =
      (if has_description from then description_ from else null) /\
    objective_ c = (if has_objective from then objective_ from else null) /\
    pointers_ok c.
Proof.
  intros [Hd Ho]. destruct from as [h vs cs dp op s u].
  unfold copy, pointers_ok, has_description, has_objective, _InternalSerialize in *.
  cbn [_has_bits_ decision_variables_ constraints_ description_ objective_
       sense_ Instance._internal_metadata_] in *.
  destruct (test h 1) eqn:E1, (test h 2) eqn:E2;
    destruct dp as [|d|]; try contradiction; try discriminate;
    destruct op as [|f|]; try contradiction; try discriminate;
    cbn [deref mbind option_bind]; rewrite ?Description_copy_eq;
    eexists; (split; [reflexivity|]);
    cbn [_has_bits_ decision_variables_ constraints_ description_ objective_
         sense_ Instance._internal_metadata_ app
         _internal_decision_variables _internal_constraints _internal_sense];
    rewrite ?E1, ?E2; cbn [deref mbind option_bind];
    repeat (split; [reflexivity|]); split; try exact I; reflexivity.
Qed.

(** X13.  [InternalSwap] exchanges the two objects whole: every field of
    one is afterwards in the other, for [Instance] and for
    [Instance_Description], so swapping twice restores both. *)
Theorem InternalSwap_exchanges this other (d1 d2 : Description) :
  InternalSwap this other = (other, this) /\
  Instance_Description.InternalSwap d1 d2 = (d2, d1) /\
  (let '(a, b) := InternalSwap this other in InternalSwap a b) = (this, other) /\
  (let '(a, b) := Instance_Description.InternalSwap d1 d2 in
   Instance_Description.InternalSwap a b) = (d1, d2).
Proof.
  assert (E1 : forall x y : Instance, InternalSwap x y = (y, x))
    by (intros [] []; reflexivity).
  assert (E2 : forall x y : Description,
            Instance_Description.InternalSwap x y = (y, x))
    by (intros [] []; reflexivity).
  rewrite !E1, !E2. repeat split.
Qed.

(** Clearing one has-bit leaves the others. *)
Lemma test_clear_other h k j :
  0 <= k < 32 -> 0 <= j < 32 -> k <> j ->
  test (clear_bits h (2 ^ k)) (2 ^ j) = test h (2 ^ j).
Proof.
  intros Hk Hj Hne. unfold test, clear_bits. f_equal. f_equal.
  apply Z.bits_inj'. intros n Hn. rewrite !Z.land_spec.
  rewrite Z.pow2_bits_eqb by lia.
  destruct (Z.eqb_spec j n) as [<- | _]; [|rewrite !andb_false_r; reflexivity].
  rewrite !andb_true_r.
  rewrite Z.mod_pow2_bits_low by lia. rewrite Z.lnot_spec by lia.
  rewrite Z.pow2_bits_eqb by lia.
  destruct (Z.eqb_spec k j); [contradiction|]. apply andb_true_r.
Qed.

(** X14.  [clear_objective] drops the objective and nothing else: the
    has-bit of the objective is cleared and that of the description kept,
    a held objective stays held and is cleared in place, every other
    field is as before. *)
Theorem clear_objective_drops_only_the_objective i :
  pointers_ok i ->
  exists i', clear_objective i = Some i' /\
    has_objective i' = false /\
    has_description i' = has_description i /\
    objective_ i' = match objective_ i with
                    | live f => live (Clear f)
                    | p => p
                    end /\
    description_ i' = description_ i /\
    decision_variables_ i' = decision_variables_ i /\
    constraints_ i' = constraints_ i /\
    sense_ i' = sense_ i /\
    _internal_metadata_ i' = _internal_metadata_ i /\
    pointers_ok i'.
Proof.
  intros [Hd Ho]. destruct i as [h vs cs dp op s u].
  unfold clear_objective, pointers_ok, has_description, has_objective in *.
  cbn [_has_bits_ decision_variables_ constraints_ description_ objective_
       sense_ Instance._internal_metadata_] in *.
  assert (E2 : test (clear_bits h 2) 2 = false)
    by (apply test_clear; change (2 ^ 32) with 4294967296; lia).
  assert (E1 : test (clear_bits h 2) 1 = test h 1)
    by (apply (test_clear_other h 1 0); lia).
  destruct op as [|f|]; [| |contradiction]; cbn;
    (eexists; split; [reflexivity|]); cbn; rewrite E1, E2;
    repeat (split; [reflexivity|]);
    (split; [exact Hd | reflexivity || exact I]).
Qed.

(** How the table treats one occurrence of fields 2 and 4. *)
Lemma Instance_parse_field_2 this payload rest :
  fits payload ->
  _InternalParse this (InternalWriteMessage 2 payload ++ rest) =
  v ← InternalParse default_instance payload;
  _InternalParse
    (with_decision_variables (decision_variables_ this ++ [v]) this) rest.
Proof.
  intros Hp. unfold _InternalParse, InternalWriteMessage.
  rewrite ParseLoop_WriteField
    by (split; [cbn; change (2 ^ 29) with 536870912; lia | exact Hp]).
  cbn [table]. change (2 =? 1) with false. change (2 =? 2) with true. cbv iota.
  destruct (InternalParse default_instance payload); reflexivity.
Qed.

Lemma Instance_parse_field_4 this payload rest :
  fits payload ->
  _InternalParse this (InternalWriteMessage 4 payload ++ rest) =
  v ← InternalParse default_instance payload;
  _InternalParse (with_constraints (constraints_ this ++ [v]) this) rest.
Proof.
  intros Hp. unfold _InternalParse, InternalWriteMessage.
  rewrite ParseLoop_WriteField
    by (split; [cbn; change (2 ^ 29) with 536870912; lia | exact Hp]).
  cbn [table]. change (4 =? 1) with false. change (4 =? 2) with false.
  change (4 =? 3) with false. change (4 =? 4) with true. cbv iota.
  destruct (InternalParse default_instance payload); reflexivity.
Qed.

(** X15.  The occurrences of a repeated field are parsed one by one, each
    into a fresh element, and appended in the order of the wire after the
    elements already held; if one of them does not parse, the instance
    does not. *)
Theorem Instance_parse_appends_elements :
  (forall payloads this, Forall fits payloads ->
     _InternalParse this (concat (map (InternalWriteMessage 2) payloads)) =
     vs ← mapM (InternalParse (default_instance : DecisionVariable)) payloads;
     Some (with_decision_variables (decision_variables_ this ++ vs) this)) /\
  (forall payloads this, Forall fits payloads ->
     _InternalParse this (concat (map (InternalWriteMessage 4) payloads)) =
     vs ← mapM (InternalParse (default_instance : Constraint)) payloads;
     Some (with_constraints (constraints_ this ++ vs) this)).
Proof.
  split.
  - induction payloads as [|p ps IH]; intros this Hfit.
    + cbn. rewrite app_nil_r. destruct this; reflexivity.
    + apply Forall_cons in Hfit as [Hp Hps]. cbn [map concat].
      rewrite Instance_parse_field_2 by exact Hp. cbn [mapM].
      destruct (InternalParse default_instance p) as [v|]; [|reflexivity].
      cbn [mbind option_bind]. rewrite IH by exact Hps.
      destruct (mapM _ ps) as [vs|]; [|reflexivity].
      cbn. rewrite <- app_assoc. reflexivity.
  - induction payloads as [|p ps IH]; intros this Hfit.
    + cbn. rewrite app_nil_r. destruct this; reflexivity.
    + apply Forall_cons in Hfit as [Hp Hps]. cbn [map concat].
      rewrite Instance_parse_field_4 by exact Hp. cbn [mapM].
      destruct (InternalParse default_instance p) as [v|]; [|reflexivity].
      cbn [mbind option_bind]. rewrite IH by exact Hps.
      destruct (mapM _ ps) as [vs|]; [|reflexivity].
      cbn. rewrite <- app_assoc. reflexivity.
Qed.

(** X16.  Merging an instance into a default-constructed one is copying
    it: [MergeFrom] then gives what the copy constructor gives; and merging
    a default instance into an instance changes nothing. *)
Theorem Instance_MergeFrom_default_is_copy i :
  pointers_ok i ->
  MergeFrom_ Instance_default_instance i = copy i /\
  MergeFrom_ i Instance_default_instance = Some i.
Proof.
  intros [Hd Ho]. destruct i as [h vs cs dp op s u].
  unfold MergeFrom_, MergeImpl, copy, pointers_ok, has_description,
    has_objective, _internal_sense in *.
  cbn [_has_bits_ decision_variables_ constraints_ description_ objective_
       sense_ Instance._internal_metadata_ Instance_default_instance
       _internal_decision_variables _internal_constraints
       with_decision_variables with_constraints] in *.
  split.
  - destruct (test h 3) eqn:E3.
    + destruct (test h 1) eqn:E1, (test h 2) eqn:E2;
        destruct dp as [|d|]; try contradiction; try discriminate;
        destruct op as [|f|]; try contradiction; try discriminate;
        cbn [deref mbind option_bind];
        destruct (Z.eqb_spec s 0) as [-> | _]; reflexivity.
    + destruct (test_3_false h E3) as [E1 E2]. rewrite E1, E2.
      cbn [mbind option_bind].
      destruct (Z.eqb_spec s 0) as [-> | _]; reflexivity.
  - change (test 0 3) with false. cbn. rewrite Z.lor_0_r, !app_nil_r.
    reflexivity.
Qed.

(** One field handed to the table only adds to the instance. *)
Lemma Instance_table_grows this n w t :
  table this n w = Some t ->
  (forall mask, test (_has_bits_ this) mask = true ->
                test (_has_bits_ t) mask = true) /\
  decision_variables_ this `prefix_of` decision_variables_ t /\
  constraints_ this `prefix_of` constraints_ t /\
  _internal_metadata_ this `prefix_of` _internal_metadata_ t.
Proof.
  assert (Hset : forall b mask, test (_has_bits_ this) mask = true ->
            test (Z.lor (_has_bits_ this) b) mask = true).
  { intros b mask H. rewrite test_lor, H. reflexivity. }
  assert (Hsame : forall x : Instance,
            _has_bits_ x = _has_bits_ this ->
            decision_variables_ x = decision_variables_ this ->
            constraints_ x = constraints_ this ->
            _internal_metadata_ this `prefix_of` _internal_metadata_ x ->
            (forall mask, test (_has_bits_ this) mask = true ->
                          test (_has_bits_ x) mask = true) /\
            decision_variables_ this `prefix_of` decision_variables_ x /\
            constraints_ this `prefix_of` constraints_ x /\
            _internal_metadata_ this `prefix_of` _internal_metadata_ x).
  { intros x -> -> -> Hu. split; [tauto|]. split; [reflexivity|].
    split; [reflexivity | exact Hu]. }
  unfold table. intros H. destruct w as [v|v|payload|v].
  - destruct (n =? 5); inversion H; subst; apply Hsame;
      reflexivity || (apply prefix_app_r; reflexivity).
  - inversion H; subst. apply Hsame; reflexivity || (apply prefix_app_r; reflexivity).
  - destruct (n =? 1).
    { destruct (get_or_new _ _); [|discriminate]. cbn in H.
      destruct (Instance_Description._InternalParse _ _); [|discriminate].
      inversion H; subst; cbn. split; [apply Hset|]. repeat split; reflexivity. }
    destruct (n =? 2).
    { destruct (InternalParse _ _); [|discriminate]. inversion H; subst; cbn.
      split; [tauto|]. split; [apply prefix_app_r; reflexivity|].
      split; reflexivity. }
    destruct (n =? 3).
    { destruct (get_or_new _ _); [|discriminate]. cbn in H.
      destruct (InternalParse _ _); [|discriminate].
      inversion H; subst; cbn. split; [apply Hset|]. repeat split; reflexivity. }
    destruct (n =? 4).
    { destruct (InternalParse _ _); [|discriminate]. inversion H; subst; cbn.
      split; [tauto|]. split; [reflexivity|].
      split; [apply prefix_app_r; reflexivity | reflexivity]. }
    inversion H; subst. apply Hsame; reflexivity || (apply prefix_app_r; reflexivity).
  - inversion H; subst. apply Hsame; reflexivity || (apply prefix_app_r; reflexivity).
Qed.

Lemma Instance_feed_grows fs : forall this m,
  feed table this fs = Some m ->
  (forall mask, test (_has_bits_ this) mask = true ->
                test (_has_bits_ m) mask = true) /\
  decision_variables_ this `prefix_of` decision_variables_ m /\
  constraints_ this `prefix_of` constraints_ m /\
  _internal_metadata_ this `prefix_of` _internal_metadata_ m.
Proof.
  induction fs as [|[n w] fs IH]; intros this m H.
  - inversion H; subst. split; [tauto|]. repeat split; reflexivity.
  - cbn [feed fst snd] in H.
    destruct (table this n w) as [t|] eqn:E; [|discriminate].
    apply Instance_table_grows in E as (E1 & E2 & E3 & E4).
    apply IH in H as (H1 & H2 & H3 & H4).
    split; [intros mask Hm; apply H1, E1, Hm|].
    split; [etrans; eassumption|]. split; etrans; eassumption.
Qed.

(** X17.  Parsing only adds to the object parsed into, whatever the input:
    a submessage or string that was present stays present, and the
    elements and unknown fields that were there are still there, first.
    This holds of [Instance] and of [Instance_Description]. *)
Theorem parse_only_adds :
  (forall this bs (m : Instance), _InternalParse this bs = Some m ->
     (has_description this = true -> has_description m = true) /\
     (has_objective this = true -> has_objective m = true) /\
     decision_variables_ this `prefix_of` decision_variables_ m /\
     constraints_ this `prefix_of` constraints_ m /\
     _internal_metadata_ this `prefix_of` _internal_metadata_ m) /\
  (forall (this : Description) bs m,
     Instance_Description._InternalParse this bs = Some m ->
     (Instance_Description.has_name this = true ->
      Instance_Description.has_name m = true) /\
     (Instance_Description.has_description this = true ->
      Instance_Description.has_description m = true) /\
     (Instance_Description.has_created_by this = true ->
      Instance_Description.has_created_by m = true) /\
     Instance_Description.authors_ this `prefix_of`
       Instance_Description.authors_ m /\
     Instance_Description._internal_metadata_ this `prefix_of`
       Instance_Description._internal_metadata_ m).
Proof.
  split.
  - intros this bs m H. apply ParseLoop_ReadFields in H as (fs & _ & H).
    apply Instance_feed_grows in H as (H1 & H2 & H3 & H4).
    unfold has_description, has_objective.
    split; [apply H1|]. split; [apply H1|]. repeat split; assumption.
  - intros this bs m H. apply Description_parse_grows in H as (H1 & H2 & H3).
    unfold Instance_Description.has_name, Instance_Description.has_description,
      Instance_Description.has_created_by.
    split; [apply H1|]. split; [apply H1|]. split; [apply H1|].
    split; assumption.
Qed.

End Instance_more.

(** ** [Quadratic]: the accessors *)
Section Quadratic_more.
Import Quadratic.
Context {Linear : Type} `{!Message Linear}.
Local Abbreviation Quadratic := (Quadratic.Quadratic Linear).
Implicit Types q : Quadratic.

Ltac bools_to_Z :=
  repeat match goal with
         | H : (_ <=? _) = true |- _ => apply Z.leb_le in H
         | H : (_ <=? _) = false |- _ => apply Z.leb_gt in H
         | H : (_ <? _) = true |- _ => apply Z.ltb_lt in H
         | H : (_ <? _) = false |- _ => apply Z.ltb_ge in H
         end.

Lemma Get_in l index :
  0 <= index < Z.of_nat (length l) -> Get l index = l !! Z.to_nat index.
Proof.
  intros H. unfold Get.
  destruct (0 <=? index) eqn:E1, (index <? Z.of_nat (length l)) eqn:E2;
    bools_to_Z; [reflexivity | lia | lia | lia].
Qed.

Lemma Get_None l index :
  index < 0 \/ Z.of_nat (length l) <= index -> Get l index = None.
Proof.
  intros H. unfold Get.
  destruct (0 <=? index) eqn:E1, (index <? Z.of_nat (length l)) eqn:E2;
    bools_to_Z; [lia | reflexivity | reflexivity | reflexivity].
Qed.

Lemma Get_Some l index :
  0 <= index < Z.of_nat (length l) -> exists v, Get l index = Some v.
Proof.
  intros H. rewrite Get_in by exact H. apply lookup_lt_is_Some_2. lia.
Qed.

Lemma Get_app_l l index v :
  0 <= index < Z.of_nat (length l) -> Get (l ++ [v]) index = Get l index.
Proof.
  intros H. rewrite !Get_in.
  - apply lookup_app_l. lia.
  - exact H.
  - rewrite length_app, Nat2Z.inj_add. lia.
Qed.

Lemma Get_app_last l v : Get (l ++ [v]) (Z.of_nat (length l)) = Some v.
Proof.
  rewrite Get_in.
  - rewrite Nat2Z.id. apply list_lookup_middle. reflexivity.
  - rewrite length_app, Nat2Z.inj_add. cbn [length]. lia.
Qed.

Lemma Set_in l index value :
  0 <= index < Z.of_nat (length l) ->
  Set_ l index value = Some (<[Z.to_nat index := value]> l).
Proof.
  intros H. unfold Set_.
  destruct (0 <=? index) eqn:E1, (index <? Z.of_nat (length l)) eqn:E2;
    bools_to_Z; [reflexivity | lia | lia | lia].
Qed.

Lemma Set_None l index value :
  index < 0 \/ Z.of_nat (length l) <= index -> Set_ l index value = None.
Proof.
  intros H. unfold Set_.
  destruct (0 <=? index) eqn:E1, (index <? Z.of_nat (length l)) eqn:E2;
    bools_to_Z; [lia | reflexivity | reflexivity | reflexivity].
Qed.

Lemma Set_Some l index value :
  0 <= index < Z.of_nat (length l) ->
  exists l', Set_ l index value = Some l' /\
    length l' = length l /\ Get l' index = Some value /\
    forall j, j <> index -> Get l' j = Get l j.
Proof.
  intros H. rewrite Set_in by exact H. eexists. split; [reflexivity|].
  split; [apply length_insert|]. split.
  - rewrite Get_in by (rewrite length_insert; exact H).
    apply list_lookup_insert_eq. lia.
  - intros j Hj.
    destruct (Z_lt_le_dec j 0) as [Hneg | Hpos];
      [rewrite !Get_None by (rewrite ?length_insert; lia); reflexivity|].
    destruct (Z_lt_le_dec j (Z.of_nat (length l))) as [Hlt | Hge];
      [|rewrite !Get_None by (rewrite ?length_insert; lia); reflexivity].
    rewrite !Get_in by (rewrite ?length_insert; lia).
    apply list_lookup_insert_ne. lia.
Qed.

Ltac array_laws_of field :=
  intros q index value;
  unfold rows_size, _internal_rows_size, _internal_rows, rows, set_rows,
    add_rows, clear_rows, columns_size, _internal_columns_size,
    _internal_columns, columns, set_columns, add_columns, clear_columns,
    values_size, _internal_values_size, _internal_values, values, set_values,
    add_values, clear_values;
  cbn [rows_ columns_ values_ with_rows with_columns with_values];
  split; [lia|];
  split; [rewrite length_app, Nat2Z.inj_add; reflexivity|];
  split; [apply Get_app_last|];
  split; [intros j Hj; apply Get_app_l, Hj|];
  split;
  [ intros Hin; split; [apply Get_Some, Hin|];
    destruct (Set_Some (field q) index value Hin)
      as (l' & -> & Hlen & Hget & Hother);
    eexists; split; [reflexivity|];
    unfold _internal_rows, _internal_columns, _internal_values;
    cbn [rows_ columns_ values_ with_rows with_columns with_values];
    split; [rewrite Hlen; reflexivity|]; split; assumption
  | split; [|reflexivity];
    intros Hout; split; [apply Get_None, Hout|];
    rewrite Set_None by exact Hout; reflexivity ].

(** X18.  The accessors of [rows], [columns] and [values] index a plain
    array: [add_...] appends one element and leaves the others, [set_...]
    replaces the element at an index within bounds and leaves the
    others and the size, an index below 0 or not below the size has no
    defined result for the getter or the setter, [clear_...] leaves no
    element. *)
Theorem Quadratic_arrays_are_indexed :
  array_laws (Q := Quadratic) rows_size rows set_rows add_rows clear_rows /\
  array_laws (Q := Quadratic) columns_size columns set_columns add_columns
    clear_columns /\
  array_laws (Q := Quadratic) values_size values set_values add_values
    clear_values.
Proof.
  split; [|split].
  - array_laws_of (@rows_ Linear).
  - array_laws_of (@columns_ Linear).
  - array_laws_of (@values_ Linear).
Qed.

(** X19.  [mutable_linear] marks the linear part present and hands out
    the submessage held, allocating a default one only when none is held:
    what was held keeps its content, a second call changes nothing and
    hands out the same submessage, and the three arrays are not touched. *)
Theorem Quadratic_mutable_linear_allocates_once q :
  linear_ q <> dangling ->
  exists l,
    mutable_linear q =
      (with_linear (live l) (with_has_bits (set_bit0 (_has_bits_ q)) q), live l) /\
    l = match linear_ q with live l0 => l0 | _ => default_instance end /\
    has_linear (fst (mutable_linear q)) = true /\
    linear (fst (mutable_linear q)) = Some l /\
    mutable_linear (fst (mutable_linear q)) = mutable_linear q /\
    rows_ (fst (mutable_linear q)) = rows_ q /\
    columns_ (fst (mutable_linear q)) = columns_ q /\
    values_ (fst (mutable_linear q)) = values_ q.
Proof.
  intros Hp. destruct q as [h r c v p u]. cbn [linear_] in Hp.
  assert (Hh : Z.lor (set_bit0 h) 1 = set_bit0 h).
  { unfold set_bit0. rewrite <- Z.lor_assoc. reflexivity. }
  destruct p as [|l0|]; [| |contradiction]; eexists;
    (split; [reflexivity|]); (split; [reflexivity|]);
    (split; [apply (has_linear_set h)|]);
    (split; [reflexivity|]);
    (split; [|repeat split]);
    unfold mutable_linear, _internal_mutable_linear; cbn; unfold set_bit0;
    rewrite <- Z.lor_assoc; reflexivity.
Qed.

(** X20.  Ownership of the linear part goes in with [set_allocated_linear]
    and comes back with [release_linear]: the pointer released is the one
    that was set, the part is then absent and reads as the default
    instance, and a second release gives null.  Setting null makes the
    part absent. *)
Theorem Quadratic_set_allocated_then_release q (value : ptr Linear) :
  linear_ q <> dangling ->
  exists q', set_allocated_linear value q = Some q' /\
    has_linear q' = negb (is_null value) /\
    linear_ q' = value /\
    (let '(q'', released) := release_linear q' in
     released = value /\
     has_linear q'' = false /\ linear_ q'' = null /\
     linear q'' = Some default_instance /\
     release_linear q'' = (q'', null)) /\
    rows_ q' = rows_ q /\ columns_ q' = columns_ q /\ values_ q' = values_ q.
Proof.
  intros Hp. destruct q as [h r c v p u]. cbn [linear_] in Hp.
  assert (Hc : forall x, clear_bit0 (clear_bit0 x) = clear_bit0 x).
  { intros x. unfold clear_bit0, clear_bits. rewrite <- Z.land_assoc, Z.land_diag.
    reflexivity. }
  assert (Hset : forall x, negb (Z.land (set_bit0 x) 1 =? 0) = true)
    by (intros x; apply (test_set x 1); lia).
  assert (Hclr : forall x, negb (Z.land (clear_bit0 x) 1 =? 0) = false)
    by (intros x; apply (test_clear x 1); change (2 ^ 32) with 4294967296; lia).
  unfold set_allocated_linear, release_linear, has_linear, linear,
    _internal_linear.
  cbn [linear_ _has_bits_].
  assert (Hdel : exists p', delete_ p = Some p')
    by (destruct p; [eexists; reflexivity .. | contradiction]).
  destruct Hdel as [p' ->]. cbn [mbind option_bind].
  eexists. split; [reflexivity|].
  cbn [linear_ _has_bits_ rows_ columns_ values_ with_linear with_has_bits
       is_null negb deref].
  rewrite Hc.
  destruct value as [|l|]; cbn [is_null negb];
    rewrite ?Hset, ?Hclr; repeat split; apply Hclr.
Qed.

End Quadratic_more.

(** ** [Function]: the accessors *)
Section Function_more.
Import Function.
Context {Linear Quadratic Polynomial : Type}.
Context `{!Message Linear, !Message Quadratic, !Message Polynomial}.
Local Abbreviation Function := (Function.Function Linear Quadratic Polynomial).
Implicit Types f g : Function.

Ltac by_cases f H :=
  destruct f as [[ | ? | [ | ? | ] | [ | ? | ] | [ | ? | ]] ? ?];
  unfold wf, function_case in H; cbn in H;
  destruct H as [H | H]; rewrite H in *; clear H.

(** X21.  A submessage handed to [unsafe_arena_set_allocated_...] becomes
    the active variant and is what the getter reads; [release_...] hands
    the same submessage back and leaves no variant set; releasing a
    variant that is not the active one gives null and changes nothing.
    This holds of the three message variants. *)
Theorem Function_set_allocated_then_release f
    (l : Linear) (q : Quadratic) (p : Polynomial) :
  wf f ->
  (exists f' f'',
     unsafe_arena_set_allocated_linear (live l) f = Some f' /\
     function_case f' = kLinear /\ linear f' = Some l /\
     release_linear f' = Some (f'', live l) /\
     function_case f'' = FUNCTION_NOT_SET /\ wf f'') /\
  (exists f' f'',
     unsafe_arena_set_allocated_quadratic (live q) f = Some f' /\
     function_case f' = kQuadratic /\ quadratic f' = Some q /\
     release_quadratic f' = Some (f'', live q) /\
     function_case f'' = FUNCTION_NOT_SET /\ wf f'') /\
  (exists f' f'',
     unsafe_arena_set_allocated_polynomial (live p) f = Some f' /\
     function_case f' = kPolynomial /\ polynomial f' = Some p /\
     release_polynomial f' = Some (f'', live p) /\
     function_case f'' = FUNCTION_NOT_SET /\ wf f'') /\
  (function_case f <> kLinear -> release_linear f = Some (f, null)) /\
  (function_case f <> kQuadratic -> release_quadratic f = Some (f, null)) /\
  (function_case f <> kPolynomial -> release_polynomial f = Some (f, null)).
Proof.
  intros H.
  split; [|split; [|split; [|split; [|split]]]].
  1-3: by_cases f H; eexists _, _; repeat split; left; reflexivity.
  - unfold release_linear. intros Hc.
    destruct (function_case f =? kLinear) eqn:E; [|reflexivity].
    apply Z.eqb_eq in E. contradiction.
  - unfold release_quadratic. intros Hc.
    destruct (function_case f =? kQuadratic) eqn:E; [|reflexivity].
    apply Z.eqb_eq in E. contradiction.
  - unfold release_polynomial. intros Hc.
    destruct (function_case f =? kPolynomial) eqn:E; [|reflexivity].
    apply Z.eqb_eq in E. contradiction.
Qed.

(** X22.  [mutable_linear] on a function whose active variant is the
    linear one hands out the submessage held and changes nothing; after
    another variant was selected, the submessage is gone: [mutable_linear]
    then hands out a fresh default one. *)
Theorem Function_switching_variant_discards f (l : Linear) :
  wf f ->
  (function_case f = kLinear -> linear f = Some l ->
   mutable_linear f = Some (f, live l)) /\
  exists f1 f2,
    fst <$> mutable_quadratic f = Some f1 /\
    mutable_linear f1 = Some (f2, live default_instance) /\
    linear f2 = Some default_instance /\
    function_case f2 = kLinear /\
    quadratic f2 = Some default_instance.
Proof.
  intros H. split.
  - intros Hc Hl. by_cases f H; cbn in *; try discriminate;
      inversion Hl; subst; reflexivity.
  - by_cases f H; eexists _, _; repeat split.
Qed.

(** X23.  [set_constant] stores the value whatever variant was active, and
    [constant] reads it back; a second [set_constant] replaces the value
    and nothing else; [clear_constant] then leaves no variant set, with
    [constant] reading 0, while on a function whose active variant is not
    the constant it does nothing. *)
Theorem Function_constant_set_then_get f (v w : Z) :
  wf f ->
  (exists f' f'',
     set_constant v f = Some f' /\ constant f' = Some v /\
     function_case f' = kConstant /\
     _internal_metadata_ f' = _internal_metadata_ f /\
     set_constant w f' = Some f'' /\ constant f'' = Some w /\
     f'' = with_function (constant_ w) f' /\
     function_case (clear_constant f') = FUNCTION_NOT_SET /\
     constant (clear_constant f') = Some 0) /\
  (function_case f <> kConstant -> clear_constant f = f).
Proof.
  intros H. split.
  - by_cases f H; eexists _, _; repeat split.
  - unfold clear_constant. intros Hc.
    destruct (function_case f =? kConstant) eqn:E; [|reflexivity].
    apply Z.eqb_eq in E. contradiction.
Qed.

End Function_more.

(** ** The further properties on the sample objects *)

#[local] Existing Instance Opaque.Opaque_ByteSize.
#[local] Existing Instance Sample.Function_ByteSize.

Lemma description_encodable : Description_encodable Sample.description.
Proof.
  destruct description_valid as (_ & [_ Hn] & [_ Hd] & [_ Hc] & Ha & Hu).
  split; [exact Hn|]. split; [exact Hd|]. split; [exact Hc|]. split.
  - eapply Forall_impl; [exact Ha|]. intros s [_ H]. exact H.
  - eapply Forall_impl; [exact Hu|]. intros f [H _]. exact H.
Qed.

Lemma revision_valid : Description_valid Sample.revision.
Proof.
  split.
  { unfold Description_wf, Sample.revision. cbn.
    split; [lia|]. split; [|split]; intros H; reflexivity || discriminate H. }
  split; [apply string_ok_computed; reflexivity|].
  split; [apply string_ok_computed; reflexivity|].
  split; [apply string_ok_computed; reflexivity|].
  split; [|constructor].
  constructor; [apply string_ok_computed; reflexivity | constructor].
Qed.

Lemma term_sized : sized Sample.term.
Proof. split; [reflexivity | exact term_fits]. Qed.

Lemma instance_sized : Instance_sized Sample.instance.
Proof.
  split; [constructor; [exact term_sized | constructor]|].
  split; [constructor|].
  split.
  { intros d _ E. inversion E; subst d.
    split; [exact description_encodable|].
    unfold fits, Wire.kMaxSize. vm_compute. discriminate. }
  split.
  { intros f _ E. inversion E; subst f. split; [reflexivity|].
    unfold fits, Wire.kMaxSize. vm_compute. discriminate. }
  constructor; [|constructor].
  split; cbn; change (2 ^ 29) with 536870912; change (2 ^ 32) with 4294967296; lia.
Qed.

Lemma instance_pointers_ok : pointers_ok Sample.instance.
Proof. split; exact I. Qed.

Lemma Description_ByteSizeLong_is_serialized_length_example :
  Instance_Description.ByteSizeLong_ Sample.description =
    Z.of_nat (length (Instance_Description._InternalSerialize Sample.description)) /\
  Instance_Description.ByteSizeLong_ Sample.description = 18.
Proof.
  destruct (Description_ByteSizeLong_is_serialized_length Sample.description
              description_encodable) as [H _].
  split; [exact H | reflexivity].
Defined.

Lemma Instance_ByteSizeLong_is_serialized_length_example :
  exists bs, Instance._InternalSerialize Sample.instance = Some bs /\
    Instance.ByteSizeLong_ Sample.instance = Some (Z.of_nat (length bs)).
Proof.
  exact (Instance_ByteSizeLong_is_serialized_length Sample.instance
           instance_pointers_ok instance_sized).
Defined.

Lemma Description_parse_is_merge_example :
  Instance_Description._InternalParse Sample.description
    (Instance_Description._InternalSerialize Sample.revision) =
    Some (Instance_Description.MergeFrom Sample.description Sample.revision) /\
  Instance_Description._InternalParse
    Instance_Description.Instance_Description_default_instance
    (Instance_Description._InternalSerialize Sample.revision ++
     Instance_Description._InternalSerialize Sample.description) =
    Some (Instance_Description.MergeFrom Sample.revision Sample.description).
Proof.
  split.
  - apply (Description_parse_is_merge Sample.description Sample.revision
             Sample.revision revision_valid revision_valid).
  - apply (Description_parse_is_merge Sample.description Sample.revision
             Sample.description revision_valid description_valid).
Defined.

Lemma parse_only_adds_example :
  Instance_Description.has_name
    (Instance_Description.MergeFrom Sample.description Sample.revision) = true /\
  Instance_Description.authors_ Sample.description `prefix_of`
    Instance_Description.authors_
      (Instance_Description.MergeFrom Sample.description Sample.revision).
Proof.
  destruct (parse_only_adds
              (DecisionVariable := Opaque.Opaque) (Constraint := Opaque.Opaque)
              (Linear := Opaque.Opaque) (Quadratic := Sample.Quadratic)
              (Polynomial := Opaque.Opaque)) as [_ HD].
  destruct (HD Sample.description
              (Instance_Description._InternalSerialize Sample.revision)
              (Instance_Description.MergeFrom Sample.description Sample.revision))
    as (H1 & _ & _ & H4 & _).
  - reflexivity.
  - split; [apply H1; reflexivity | exact H4].
Defined.

Lemma Description_serialized_layout_example :
  ReadFields (Instance_Description._InternalSerialize Sample.description) =
  Some [(1, Wire.LengthDelimited []);
        (3, Wire.LengthDelimited (bytes [97; 98]));
        (3, Wire.LengthDelimited (bytes [195; 169]));
        (4, Wire.LengthDelimited (bytes [111; 109; 109; 120]));
        (9, Wire.Varint 1)].
Proof.
  exact (Description_serialized_layout Sample.description description_encodable).
Defined.

Lemma Description_parse_rejects_invalid_utf8_example :
  Instance_Description._InternalParse Sample.description
    (Wire.SerializeUnknownFields [(2, Wire.LengthDelimited (bytes [111; 107]))] ++
     Wire.WriteString 3 (bytes [195; 40]) ++ bytes [34; 0]) = None.
Proof.
  apply Description_parse_rejects_invalid_utf8.
  - constructor; [|constructor]. split; cbn; [change (2 ^ 29) with 536870912; lia|].
    unfold Wire.kMaxSize. lia.
  - lia.
  - unfold fits, Wire.kMaxSize. cbn. lia.
  - reflexivity.
Defined.

Lemma Instance_parse_merges_description_example :
  Instance._InternalParse Sample.instance
    (Wire.InternalWriteMessage 1
       (Instance_Description._InternalSerialize Sample.revision)) =
  Some (Instance.with_description
          (live (Instance_Description.MergeFrom Sample.description Sample.revision))
          Sample.instance).
Proof.
  apply (Instance_parse_merges_description Sample.instance Sample.revision).
  - discriminate.
  - exact revision_valid.
  - unfold fits, Wire.kMaxSize. vm_compute. discriminate.
Defined.

Lemma Instance_parse_fails_with_description_example :
  Instance._InternalParse Sample.bare
    (Wire.InternalWriteMessage 1 (bytes [10; 1; 255]) ++ bytes [40; 1]) = None.
Proof.
  apply (Instance_parse_fails_with_description Sample.bare
           Instance_Description.Instance_Description_default_instance).
  - unfold fits, Wire.kMaxSize. cbn. lia.
  - reflexivity.
  - reflexivity.
Defined.

Lemma Instance_Clear_keeps_submessages_example :
  Instance.Clear_ Sample.instance =
    Some {| Instance._has_bits_ := 0;
            Instance.decision_variables_ := [];
            Instance.constraints_ := [];
            Instance.description_ :=
              live Instance_Description.Instance_Description_default_instance;
            Instance.objective_ := live (Function.Clear_ Sample.function);
            Instance.sense_ := 0;
            Instance._internal_metadata_ := [] |} /\
  Instance.description_ Sample.instance = live Sample.description /\
  Instance.objective_ Sample.instance = live Sample.function /\
  Function.function_case (Function.Clear_ Sample.function) =
    Function.FUNCTION_NOT_SET /\
  exists i', Instance.Clear_ Sample.instance = Some i' /\
    Instance._InternalSerialize i' = Some [] /\
    Instance.description_ i' =
      live Instance_Description.Instance_Description_default_instance /\
    Instance.objective_ i' = live (Function.Clear_ Sample.function).
Proof.
  split; [reflexivity|]. split; [reflexivity|]. split; [reflexivity|].
  split; [reflexivity|].
  destruct (Instance_Clear_keeps_submessages Sample.instance instance_pointers_ok)
    as (i' & E & _ & _ & _ & _ & _ & Hs & Hd & Ho & _).
  exists i'. split; [exact E|]. split; [exact Hs|].
  split; [exact Hd | exact Ho].
Defined.

Lemma Instance_copy_serializes_alike_example :
  exists c, Instance.copy Sample.instance = Some c /\
    Instance._InternalSerialize c = Instance._InternalSerialize Sample.instance.
Proof.
  destruct (Instance_copy_serializes_alike Sample.instance instance_pointers_ok)
    as (c & E & Hs & _).
  exists c. split; assumption.
Defined.

Lemma clear_objective_drops_only_the_objective_example :
  exists i', Instance.clear_objective Sample.instance = Some i' /\
    Instance.has_objective i' = false /\
    Instance.has_description i' = true /\
    Instance.objective_ i' = live (Clear Sample.function).
Proof.
  destruct (clear_objective_drops_only_the_objective Sample.instance
              instance_pointers_ok) as (i' & E & H1 & H2 & H3 & _).
  exists i'. split; [exact E|]. split; [exact H1|]. split; [exact H2 | exact H3].
Defined.

Lemma Instance_MergeFrom_default_is_copy_example :
  Instance.MergeFrom_ Instance.Instance_default_instance Sample.instance =
    Instance.copy Sample.instance /\
  Instance.MergeFrom_ Sample.instance Instance.Instance_default_instance =
    Some Sample.instance.
Proof.
  exact (Instance_MergeFrom_default_is_copy Sample.instance instance_pointers_ok).
Defined.

Lemma Quadratic_mutable_linear_allocates_once_example :
  exists l,
    Quadratic.mutable_linear
      (Quadratic.add_rows 7 (Quadratic.Quadratic_default_instance
                               : Sample.Quadratic)) =
      (Quadratic.with_linear (live l)
         (Quadratic.with_has_bits 1
            (Quadratic.add_rows 7 Quadratic.Quadratic_default_instance)),
       live l) /\
    l = Opaque.Opaque_default_instance.
Proof.
  destruct (Quadratic_mutable_linear_allocates_once
              (Quadratic.add_rows 7 (Quadratic.Quadratic_default_instance
                                       : Sample.Quadratic)))
    as (l & E & Hl & _).
  - discriminate.
  - exists l. split; [exact E | exact Hl].
Defined.

Lemma Quadratic_set_allocated_then_release_example :
  exists q', Quadratic.set_allocated_linear (live Sample.term)
               (Quadratic.Quadratic_default_instance : Sample.Quadratic) = Some q' /\
    Quadratic.has_linear q' = true /\
    snd (Quadratic.release_linear q') = live Sample.term.
Proof.
  destruct (Quadratic_set_allocated_then_release
              (Quadratic.Quadratic_default_instance : Sample.Quadratic)
              (live Sample.term))
    as (q' & E & Hh & Hl & Hr & _).
  - discriminate.
  - exists q'. split; [exact E|]. split; [exact Hh|].
    destruct (Quadratic.release_linear q') as [q'' released].
    destruct Hr as [Hr _]. exact Hr.
Defined.

Lemma function_wf : Function.wf Sample.function.
Proof. right. reflexivity. Qed.

Lemma Function_set_allocated_then_release_example :
  exists f' f'',
    Function.unsafe_arena_set_allocated_linear (live Sample.term) Sample.function
      = Some f' /\
    Function.function_case f' = Function.kLinear /\
    Function.linear f' = Some Sample.term /\
    Function.release_linear f' = Some (f'', live Sample.term) /\
    Function.function_case f'' = Function.FUNCTION_NOT_SET /\
    Function.wf f''.
Proof.
  destruct (Function_set_allocated_then_release Sample.function
              Sample.term Sample.quadratic Sample.term function_wf) as (H & _).
  exact H.
Defined.

Lemma Function_switching_variant_discards_example :
  exists f1 f2,
    fst <$> Function.mutable_quadratic Sample.function = Some f1 /\
    Function.mutable_linear f1 = Some (f2, live default_instance) /\
    Function.linear f2 = Some default_instance /\
    Function.function_case f2 = Function.kLinear /\
    Function.quadratic f2 = Some default_instance.
Proof.
  destruct (Function_switching_variant_discards Sample.function Sample.term
              function_wf) as (_ & H).
  exact H.
Defined.

Lemma Function_constant_set_then_get_example :
  exists f', Function.set_constant 4607182418800017408 Sample.function = Some f' /\
    Function.constant f' = Some 4607182418800017408 /\
    Function.function_case (Function.clear_constant f') = Function.FUNCTION_NOT_SET.
Proof.
  destruct (Function_constant_set_then_get Sample.function
              4607182418800017408 0 function_wf)
    as ((f' & f'' & E & Hc & _ & _ & _ & _ & _ & Hn & _) & _).
  exists f'. split; [exact E|]. split; [exact Hc | exact Hn].
Defined.
